(** * QtRemoteObjects: registry, repc signature/capability map, stored-property copy

    A shallow embedding of
    - [src/remoteobjects/qremoteobjectregistry.cpp]   (module [Registry]),
    - [tools/repc/repcodegenerator.cpp]               (modules [Repc], [SourceApi]),
    - [QtRemoteObjects::copyStoredProperties]         (module [StoredProperties]),
    together with the properties of the specification that concern them.

    Conventions.  A [QString] is a [string]: the texts handled here are
    .rep identifiers, type names and urls, i.e. Latin-1 text, so [toLatin1]
    is the byte-for-byte conversion.  A [QByteArray] is a [list byte].  A C++
    [int] is a [Z].  The two tables of the registry are [gmap]s: what is
    stated about them goes by key and by count.  The type table of repc is
    kept as the list of its nodes, so that the digest can be shown not to
    depend on how the nodes lie. *)

From Stdlib Require Import ZArith List String Ascii Lia Bool.
From Stdlib.Strings Require Import Byte.
From Stdlib Require Import DecimalString.
From stdpp Require Import gmap strings list fin_maps.

Local Open Scope Z_scope.

(** ** A small state monad: the C++ methods are [void] member functions that
    mutate the object and perform output. *)

Definition St (S A : Type) : Type := S → A * S.

#[global] Instance St_ret {S} : MRet (St S) := λ A a s, (a, s).
#[global] Instance St_bind {S} : MBind (St S) :=
  λ A B k m s, let (a, s') := m s in k a s'.
Definition get {S} : St S S := λ s, (s, s).
Definition modify {S} (f : S → S) : St S unit := λ s, (tt, f s).
Definition exec {S A} (m : St S A) (s : S) : S := snd (m s).

(** Sequential [for] loop over a container snapshot. *)
Fixpoint forEach {S A} (body : A → St S unit) (l : list A) : St S unit :=
  match l with
  | [] => mret tt
  | a :: l' => body a ;; forEach body l'
  end.

Lemma exec_forEach_cons {S A} (body : A → St S unit) (a : A) (l : list A) (s : S) :
  exec (forEach body (a :: l)) s = exec (forEach body l) (exec (body a) s).
Proof. unfold exec. simpl. unfold mbind, St_bind. by destruct (body a s). Qed.

(* ================================================================== *)
(** ** Byte strings *)

Definition QString := string.
Definition QByteArray := list byte.

(** [QString::toLatin1] on Latin-1 text. *)
Definition toLatin1 (s : QString) : QByteArray := list_byte_of_string s.

Definition byteZ (b : byte) : Z := Z.of_N (Byte.to_N b).
Definition Zbyte (z : Z) : byte :=
  match Byte.of_N (Z.to_N (z mod 256)) with
  | Some b => b
  | None => x00
  end.

(** [QByteArray::number(int)]: the decimal text of the number. *)
Definition QByteArray_number (n : Z) : QByteArray :=
  list_byte_of_string (NilZero.string_of_int (Z.to_int n)).

Definition hexDigit (z : Z) : byte :=
  if z <? 10 then Zbyte (48 + z) else Zbyte (87 + z).

(** [QByteArray::toHex]: two lower-case digits per byte. *)
Definition toHex (b : QByteArray) : QByteArray :=
  flat_map (λ c, [hexDigit (byteZ c / 16); hexDigit (byteZ c mod 16)]) b.

(* ================================================================== *)
(** ** qremoteobjectregistry.cpp *)

Module Registry.

Definition QUrl := string.

(** [QRemoteObjectSourceLocation]: a pair of a name and the url of the
    hosting node ([entry.first], [entry.second]). *)
Definition QRemoteObjectSourceLocation : Type := QString * QUrl.

(** Modelled from the spec: the replica states of section 4.3 (the header
    declaring [QRemoteObjectReplica::State] is not part of the sources; the
    registry only ever compares against [Valid]). *)
Inductive State := Uninitialized | Connecting | Valid | Suspect | SignatureMismatch.

#[global] Instance State_eq_dec : EqDecision State.
Proof. solve_decision. Defined.

(** The two invokable methods whose index [send] is given. *)
Inductive Method := M_addSource | M_removeSource.

#[global] Instance Method_eq_dec : EqDecision Method.
Proof. solve_decision. Defined.

(** [send(QMetaObject::InvokeMetaMethod, index, args)] *)
Record Packet := InvokeMetaMethod { method : Method; arg : QRemoteObjectSourceLocation }.

#[global] Instance Packet_eq_dec : EqDecision Packet.
Proof. solve_decision. Defined.

(** Log output of the three functions. *)
Inductive LogLine :=
| WarnLocalDuplicate (name : QString)
    (* "ignoring source <name> as this node already has a source by that name." *)
| WarnRemoteClaimed (name : QString) (by_ : QUrl)
    (* "ignoring source <name> as another source (<url>) has already registered that name." *)
| DebugAdded (entry : QRemoteObjectSourceLocation)
| DebugRemoved (entry : QRemoteObjectSourceLocation).

#[global] Instance LogLine_eq_dec : EqDecision LogLine.
Proof. solve_decision. Defined.

Definition isWarning (l : LogLine) : bool :=
  match l with
  | WarnLocalDuplicate _ | WarnRemoteClaimed _ _ => true
  | _ => false
  end.

(** The registry replica: the replica state, property 0 of the replica (the
    remote table, [sourceLocations()]), the private [hostedSources], and the
    two output channels. *)
Record RegistryObj := mkRegistry {
  state : State;
  sourceLocations : gmap string QUrl;
  hostedSources : gmap string QUrl;
  sent : list Packet;
  log : list LogLine
}.

Definition setHosted (h : gmap string QUrl) (r : RegistryObj) : RegistryObj :=
  mkRegistry (state r) (sourceLocations r) h (sent r) (log r).
Definition send (p : Packet) : St RegistryObj unit :=
  modify (λ r, mkRegistry (state r) (sourceLocations r) (hostedSources r) (sent r ++ [p]) (log r)).
Definition qLog (l : LogLine) : St RegistryObj unit :=
  modify (λ r, mkRegistry (state r) (sourceLocations r) (hostedSources r) (sent r) (log r ++ [l])).

Definition contains (m : gmap string QUrl) (k : QString) : bool :=
  bool_decide (is_Some (m !! k)).

(** [void QRemoteObjectRegistry::addSource(const QRemoteObjectSourceLocation &entry)] *)
Definition addSource (entry : QRemoteObjectSourceLocation) : St RegistryObj unit :=
  r ← get ;
  if contains (hostedSources r) (fst entry) then
    qLog (WarnLocalDuplicate (fst entry))
  else
    modify (setHosted (<[fst entry := snd entry]> (hostedSources r))) ;;
    if negb (bool_decide (state r = Valid)) then mret tt
    else
      match sourceLocations r !! fst entry with
      | Some other => qLog (WarnRemoteClaimed (fst entry) other)
      | None =>
          qLog (DebugAdded entry) ;;
          send (InvokeMetaMethod M_addSource entry)
      end.

(** [void QRemoteObjectRegistry::removeSource(const QRemoteObjectSourceLocation &entry)] *)
Definition removeSource (entry : QRemoteObjectSourceLocation) : St RegistryObj unit :=
  r ← get ;
  if negb (contains (hostedSources r) (fst entry)) then mret tt
  else
    modify (setHosted (delete (fst entry) (hostedSources r))) ;;
    if negb (bool_decide (state r = Valid)) then mret tt
    else
      qLog (DebugRemoved entry) ;;
      send (InvokeMetaMethod M_removeSource entry).

(** Body of the loop of [pushToRegistryIfNeeded] for the element the
    iterator points at; [sourceLocs] is the snapshot taken before the loop. *)
Definition pushOne (sourceLocs : gmap string QUrl) (it : QString * QUrl) : St RegistryObj unit :=
  match sourceLocs !! fst it with
  | Some other =>
      qLog (WarnRemoteClaimed (fst it) other) ;;
      modify (λ r, setHosted (delete (fst it) (hostedSources r)) r)
  | None =>
      send (InvokeMetaMethod M_addSource (fst it, snd it))
  end.

(** [void QRemoteObjectRegistry::pushToRegistryIfNeeded()] *)
Definition pushToRegistryIfNeeded : St RegistryObj unit :=
  r ← get ;
  if negb (bool_decide (state r = Valid)) then mret tt
  else if bool_decide (hostedSources r = ∅) then mret tt
  else forEach (pushOne (sourceLocations r)) (map_to_list (hostedSources r)).

(** The constructors connect [stateChanged] to [pushToRegistryIfNeeded]:
    a state change of the replica stores the new state and runs the slot. *)
Definition stateChanged (newState : State) : St RegistryObj unit :=
  modify (λ r, mkRegistry newState (sourceLocations r) (hostedSources r) (sent r) (log r)) ;;
  pushToRegistryIfNeeded.

(** *** [registerMetatypes]: the function-local [static bool initialized]
    and the calls to [qRegisterMetaType] made so far in the process. *)
Inductive MetaTypeName := MT_SourceLocation | MT_SourceLocations.

Record Process := mkProcess {
  initialized : bool;
  registrations : list MetaTypeName
}.

Definition qRegisterMetaType (t : MetaTypeName) : St Process unit :=
  modify (λ p, mkProcess (initialized p) (registrations p ++ [t])).

Definition registerMetatypes : St Process unit :=
  p ← get ;
  if initialized p then mret tt
  else
    modify (λ p, mkProcess true (registrations p)) ;;
    qRegisterMetaType MT_SourceLocation ;;
    qRegisterMetaType MT_SourceLocations.

(** Process start: the static is [false], nothing has been registered. *)
Definition processStart : Process := mkProcess false [].

End Registry.


(* ================================================================== *)
(** ** SHA-1 (FIPS 180-4), the algorithm [QCryptographicHash::Sha1] selects.
    [QCryptographicHash] belongs to QtCore; it is given here so that
    signatures can be evaluated. *)

Module Sha1.

Definition w32 (z : Z) : Z := z mod 2 ^ 32.
Definition rotl (n : Z) (x : Z) : Z :=
  w32 (Z.lor (Z.shiftl x n) (Z.shiftr x (32 - n))).
Definition add32 (a b : Z) : Z := w32 (a + b).
Definition not32 (x : Z) : Z := Z.lxor x (2 ^ 32 - 1).

(** Big-endian encodings. *)
Fixpoint be_bytes (n : nat) (z : Z) : list Z :=
  match n with
  | O => []
  | S n' => (Z.shiftr z (8 * Z.of_nat n')) mod 256 :: be_bytes n' z
  end.

Definition be_word (bs : list Z) : Z :=
  fold_left (λ acc b, acc * 256 + b) bs 0.

(** Padding: a 1 bit, zeros up to 56 mod 64, then the bit length on 64 bits. *)
Definition pad (msg : list Z) : list Z :=
  let len := Z.of_nat (length msg) in
  let zeros := Z.to_nat ((55 - len) mod 64) in
  msg ++ [128] ++ repeat 0 zeros ++ be_bytes 8 (8 * len).

Fixpoint words (n : nat) (bs : list Z) : list Z :=
  match n with
  | O => []
  | S n' => be_word (firstn 4 bs) :: words n' (skipn 4 bs)
  end.

(** The message schedule, extended one word at a time. *)
Fixpoint extend (n : nat) (w : list Z) : list Z :=
  match n with
  | O => w
  | S n' =>
      let t := length w in
      let g k := nth (t - k) w 0 in
      extend n' (w ++ [rotl 1 (Z.lxor (Z.lxor (g 3%nat) (g 8%nat)) (Z.lxor (g 14%nat) (g 16%nat)))])
  end.

Record H5 := mkH { ha : Z; hb : Z; hc : Z; hd : Z; he : Z }.

Definition round_f (t : nat) (b c d : Z) : Z :=
  if (t <? 20)%nat then Z.lor (Z.land b c) (Z.land (not32 b) d)
  else if (t <? 40)%nat then Z.lxor (Z.lxor b c) d
  else if (t <? 60)%nat then Z.lor (Z.lor (Z.land b c) (Z.land b d)) (Z.land c d)
  else Z.lxor (Z.lxor b c) d.

Definition round_k (t : nat) : Z :=
  if (t <? 20)%nat then 0x5A827999
  else if (t <? 40)%nat then 0x6ED9EBA1
  else if (t <? 60)%nat then 0x8F1BBCDC
  else 0xCA62C1D6.

Fixpoint rounds (t : nat) (ws : list Z) (s : H5) : H5 :=
  match ws with
  | [] => s
  | w :: ws' =>
      let tmp := add32 (add32 (add32 (rotl 5 (ha s)) (round_f t (hb s) (hc s) (hd s)))
                              (add32 (he s) (round_k t))) w in
      rounds (S t) ws' (mkH tmp (ha s) (rotl 30 (hb s)) (hc s) (hd s))
  end.

Definition block (h : H5) (bs : list Z) : H5 :=
  let s := rounds 0 (extend 64 (words 16 bs)) h in
  mkH (add32 (ha h) (ha s)) (add32 (hb h) (hb s)) (add32 (hc h) (hc s))
      (add32 (hd h) (hd s)) (add32 (he h) (he s)).

Fixpoint blocks (n : nat) (h : H5) (bs : list Z) : H5 :=
  match n with
  | O => h
  | S n' => blocks n' (block h (firstn 64 bs)) (skipn 64 bs)
  end.

Definition init : H5 :=
  mkH 0x67452301 0xEFCDAB89 0x98BADCFE 0x10325476 0xC3D2E1F0.

Definition sha1 (msg : QByteArray) : QByteArray :=
  let p := pad (map byteZ msg) in
  let h := blocks (length p / 64) init p in
  map Zbyte (flat_map (be_bytes 4) [ha h; hb h; hc h; hd h; he h]).

End Sha1.

(* ================================================================== *)
(** ** repcodegenerator.cpp: the AST the generator reads.
    The parser's header is not among the sources; each record lists the
    members read by the functions below, under the names they are read by
    (the model metadata and the sub-class indices of a class, which fill
    [m_models] and [m_subclasses] only, are left out). *)

Module ASTEnumParam.
Record t := mk { name : QString; value : Z }.
End ASTEnumParam.

Module ASTEnum.
Record t := mk { name : QString; params : list ASTEnumParam.t }.
End ASTEnum.

Module ASTDeclaration.
Record t := mk { type : QString; name : QString; variableType : Z }.
End ASTDeclaration.

Module ASTFunction.
Record t := mk { returnType : QString; name : QString; params : list ASTDeclaration.t }.
End ASTFunction.

Inductive Modifier := Constant | ReadOnly | ReadPush | ReadWrite | SourceOnlySetter.

#[global] Instance Modifier_eq_dec : EqDecision Modifier.
Proof. solve_decision. Defined.

Module ASTProperty.
Record t := mk { type : QString; name : QString; modifier : Modifier; isPointer : bool }.
End ASTProperty.

Module ASTClass.
Record t := mk {
  name : QString;
  properties : list ASTProperty.t;
  signalsList : list ASTFunction.t;
  slotsList : list ASTFunction.t;
  enums : list ASTEnum.t
}.
End ASTClass.

(** [QHash<QString, QByteArray>].  The nodes of a hash table lie in an order
    fixed by the hash seed of the process and by the history of the table;
    the list keeps that order, [find] and [operator[]] go by key. *)
Definition QHash := list (QString * QByteArray).

Fixpoint find (h : QHash) (k : QString) : option QByteArray :=
  match h with
  | [] => None
  | (k', v) :: h' => if String.eqb k' k then Some v else find h' k
  end.

(** [h[k] = v]: overwrite the node of [k], or add one. *)
Fixpoint assign (h : QHash) (k : QString) (v : QByteArray) : QHash :=
  match h with
  | [] => [(k, v)]
  | (k', v') :: h' => if String.eqb k' k then (k', v) :: h' else (k', v') :: assign h' k v
  end.

(** *** String helpers of [QString] *)

Fixpoint isPrefix (p s : string) : bool :=
  match p, s with
  | EmptyString, _ => true
  | String a p', String b s' => Ascii.eqb a b && isPrefix p' s'
  | String _ _, EmptyString => false
  end.

(** [s.lastIndexOf(needle)]: the start of the last occurrence, or -1.
    [i] is the index of the head of [s], [acc] the last match so far. *)
Fixpoint lastIndexOf_from (i : Z) (s needle : string) (acc : Z) : Z :=
  let acc' := if isPrefix needle s then i else acc in
  match s with
  | EmptyString => acc'
  | String _ s' => lastIndexOf_from (i + 1) s' needle acc'
  end.

Definition lastIndexOf (s needle : string) : Z := lastIndexOf_from 0 s needle (-1).

(** [s.mid(pos)] *)
Fixpoint dropS (n : nat) (s : string) : string :=
  match n, s with
  | O, _ => s
  | S n', String _ s' => dropS n' s'
  | S _, EmptyString => EmptyString
  end.

Definition mid (s : string) (pos : Z) : string := dropS (Z.to_nat pos) s.

(** The object representation of the two integral members whose raw bytes
    are hashed ([reinterpret_cast<const char *>(&x), sizeof(x)]): it is fixed
    by the compiler and the byte order of the host that runs repc. *)
Record Platform := mkPlatform {
  modifierRep : Modifier → QByteArray;
  variableTypeRep : Z → QByteArray
}.

Module Repc.

(** [static QByteArray enumSignature(const ASTEnum &e)] *)
Definition enumSignature (e : ASTEnum.t) : QByteArray :=
  toLatin1 (ASTEnum.name e) ++
  flat_map (λ param, toLatin1 (ASTEnumParam.name param) ++ QByteArray_number (ASTEnumParam.value param))
           (ASTEnum.params e).

(** [static QByteArray typeData(const QString &type, const QHash<QString, QByteArray> &specialTypes)].
    The function calls itself on [type.mid(pos + 2)]; [fuel] bounds the depth
    of the calls, [None] is "out of fuel". *)
Fixpoint typeData_fuel (fuel : nat) (type : QString) (specialTypes : QHash) : option QByteArray :=
  match fuel with
  | O => None
  | S fuel' =>
      match find specialTypes type with
      | Some v => Some v
      | None =>
          let pos := lastIndexOf type "::" in
          if 0 <? pos then typeData_fuel fuel' (mid type (pos + 2)) specialTypes
          else Some (toLatin1 type)
      end
  end.

(** One call per character is more than the recursion can use
    (see [typeData_fuel_enough]). *)
Definition typeData (type : QString) (specialTypes : QHash) : QByteArray :=
  match typeData_fuel (S (String.length type)) type specialTypes with
  | Some b => b
  | None => []
  end.

Section Signature.
Variable platform : Platform.

Definition paramData (specialTypes : QHash) (param : ASTDeclaration.t) : QByteArray :=
  toLatin1 (ASTDeclaration.name param) ++
  typeData (ASTDeclaration.type param) specialTypes ++
  variableTypeRep platform (ASTDeclaration.variableType param).

(** [static QByteArray functionsData(const QList<ASTFunction> &functions, ...)] *)
Definition functionsData (functions : list ASTFunction.t) (specialTypes : QHash) : QByteArray :=
  flat_map (λ func,
    toLatin1 (ASTFunction.name func) ++
    flat_map (paramData specialTypes) (ASTFunction.params func) ++
    typeData (ASTFunction.returnType func) specialTypes) functions.

(** The three [addData] calls made for one property. *)
Definition propertyData (localTypes : QHash) (p : ASTProperty.t) : QByteArray :=
  toLatin1 (ASTProperty.name p) ++
  typeData (ASTProperty.type p) localTypes ++
  modifierRep platform (ASTProperty.modifier p).

(** [localTypes]: the global table with the enums of the class added. *)
Definition localTypesOf (m_globalEnumsPODs : QHash) (ac : ASTClass.t) : QHash :=
  fold_left (λ localTypes e, assign localTypes (ASTEnum.name e) (enumSignature e))
            (ASTClass.enums ac) m_globalEnumsPODs.

(** Everything [classSignature] passes to [checksum.addData], in order. *)
Definition checksumData (m_globalEnumsPODs : QHash) (ac : ASTClass.t) : QByteArray :=
  let localTypes := localTypesOf m_globalEnumsPODs ac in
  toLatin1 (ASTClass.name ac) ++
  flat_map (propertyData localTypes) (ASTClass.properties ac) ++
  functionsData (ASTClass.signalsList ac) localTypes ++
  functionsData (ASTClass.slotsList ac) localTypes.

(** [QByteArray RepCodeGenerator::classSignature(const ASTClass &ac)] *)
Definition classSignature (m_globalEnumsPODs : QHash) (ac : ASTClass.t) : QByteArray :=
  toHex (Sha1.sha1 (checksumData m_globalEnumsPODs ac)).

End Signature.

(** *** Helpers of [generateSourceAPI] *)

Inductive Mode := REPLICA | SOURCE | SIMPLE_SOURCE | MERGED.

(** [static bool isClassEnum(const ASTClass &classContext, const QString &typeName)] *)
Definition isClassEnum (classContext : ASTClass.t) (typeName : QString) : bool :=
  existsb (λ astEnum, String.eqb (ASTEnum.name astEnum) typeName) (ASTClass.enums classContext).

(** [static QString fullyQualifiedTypeName(classContext, className, typeName)] *)
Definition fullyQualifiedTypeName (classContext : ASTClass.t) (className typeName : QString) : QString :=
  if isClassEnum classContext typeName then className +:+ "::" +:+ typeName else typeName.

(** [QString RepCodeGenerator::typeForMode(const ASTProperty &property, Mode mode)] *)
Definition typeForMode (property : ASTProperty.t) (mode : Mode) : QString :=
  if negb (ASTProperty.isPointer property) then ASTProperty.type property
  else if isPrefix "QAbstractItemModel" (ASTProperty.type property) then
    match mode with
    | REPLICA => ASTProperty.type property +:+ "Replica*"
    | _ => ASTProperty.type property +:+ "*"
    end
  else
    match mode with
    | REPLICA => ASTProperty.type property +:+ "Replica*"
    | SIMPLE_SOURCE | SOURCE => ASTProperty.type property +:+ "Source*"
    | MERGED => "InvalidPropertyName"
    end.

(** [transformEnumParams]: the parameters whose type is an enum of the class
    get the class scope in front, once per enum of that name. *)
Definition transformParam (classContext : ASTClass.t) (typeName : QString) (astParam : ASTDeclaration.t)
  : ASTDeclaration.t :=
  fold_left (λ p astEnum,
    if String.eqb (ASTEnum.name astEnum) (ASTDeclaration.type p)
    then ASTDeclaration.mk (typeName +:+ "::" +:+ ASTDeclaration.type p)
                           (ASTDeclaration.name p) (ASTDeclaration.variableType p)
    else p) (ASTClass.enums classContext) astParam.

Definition transformEnumParams (classContext : ASTClass.t) (methodList : list ASTFunction.t)
    (typeName : QString) : list ASTFunction.t :=
  map (λ astFunction,
    ASTFunction.mk (ASTFunction.returnType astFunction) (ASTFunction.name astFunction)
                   (map (transformParam classContext typeName) (ASTFunction.params astFunction)))
      methodList.

End Repc.

(* ================================================================== *)
(** ** The class [generateSourceAPI] writes: [<name>SourceAPI<ObjectType>].
    The generator emits C++ text; the definitions below are the meaning of
    that text, member by member.  An array read outside the array has no
    meaning in C++: reads are in [option], [None] is such a read. *)

Module SourceApi.
Import Repc.

(** What the generated constructor asks of [ObjectType] and of the
    [QtPrivate::qtro_*_index] templates instantiated with it: the value
    returned, and what the call leaves behind its [count] and [types]
    arguments.  They depend on the meta-object of [ObjectType] only, and are
    keyed here by the member named in the call and the parameter types of
    the cast beside it. *)
Record QtroIndex := mkQtro { q_index : Z; q_count : Z; q_types : list Z }.

Record ObjectType := mkObjectType {
  indexOfEnumerator : QString → Z;
  qtro_property_index : QString → Z;
  qtro_signal_index : QString → list QString → QtroIndex;
  qtro_method_index : QString → list QString → QtroIndex
}.

(** The data members declared at the end of the generated struct. *)
Record Members := mkMembers {
  m_enums : list Z;
  m_properties : list Z;
  m_signals : list Z;
  m_methods : list Z;
  m_signalArgCount : list Z;
  m_signalArgTypes : list (list Z);
  m_methodArgCount : list Z;
  m_methodArgTypes : list (list Z)
}.

(** [a[i]] *)
Definition rd {A} (a : list A) (i : Z) : option A :=
  if i <? 0 then None else a !! Z.to_nat i.

(** *** Values computed while generating *)

Definition count {A} (l : list A) : Z := Z.of_nat (length l).

(** [onChangeProperties] and [propertyChangeIndex] are filled by one loop
    over the properties; [i] is the loop index. *)
Fixpoint changeLoop (i : Z) (props : list ASTProperty.t) : list (ASTProperty.t * Z) :=
  match props with
  | [] => []
  | prop :: props' =>
      if decide (ASTProperty.modifier prop ≠ Constant)
      then (prop, i + 1) :: changeLoop (i + 1) props'
      else changeLoop (i + 1) props'
  end.

Definition onChangeProperties (astClass : ASTClass.t) : list ASTProperty.t :=
  (changeLoop 0 (ASTClass.properties astClass)).*1.
Definition propertyChangeIndex (astClass : ASTClass.t) : list Z :=
  (changeLoop 0 (ASTClass.properties astClass)).*2.

Definition pushProps (astClass : ASTClass.t) : list ASTProperty.t :=
  filter (λ property, ASTProperty.modifier property = ReadPush) (ASTClass.properties astClass).

Definition signalCount (astClass : ASTClass.t) : Z := count (ASTClass.signalsList astClass).
Definition changedCount (astClass : ASTClass.t) : Z := count (onChangeProperties astClass).
Definition methodCount (astClass : ASTClass.t) : Z :=
  count (ASTClass.slotsList astClass) + count (pushProps astClass).

Definition objectTypeName : QString := "typename ObjectType".

(** [cap]: first letter in upper case (identifiers are ASCII). *)
Definition cap (name : QString) : QString :=
  match name with
  | EmptyString => EmptyString
  | String c rest =>
      let n := nat_of_ascii c in
      String (if (97 <=? n)%nat && (n <=? 122)%nat then ascii_of_nat (n - 32) else c) rest
  end.

(** The [qtro_signal_index] calls, in the order of the slots of [m_signals]
    they fill: first the change signals, then the signals of the class. *)
Definition signalEntries (ot : ObjectType) (astClass : ASTClass.t) : list QtroIndex :=
  map (λ prop,
         qtro_signal_index ot (ASTProperty.name prop +:+ "Changed")
           [fullyQualifiedTypeName astClass objectTypeName (typeForMode prop SOURCE)])
      (onChangeProperties astClass) ++
  map (λ sig,
         qtro_signal_index ot (ASTFunction.name sig)
           (map ASTDeclaration.type (ASTFunction.params sig)))
      (transformEnumParams astClass (ASTClass.signalsList astClass) objectTypeName).

(** The [qtro_method_index] calls: push slots first, then the slots. *)
Definition methodEntries (ot : ObjectType) (astClass : ASTClass.t) : list QtroIndex :=
  map (λ prop,
         qtro_method_index ot ("push" +:+ cap (ASTProperty.name prop))
           [fullyQualifiedTypeName astClass objectTypeName (ASTProperty.type prop)])
      (pushProps astClass) ++
  map (λ slot,
         qtro_method_index ot (ASTFunction.name slot)
           (map ASTDeclaration.type (ASTFunction.params slot)))
      (transformEnumParams astClass (ASTClass.slotsList astClass) objectTypeName).

(** The generated constructor: slot 0 of each index table holds the count,
    slot [i+1] the index of entry [i]. *)
Definition construct (ot : ObjectType) (astClass : ASTClass.t) : Members :=
  {| m_enums :=
       count (ASTClass.enums astClass) ::
       map (λ enumerator, indexOfEnumerator ot (ASTEnum.name enumerator)) (ASTClass.enums astClass);
     m_properties :=
       count (ASTClass.properties astClass) ::
       map (λ prop, qtro_property_index ot (ASTProperty.name prop)) (ASTClass.properties astClass);
     m_signals :=
       (signalCount astClass + count (onChangeProperties astClass)) ::
       map q_index (signalEntries ot astClass);
     m_methods := methodCount astClass :: map q_index (methodEntries ot astClass);
     m_signalArgCount := map q_count (signalEntries ot astClass);
     m_signalArgTypes := map q_types (signalEntries ot astClass);
     m_methodArgCount := map q_count (methodEntries ot astClass);
     m_methodArgTypes := map q_types (methodEntries ot astClass) |}.

(** *** The generated member functions *)

(** [if (index < 0 || index >= table[0]) return -1; return table[index+1];] *)
Definition indexOrMinus1 (table : list Z) (index : Z) : option Z :=
  if index <? 0 then Some (-1)
  else n ← rd table 0;
       if index >=? n then Some (-1) else rd table (index + 1).

(** [if (index < 0 || index >= table[0]) return -1; return argCount[index];] *)
Definition parameterCount (table argCount : list Z) (index : Z) : option Z :=
  if index <? 0 then Some (-1)
  else n ← rd table 0;
       if index >=? n then Some (-1) else rd argCount index.

(** [if (i < 0 || i >= table[0] || paramIndex < 0 || paramIndex >= argCount[i])
       return -1;
     return argTypes[i][paramIndex];] *)
Definition parameterType (table argCount : list Z) (argTypes : list (list Z))
    (i paramIndex : Z) : option Z :=
  if i <? 0 then Some (-1)
  else n ← rd table 0;
       if i >=? n then Some (-1)
       else if paramIndex <? 0 then Some (-1)
       else c ← rd argCount i;
            if paramIndex >=? c then Some (-1)
            else types ← rd argTypes i; rd types paramIndex.

(** [switch (index) { case 0: return m_properties[k0]; case 1: ... } return -1;]
    with one [case i] per entry of [propertyChangeIndex]. *)
Definition switchOnSignal (cases : list Z) (m_properties : list Z) (index : Z) : option Z :=
  match rd cases index with
  | Some k => rd m_properties k
  | None => Some (-1)
  end.

(** [switch (index) { case i: return k_i - 1; ... } return -1;] *)
Definition switchRaw (cases : list Z) (index : Z) : option Z :=
  match rd cases index with
  | Some k => Some (k - 1)
  | None => Some (-1)
  end.

(** The interface [SourceApiMap] (the index-taking part of it) and the
    generated class as an implementation of it. *)
Record SourceApiMap := mkSourceApiMap {
  sourceEnumIndex : Z → option Z;
  sourcePropertyIndex : Z → option Z;
  sourceSignalIndex : Z → option Z;
  sourceMethodIndex : Z → option Z;
  signalParameterCount : Z → option Z;
  signalParameterType : Z → Z → option Z;
  methodParameterCount : Z → option Z;
  methodParameterType : Z → Z → option Z;
  propertyIndexFromSignal : Z → option Z;
  propertyRawIndexFromSignal : Z → option Z
}.

(** [void RepCodeGenerator::generateSourceAPI(QTextStream &out, const ASTClass &astClass)],
    instantiated with [ObjectType] and constructed. *)
Definition generateSourceAPI (ot : ObjectType) (astClass : ASTClass.t) : SourceApiMap :=
  let this := construct ot astClass in
  {| sourceEnumIndex := indexOrMinus1 (m_enums this);
     sourcePropertyIndex := indexOrMinus1 (m_properties this);
     sourceSignalIndex := indexOrMinus1 (m_signals this);
     sourceMethodIndex := indexOrMinus1 (m_methods this);
     signalParameterCount :=
       if 0 <? signalCount astClass + changedCount astClass
       then parameterCount (m_signals this) (m_signalArgCount this)
       else λ _, Some (-1);
     signalParameterType :=
       if 0 <? signalCount astClass + changedCount astClass
       then parameterType (m_signals this) (m_signalArgCount this) (m_signalArgTypes this)
       else λ _ _, Some (-1);
     methodParameterCount :=
       if 0 <? methodCount astClass
       then parameterCount (m_methods this) (m_methodArgCount this)
       else λ _, Some (-1);
     methodParameterType :=
       if 0 <? methodCount astClass
       then parameterType (m_methods this) (m_methodArgCount this) (m_methodArgTypes this)
       else λ _ _, Some (-1);
     propertyIndexFromSignal :=
       if bool_decide (propertyChangeIndex astClass ≠ [])
       then switchOnSignal (propertyChangeIndex astClass) (m_properties this)
       else λ _, Some (-1);
     propertyRawIndexFromSignal :=
       if bool_decide (propertyChangeIndex astClass ≠ [])
       then switchRaw (propertyChangeIndex astClass)
       else λ _, Some (-1) |}.

End SourceApi.

(** [const QByteArray typeName(int index) const override] of the generated
    class: [switch (index)] with a case per push slot, then a case per slot
    of the class, and [return QByteArrayLiteral("")] after it.
    [QtPrivate::qtro_enum_signature<ObjectType>] is a parameter. *)
Module SourceApiText.
Import Repc SourceApi.

Definition typeNameCases (qtro_enum_signature : QString → QByteArray) (astClass : ASTClass.t)
  : list QByteArray :=
  map (λ _, toLatin1 "void") (pushProps astClass) ++
  map (λ slot,
         if isClassEnum astClass (ASTFunction.returnType slot)
         then qtro_enum_signature (ASTFunction.returnType slot)
         else toLatin1 (ASTFunction.returnType slot))
      (ASTClass.slotsList astClass).

Definition typeName (qtro_enum_signature : QString → QByteArray) (astClass : ASTClass.t)
    (index : Z) : QByteArray :=
  if 0 <? methodCount astClass
  then default [] (rd (typeNameCases qtro_enum_signature astClass) index)
  else [].

End SourceApiText.

(** The signals and slots [generateClass] declares in the class it writes,
    by name and in the order of the text (the order in which moc numbers
    them). *)
Module ClassText.
Import Repc SourceApi.

#[global] Instance Mode_eq_dec : EqDecision Mode.
Proof. solve_decision. Defined.

(** [const QString className = astClass.name + (mode == REPLICA ? "Replica" : ...)] *)
Definition className (mode : Mode) (astClass : ASTClass.t) : QString :=
  ASTClass.name astClass +:+
  match mode with
  | REPLICA => "Replica"
  | SOURCE => "Source"
  | _ => "SimpleSource"
  end.

(** The section [Q_SIGNALS:] *)
Definition signalNames (mode : Mode) (astClass : ASTClass.t) : list QString :=
  match mode with
  | SIMPLE_SOURCE => []
  | _ =>
    if bool_decide (ASTClass.properties astClass ≠ [] ∨ ASTClass.signalsList astClass ≠ []) then
      map (λ property, ASTProperty.name property +:+ "Changed")
          (filter (λ property, ASTProperty.modifier property ≠ Constant)
                  (ASTClass.properties astClass)) ++
      map ASTFunction.name
          (transformEnumParams astClass (ASTClass.signalsList astClass) (className mode astClass)) ++
      map (λ property, ASTProperty.name property +:+ "Changed")
          (filter (λ property, mode = REPLICA ∧ ASTProperty.modifier property = Constant)
                  (ASTClass.properties astClass))
    else []
  end.

(** The section [public Q_SLOTS:] *)
Definition slotNames (mode : Mode) (astClass : ASTClass.t) : list QString :=
  match mode with
  | SIMPLE_SOURCE => []
  | _ =>
    let hasWriteSlots :=
      existsb (λ property, bool_decide (ASTProperty.modifier property = ReadPush))
              (ASTClass.properties astClass) in
    if hasWriteSlots || bool_decide (ASTClass.slotsList astClass ≠ []) then
      map (λ property, "push" +:+ cap (ASTProperty.name property))
          (filter (λ property, ASTProperty.modifier property = ReadPush)
                  (ASTClass.properties astClass)) ++
      map ASTFunction.name
          (transformEnumParams astClass (ASTClass.slotsList astClass) (className mode astClass))
    else []
  end.

End ClassText.

(* ================================================================== *)
(** ** [QtRemoteObjects::copyStoredProperties] (three overloads) *)

Module StoredProperties.

Section Codec.
(** [QVariant] and [QMetaType] belong to QtCore and are kept abstract;
    [invalid] is the default-constructed [QVariant()]. *)
Context {QVariant QMetaType : Type} (invalid : QVariant).
(** [QRemoteObjectPackets::encodeVariant] and [decodeVariant]: their file is
    not among the sources. *)
Context (encodeVariant : QVariant → QVariant)
        (decodeVariant : QVariant → QMetaType → QVariant).

(** [QMetaProperty], as far as the functions look at it.  A property of a
    gadget is declared with a READ accessor and, optionally, a WRITE one
    (repc declares every POD attribute [READ x WRITE setX]). *)
Record QMetaProperty := mkProperty {
  propName : QString;
  metaType : QMetaType;
  isWritable : bool
}.

(** [QMetaObject]: [propertyCount()] and [property(i)]. *)
Definition QMetaObject := list QMetaProperty.

(** A gadget of the class [mo] describes: the value of each property, by
    property index.  A pointer to one is [Some], [nullptr] is [None]. *)
Definition Gadget := list QVariant.

(** [mp.readOnGadget(g)] for the property of index [i] *)
Definition readOnGadget (i : nat) (g : Gadget) : QVariant := default invalid (g !! i).

(** [mp.writeOnGadget(g, v)]: refused, and without effect, on a property
    that has no WRITE accessor. *)
Definition writeOnGadget (mp : QMetaProperty) (i : nat) (g : Gadget) (v : QVariant) : Gadget :=
  if isWritable mp then <[i := v]> g else g.

(** [QDataStream]: the values written and not yet read, oldest first. *)
Definition QDataStream := list QVariant.

Inductive Access := ReadProperty (i : nat) | WriteProperty (i : nat).

Inductive Warning := NullSource | NullDestination.

(** What a call can touch: the object behind [dst], the stream, the log,
    and (for the statements below) the property accesses it makes. *)
Record World := mkWorld {
  dstObject : option Gadget;
  stream : QDataStream;
  warnings : list Warning;
  accesses : list Access
}.

Definition qCWarning (w : Warning) : St World unit :=
  modify (λ s, mkWorld (dstObject s) (stream s) (warnings s ++ [w]) (accesses s)).
Definition access (a : Access) : St World unit :=
  modify (λ s, mkWorld (dstObject s) (stream s) (warnings s) (accesses s ++ [a])).
Definition setDst (g : Gadget) : St World unit :=
  modify (λ s, mkWorld (Some g) (stream s) (warnings s) (accesses s)).
Definition setStream (d : QDataStream) : St World unit :=
  modify (λ s, mkWorld (dstObject s) d (warnings s) (accesses s)).

(** [for (int i = 0, end = mo->propertyCount(); i != end; ++i) { mp = mo->property(i); ... }] *)
Definition properties (mo : QMetaObject) : list (nat * QMetaProperty) :=
  imap (λ i mp, (i, mp)) mo.

(** [void copyStoredProperties(const QMetaObject *mo, const void *src, void *dst)] *)
Definition copyStoredProperties_obj (mo : QMetaObject) (src : option Gadget) : St World unit :=
  match src with
  | None => qCWarning NullSource
  | Some srcObj =>
      s ← get ;
      match dstObject s with
      | None => qCWarning NullDestination
      | Some _ =>
          forEach (λ '(i, mp),
            access (ReadProperty i) ;;
            s ← get ;
            access (WriteProperty i) ;;
            setDst (writeOnGadget mp i (default [] (dstObject s)) (readOnGadget i srcObj)))
          (properties mo)
      end
  end.

(** [void copyStoredProperties(const QMetaObject *mo, const void *src, QDataStream &dst)] *)
Definition copyStoredProperties_out (mo : QMetaObject) (src : option Gadget) : St World unit :=
  match src with
  | None => qCWarning NullSource
  | Some srcObj =>
      forEach (λ '(i, mp),
        access (ReadProperty i) ;;
        s ← get ;
        setStream (stream s ++ [encodeVariant (readOnGadget i srcObj)]))
      (properties mo)
  end.

(** [src >> v] *)
Definition readVariant : St World QVariant :=
  s ← get ;
  match stream s with
  | [] => mret invalid
  | v :: rest => setStream rest ;; mret v
  end.

(** [void copyStoredProperties(const QMetaObject *mo, QDataStream &src, void *dst)] *)
Definition copyStoredProperties_in (mo : QMetaObject) : St World unit :=
  s ← get ;
  match dstObject s with
  | None => qCWarning NullDestination
  | Some _ =>
      forEach (λ '(i, mp),
        v ← readVariant ;
        s ← get ;
        access (WriteProperty i) ;;
        setDst (writeOnGadget mp i (default [] (dstObject s)) (decodeVariant v (metaType mp))))
      (properties mo)
  end.

End Codec.

End StoredProperties.

(* ================================================================== *)
(** ** repcodegenerator.cpp: PODs, enum declarations and the table
    [m_globalEnumsPODs] during [generate] *)

Module PODAttribute.
Record t := mk { type : QString; name : QString }.
End PODAttribute.

Module POD.
Record t := mk { name : QString; attributes : list PODAttribute.t }.
End POD.

Module Generate.
Import Repc.

(** [QString::size()] *)
Definition size (s : QString) : Z := Z.of_nat (String.length s).





(** The places of the generated text that hold a class signature. *)
Inductive Place :=
  | ClassInfo (mode : Mode)   (* Q_CLASSINFO(QCLASSINFO_REMOTEOBJECT_SIGNATURE, ...) *)
  | RetrieveProperties        (* retrieveProperties(name, signature) in initialize() *)
  | PersistProperties         (* persistProperties(name, signature, ...) in the destructor *)
  | ObjectSignature.          (* objectSignature() of the SourceAPI struct *)

Record Written := mkWritten {
  className : QString;
  place : Place;
  signature : QByteArray
}.

(** The generator object: its member [m_globalEnumsPODs], and of the text
    it has written so far the class signatures, in the order written.  The
    rest of the text does not act back on the generator and is left out
    here; with it goes the read of [en.params.at(0)] in
    [generateConversionFunctionsForEnums], which asks every enum to have an
    enumerator (see [EnumStream.toEnum]). *)
Record Generator := mkGenerator {
  m_globalEnumsPODs : QHash;
  signatures : list Written
}.

Section Generator.
Variable platform : Platform.

(** [m_globalEnumsPODs[k] = v] *)
Definition setGlobal (k : QString) (v : QByteArray) : St Generator unit :=
  modify (λ g, mkGenerator (assign (m_globalEnumsPODs g) k v) (signatures g)).

(** [out << ... << classSignature(astClass) << ...] *)
Definition writeSignature (p : Place) (astClass : ASTClass.t) : St Generator unit :=
  modify (λ g, mkGenerator (m_globalEnumsPODs g)
     (signatures g ++
      [mkWritten (ASTClass.name astClass) p
         (classSignature platform (m_globalEnumsPODs g) astClass)])).

(** [void RepCodeGenerator::generateDeclarationsForEnums(out, enums, generateQENUM)] *)
Definition generateDeclarationsForEnums (enums : list ASTEnum.t) : St Generator unit :=
  forEach (λ en, setGlobal (ASTEnum.name en) (enumSignature en)) enums.

(** [generateENUMs]: the declarations, then the conversion functions and
    the stream operators (text only, see [EnumStream]). *)
Definition generateENUMs (enums : list ASTEnum.t) : St Generator unit :=
  generateDeclarationsForEnums enums.

(** [void RepCodeGenerator::generateENUM(QTextStream &out, const ASTEnum &en)] *)
Definition generateENUM (en : ASTEnum.t) : St Generator unit := generateENUMs [en].

(** The bytes [generatePOD] collects in [podData]. *)
Definition podData (specialTypes : QHash) (pod : POD.t) : QByteArray :=
  fold_left (λ podData attr,
      podData ++ (toLatin1 (PODAttribute.name attr) ++ typeData (PODAttribute.type attr) specialTypes))
    (POD.attributes pod) (toLatin1 (POD.name pod)).

(** [void RepCodeGenerator::generatePOD(QTextStream &out, const POD &pod)] *)
Definition generatePOD (pod : POD.t) : St Generator unit :=
  g ← get ;
  setGlobal (POD.name pod) (podData (m_globalEnumsPODs g) pod).

(** [void RepCodeGenerator::generateClass(Mode mode, QTextStream &out,
    const ASTClass &astClass, const QString &metaTypeRegistrationCode)];
    [hasPersisted] is the member of that name of [astClass]. *)
Definition generateClass (mode : Mode) (astClass : ASTClass.t) (hasPersisted : bool)
  : St Generator unit :=
  (if decide (mode ≠ SIMPLE_SOURCE) then
     writeSignature (ClassInfo mode) astClass ;;
     if decide (ASTClass.enums astClass ≠ [])
     then generateDeclarationsForEnums (ASTClass.enums astClass)
     else mret tt
   else mret tt) ;;
  (if decide (mode = REPLICA) then
     if hasPersisted then writeSignature RetrieveProperties astClass else mret tt
   else mret tt) ;;
  (if bool_decide (mode = REPLICA) && hasPersisted
   then writeSignature PersistProperties astClass
   else mret tt).

(** [void RepCodeGenerator::generateSourceAPI(QTextStream &out, const ASTClass &astClass)] *)
Definition generateSourceAPI (astClass : ASTClass.t) : St Generator unit :=
  (if decide (ASTClass.enums astClass ≠ [])
   then generateDeclarationsForEnums (ASTClass.enums astClass)
   else mret tt) ;;
  writeSignature ObjectSignature astClass.

(** [AST]: the enums, PODs and classes of a .rep file, in file order; a
    class comes with its member [hasPersisted]. *)
Record AST := mkAST {
  enums : list ASTEnum.t;
  pods : list POD.t;
  classes : list (ASTClass.t * bool)
}.

(** What [generate] does for one class. *)
Definition generateOne (mode : Mode) : ASTClass.t * bool → St Generator unit :=
  λ '(astClass, hasPersisted),
    if decide (mode = MERGED) then
      generateClass REPLICA astClass hasPersisted ;;
      generateClass SOURCE astClass hasPersisted ;;
      generateClass SIMPLE_SOURCE astClass hasPersisted ;;
      generateSourceAPI astClass
    else
      generateClass mode astClass hasPersisted ;;
      if decide (mode = SOURCE) then
        generateClass SIMPLE_SOURCE astClass hasPersisted ;;
        generateSourceAPI astClass
      else mret tt.

(** [void RepCodeGenerator::generate(const AST &ast, Mode mode, QString fileName)] *)
Definition generate (ast : AST) (mode : Mode) : St Generator unit :=
  forEach generateENUM (enums ast) ;;
  forEach generatePOD (pods ast) ;;
  forEach (generateOne mode) (classes ast).

End Generator.

End Generate.

(* ================================================================== *)
(** ** repcodegenerator.cpp: the integer type an enum travels in, and the
    conversion function and stream operators generated for it *)

Module EnumStream.

(** [QString getEnumType(const ASTEnum &en)]; [isSigned] and [max] are the
    members of [en] the function reads. *)
Definition getEnumType (isSigned : bool) (max : Z) : QString :=
  if isSigned then
    if max <? 0x7F then "qint8"
    else if max <? 0x7FFF then "qint16"
    else "qint32"
  else
    if max <? 0xFF then "quint8"
    else if max <? 0xFFFF then "quint16"
    else "quint32".

(** The integer types of [qglobal.h] named in the generated text: signed or
    not, and the number of bytes. *)
Definition intType (type : QString) : option (bool * nat) :=
  if String.eqb type "qint8" then Some (true, 1%nat)
  else if String.eqb type "qint16" then Some (true, 2%nat)
  else if String.eqb type "qint32" then Some (true, 4%nat)
  else if String.eqb type "quint8" then Some (false, 1%nat)
  else if String.eqb type "quint16" then Some (false, 2%nat)
  else if String.eqb type "quint32" then Some (false, 4%nat)
  else None.

(** The value of an integer expression converted to a type of [n] bytes. *)
Definition convert (signed : bool) (n : nat) (v : Z) : Z :=
  let m := 2 ^ (8 * Z.of_nat n) in
  let u := v mod m in
  if signed && (m / 2 <=? u) then u - m else u.

(** [QDataStream]: the bytes written and not yet read, oldest first; an
    integer is written with its most significant byte first. *)
Record Device := mkDevice { bytes : list Z; warned : list Z }.

(** [ds << val] *)
Definition writeInt (n : nat) (val : Z) : St Device unit :=
  modify (λ d, mkDevice (bytes d ++ Sha1.be_bytes n val) (warned d)).

(** [ds >> val]: at the end of the data [val] is set to 0. *)
Definition readInt (signed : bool) (n : nat) : St Device Z :=
  d ← get ;
  if decide (length (bytes d) < n)%nat
  then mret 0
  else modify (λ d, mkDevice (drop n (bytes d)) (warned d)) ;;
       mret (convert signed n (Sha1.be_word (take n (bytes d)))).



(** What [generateStreamOperatorsForEnums(out, enums, className)] writes for
    one enum: [operator<<] *)
Definition streamOut (type : QString) (obj : ASTEnumParam.t) : option (St Device unit) :=
  '(signed, n) ← intType type ;
  Some (writeInt n (convert signed n (ASTEnumParam.value obj))).


(** What [generateStreamOperatorsForEnums(out, enumUses)] writes for an enum
    declared outside the file: [out << static_cast<qint32>(value)], and
    [qint32 intValue = 0; in >> intValue; value = static_cast<E>(intValue)].
    The object is given by its integer value. *)
Definition streamOutUse (value : Z) : St Device unit :=
  writeInt 4 (convert true 4 value).

Definition streamInUse : St Device Z := readInt true 4.

End EnumStream.

(* ================================================================== *)
(** * Properties of the registry *)

Module RegistryFacts.
Import Registry.

(** Concrete endpoints and tables used in the examples. *)
Definition url1 : QUrl := "tcp://127.0.0.1:9001".
Definition url2 : QUrl := "tcp://127.0.0.1:9002".

Ltac run :=
  unfold exec, addSource, removeSource, pushToRegistryIfNeeded, stateChanged,
    registerMetatypes, qRegisterMetaType, pushOne, send, qLog, setHosted, contains,
    modify, get, mbind, mret, St_bind, St_ret; simpl.

(** *** [removeSource] *)

(** C3.  [removeSource(entry)]: when the name is not in [hostedSources] the
    table is unchanged and nothing is sent; otherwise the name is deleted and
    a remove call is sent exactly when the state is [Valid]. *)
Theorem removeSource_spec (entry : QRemoteObjectSourceLocation) (r : RegistryObj) :
  let r' := exec (removeSource entry) r in
  (hostedSources r !! entry.1 = None → r' = r) ∧
  (is_Some (hostedSources r !! entry.1) →
     hostedSources r' = delete entry.1 (hostedSources r) ∧
     sent r' = sent r ++
       (if bool_decide (state r = Valid) then [InvokeMetaMethod M_removeSource entry] else [])) ∧
  state r' = state r ∧ sourceLocations r' = sourceLocations r.
Proof.
  run. destruct (hostedSources r !! entry.1) as [u|] eqn:Hh.
  - rewrite bool_decide_eq_true_2 by eauto. simpl.
    split; [done|]. split.
    + intros _. destruct (bool_decide (state r = Valid)); simpl; [done|].
      by rewrite app_nil_r.
    + by destruct (bool_decide (state r = Valid)).
  - rewrite bool_decide_eq_false_2 by (intros [? ?]; done). simpl.
    split; [done|]. split; [|done]. by intros [? ?].
Qed.

Example removeSource_valid :
  let r := mkRegistry Valid ∅ {["alpha" := url1]} [] [] in
  exec (removeSource ("alpha", url1)) r
  = mkRegistry Valid ∅ (delete "alpha" {["alpha" := url1]})
      [InvokeMetaMethod M_removeSource ("alpha", url1)] [DebugRemoved ("alpha", url1)].
Proof. reflexivity. Qed.

Example removeSource_suspect :
  let r := mkRegistry Suspect ∅ {["alpha" := url1]} [] [] in
  sent (exec (removeSource ("alpha", url1)) r) = [] ∧
  hostedSources (exec (removeSource ("alpha", url1)) r) !! "alpha" = None.
Proof. split; reflexivity. Qed.

(** *** [addSource] *)

(** "Already claimed by another endpoint": the remote table maps the name to
    an endpoint different from the one being added. *)
Definition claimedByOther (table : gmap string QUrl) (entry : QRemoteObjectSourceLocation) : Prop :=
  ∃ other, table !! entry.1 = Some other ∧ other ≠ entry.2.

(** The statement of the specification about [addSource], as written:
    every call records the location; in state [Valid] a name not claimed by
    another endpoint is announced; a name claimed by another endpoint is
    not sent and a warning is logged. *)
Definition addSource_as_specified : Prop :=
  ∀ (entry : QRemoteObjectSourceLocation) (r : RegistryObj),
    let r' := exec (addSource entry) r in
    hostedSources r' !! entry.1 = Some entry.2 ∧
    (state r = Valid → ¬ claimedByOther (sourceLocations r) entry →
       sent r' = sent r ++ [InvokeMetaMethod M_addSource entry]) ∧
    (claimedByOther (sourceLocations r) entry →
       sent r' = sent r ∧ ∃ w, log r' = log r ++ [w] ∧ isWarning w = true).

(** Two calls the code answers differently: the registry already lists the
    name under the very endpoint being added; this node already hosts the
    name under another endpoint. *)
Definition sameEndpointListed : RegistryObj :=
  mkRegistry Valid {["alpha" := url1]} ∅ [] [].
Definition alreadyHosted : RegistryObj :=
  mkRegistry Valid ∅ {["alpha" := url1]} [] [].

(** C1, counterexample.  With "alpha" listed remotely under [url1], adding
    ("alpha", [url1]) is not a claim by another endpoint, yet nothing is
    sent and the call is logged as a collision.  With "alpha" hosted locally
    under [url1], adding ("alpha", [url2]) leaves the table at [url1] and
    sends nothing although the remote table is empty.  Hence the statement
    as specified does not hold. *)
Lemma addSource_counterexample :
  (¬ claimedByOther (sourceLocations sameEndpointListed) ("alpha", url1) ∧
   sent (exec (addSource ("alpha", url1)) sameEndpointListed) = [] ∧
   log (exec (addSource ("alpha", url1)) sameEndpointListed) = [WarnRemoteClaimed "alpha" url1]) ∧
  (hostedSources (exec (addSource ("alpha", url2)) alreadyHosted) !! "alpha" = Some url1 ∧
   sent (exec (addSource ("alpha", url2)) alreadyHosted) = [] ∧
   log (exec (addSource ("alpha", url2)) alreadyHosted) = [WarnLocalDuplicate "alpha"]) ∧
  ¬ addSource_as_specified.
Proof.
  assert (Hnot : ¬ claimedByOther (sourceLocations sameEndpointListed) ("alpha", url1)).
  { intros (other & Hl & Hne). vm_compute in Hl. by simplify_eq. }
  split; [by repeat split|]. split; [by repeat split|].
  intros H. destruct (H ("alpha", url1) sameEndpointListed) as (_ & Hsend & _).
  specialize (Hsend eq_refl Hnot). vm_compute in Hsend. discriminate.
Qed.

(** C1, as the code has it.  [addSource(entry)]: a name this node already
    hosts is ignored with a warning (table unchanged, nothing sent).
    Otherwise the location is recorded; then, in state [Valid], a call is
    sent when the remote table does not list the name, and when it lists the
    name (under whatever endpoint) a warning is logged and nothing is sent.
    Outside [Valid] nothing is sent or logged.  The function returns no
    value. *)
Theorem addSource_spec (entry : QRemoteObjectSourceLocation) (r : RegistryObj) :
  let r' := exec (addSource entry) r in
  addSource entry r = (tt, r') ∧
  state r' = state r ∧ sourceLocations r' = sourceLocations r ∧
  (is_Some (hostedSources r !! entry.1) →
     hostedSources r' = hostedSources r ∧ sent r' = sent r ∧
     log r' = log r ++ [WarnLocalDuplicate entry.1]) ∧
  (hostedSources r !! entry.1 = None →
     hostedSources r' = <[entry.1 := entry.2]> (hostedSources r) ∧
     (state r ≠ Valid → sent r' = sent r ∧ log r' = log r) ∧
     (state r = Valid → sourceLocations r !! entry.1 = None →
        sent r' = sent r ++ [InvokeMetaMethod M_addSource entry] ∧
        filter (λ l, isWarning l = true) (log r') = filter (λ l, isWarning l = true) (log r)) ∧
     (state r = Valid → ∀ other, sourceLocations r !! entry.1 = Some other →
        sent r' = sent r ∧ log r' = log r ++ [WarnRemoteClaimed entry.1 other])).
Proof.
  run. destruct (hostedSources r !! entry.1) as [u|] eqn:Hh.
  - rewrite bool_decide_eq_true_2 by eauto. simpl.
    repeat split; try done; by intros [? ?].
  - rewrite bool_decide_eq_false_2 by (intros [? ?]; done). simpl.
    destruct (decide (state r = Valid)) as [Hv|Hv].
    + rewrite (bool_decide_eq_true_2 _ Hv). simpl.
      destruct (sourceLocations r !! entry.1) as [o|] eqn:Hs; simpl.
      * repeat split; try done; try (by intros [? ?]); intros; simplify_eq; done.
      * repeat split; try done; try (by intros [? ?]).
        all: rewrite filter_app; simpl; by rewrite app_nil_r.
    + rewrite (bool_decide_eq_false_2 _ Hv). simpl.
      repeat split; try done; by intros [? ?].
Qed.

Example addSource_announces :
  exec (addSource ("beta", url2)) sameEndpointListed
  = mkRegistry Valid {["alpha" := url1]} (<["beta" := url2]> ∅)
      [InvokeMetaMethod M_addSource ("beta", url2)] [DebugAdded ("beta", url2)].
Proof. reflexivity. Qed.

(** *** [pushToRegistryIfNeeded] *)

Definition unclaimed (sourceLocs : gmap string QUrl) (it : QString * QUrl) : Prop :=
  sourceLocs !! it.1 = None.

#[global] Instance unclaimed_dec sourceLocs it : Decision (unclaimed sourceLocs it).
Proof. unfold unclaimed. apply _. Defined.

Definition announce (it : QString * QUrl) : Packet := InvokeMetaMethod M_addSource it.

Definition collision (sourceLocs : gmap string QUrl) (it : QString * QUrl) : option LogLine :=
  WarnRemoteClaimed it.1 <$> sourceLocs !! it.1.

Definition dropClaimed (sourceLocs : gmap string QUrl) (h : gmap string QUrl) (it : QString * QUrl)
  : gmap string QUrl :=
  if decide (unclaimed sourceLocs it) then h else delete it.1 h.

Lemma exec_pushOne (sourceLocs : gmap string QUrl) (it : QString * QUrl) (r : RegistryObj) :
  exec (pushOne sourceLocs it) r
  = mkRegistry (state r) (sourceLocations r)
      (dropClaimed sourceLocs (hostedSources r) it)
      (sent r ++ (announce <$> filter (unclaimed sourceLocs) [it]))
      (log r ++ omap (collision sourceLocs) [it]).
Proof.
  rewrite filter_cons, filter_nil. unfold dropClaimed. simpl.
  destruct (decide (unclaimed sourceLocs it)) as [Hu|Hu]; unfold unclaimed in Hu;
    unfold collision, pushOne.
  - rewrite Hu. destruct it. simpl. by rewrite app_nil_r.
  - destruct (sourceLocs !! it.1) as [o|]; [|done]. simpl. by rewrite app_nil_r.
Qed.

(** The loop, run over any list of nodes: what it sends, logs and erases. *)
Lemma forEach_pushOne (sourceLocs : gmap string QUrl) (l : list (QString * QUrl)) (r : RegistryObj) :
  exec (forEach (pushOne sourceLocs) l) r
  = mkRegistry (state r) (sourceLocations r)
      (foldl (dropClaimed sourceLocs) (hostedSources r) l)
      (sent r ++ (announce <$> filter (unclaimed sourceLocs) l))
      (log r ++ omap (collision sourceLocs) l).
Proof.
  revert r. induction l as [|it l IH]; intros r.
  - destruct r. unfold exec. simpl. by rewrite !app_nil_r.
  - rewrite exec_forEach_cons, IH, exec_pushOne.
    change (it :: l) with ([it] ++ l) at 2 3. rewrite filter_app, fmap_app, omap_app.
    cbn [state sourceLocations hostedSources sent log foldl].
    by rewrite !app_assoc.
Qed.

Lemma lookup_foldl_dropClaimed (sourceLocs h : gmap string QUrl) (l : list (QString * QUrl)) (k : QString) :
  foldl (dropClaimed sourceLocs) h l !! k
  = if decide (k ∈ l.*1 ∧ is_Some (sourceLocs !! k)) then None else h !! k.
Proof.
  revert h. induction l as [|[k' u] l IH]; intros h.
  - simpl. done.
  - cbn [foldl]. rewrite IH, fmap_cons. unfold dropClaimed, unclaimed. cbn [fst].
    destruct (decide (k ∈ l.*1 ∧ is_Some (sourceLocs !! k))) as [[Hin Hs]|Hn].
    + rewrite decide_True; [done|]. split; [by apply elem_of_cons; right|done].
    + destruct (decide (sourceLocs !! k' = None)) as [Hk'|Hk'].
      * destruct (decide (k ∈ k' :: l.*1 ∧ is_Some (sourceLocs !! k))) as [[Hin Hs]|Hn']; [|done].
        apply elem_of_cons in Hin as [->|Hin]; [|by destruct Hn].
        rewrite Hk' in Hs. by destruct Hs.
      * destruct (decide (k = k')) as [->|Hne].
        -- rewrite lookup_delete_eq. rewrite decide_True; [done|].
           split; [by apply elem_of_cons; left|]. by destruct (sourceLocs !! k'); eauto.
        -- rewrite lookup_delete_ne by done. rewrite decide_False; [done|].
           intros [Hin Hs]. apply elem_of_cons in Hin as [->|Hin]; [done|by destruct Hn].
Qed.

Lemma filter_none {A} (P : A → Prop) `{!∀ x, Decision (P x)} (l : list A) :
  (∀ x, x ∈ l → ¬ P x) → filter P l = [].
Proof.
  intros HP. destruct (filter P l) as [|x l'] eqn:E; [done|].
  assert (Hx : x ∈ filter P l) by (rewrite E; left).
  apply list_elem_of_filter in Hx as [? ?]. by destruct (HP x).
Qed.

(** In a list of nodes with pairwise different keys, one node carries [k]. *)
Lemma filter_key_NoDup (l : list (QString * QUrl)) (k : QString) (u : QUrl) :
  NoDup l.*1 → (k, u) ∈ l → filter (λ it, it.1 = k) l = [(k, u)].
Proof.
  induction l as [|[k' u'] l IH]; intros Hnd Hin; [by apply elem_of_nil in Hin|].
  simpl in Hnd. apply NoDup_cons in Hnd as [Hk' Hnd].
  rewrite filter_cons. simpl. apply elem_of_cons in Hin as [Heq|Hin].
  - injection Heq as -> ->. rewrite decide_True by done. f_equal.
    apply filter_none. intros [k2 u2] Hin2. simpl. intros ->.
    apply Hk'. apply list_elem_of_fmap. by exists (k', u2).
  - rewrite decide_False; [by apply IH|]. intros ->.
    apply Hk'. apply list_elem_of_fmap. by exists (k, u).
Qed.

Lemma size_filter_map_to_list (P : QString * QUrl → Prop) `{!∀ x, Decision (P x)}
    (m : gmap string QUrl) :
  size (filter P m) = length (filter P (map_to_list m)).
Proof.
  induction m as [|k u m Hk IH] using map_ind.
  - by rewrite map_filter_empty, map_to_list_empty, map_size_empty.
  - rewrite map_to_list_insert by done. rewrite filter_cons.
    destruct (decide (P (k, u))) as [HP|HP].
    + rewrite map_filter_insert_True by done. rewrite decide_True by done.
      rewrite map_size_insert_None; [simpl; by rewrite IH|].
      apply map_lookup_filter_None. left. done.
    + rewrite map_filter_insert_False by done. rewrite decide_False by done.
      by rewrite delete_id.
Qed.

Lemma NoDup_fst_filter (P : QString * QUrl → Prop) `{!∀ x, Decision (P x)}
    (l : list (QString * QUrl)) :
  NoDup l.*1 → NoDup (filter P l).*1.
Proof.
  induction l as [|[k u] l IH]; [done|]. rewrite fmap_cons. intros [Hk Hnd]%NoDup_cons.
  rewrite filter_cons. destruct (decide (P (k, u))); [|by apply IH].
  rewrite fmap_cons. apply NoDup_cons. split; [|by apply IH].
  intros ([k' u'] & Heq & [_ Hin]%list_elem_of_filter)%list_elem_of_fmap. simpl in Heq.
  subst k'. apply Hk. apply list_elem_of_fmap. by exists (k, u').
Qed.

Lemma filter_announce (name : QString) (l : list (QString * QUrl)) :
  filter (λ p, (arg p).1 = name) (announce <$> l) = announce <$> filter (λ it, it.1 = name) l.
Proof.
  induction l as [|it l IH]; [done|]. rewrite fmap_cons, !filter_cons. simpl.
  destruct (decide (it.1 = name)); by rewrite IH.
Qed.

(** What one run of the slot does, by state. *)
Lemma pushToRegistryIfNeeded_valid (r : RegistryObj) :
  state r = Valid →
  exec pushToRegistryIfNeeded r
  = mkRegistry Valid (sourceLocations r)
      (foldl (dropClaimed (sourceLocations r)) (hostedSources r) (map_to_list (hostedSources r)))
      (sent r ++ (announce <$> filter (unclaimed (sourceLocations r)) (map_to_list (hostedSources r))))
      (log r ++ omap (collision (sourceLocations r)) (map_to_list (hostedSources r))).
Proof.
  intros Hv. unfold pushToRegistryIfNeeded, exec, mbind, St_bind, get.
  rewrite (bool_decide_eq_true_2 _ Hv). cbn [negb].
  destruct (decide (hostedSources r = ∅)) as [He|He].
  - rewrite (bool_decide_eq_true_2 _ He). rewrite He, map_to_list_empty. simpl.
    rewrite !app_nil_r. destruct r; simpl in *. by subst.
  - rewrite (bool_decide_eq_false_2 _ He).
    pose proof (forEach_pushOne (sourceLocations r) (map_to_list (hostedSources r)) r) as Hloop.
    unfold exec in Hloop. rewrite Hloop. by rewrite Hv.
Qed.

Lemma pushToRegistryIfNeeded_not_valid (r : RegistryObj) :
  state r ≠ Valid → exec pushToRegistryIfNeeded r = r.
Proof.
  intros Hv. unfold pushToRegistryIfNeeded, exec, mbind, St_bind, get.
  by rewrite (bool_decide_eq_false_2 _ Hv).
Qed.

(** C2.  When the state of the replica changes to [Valid], the slot runs
    over [hostedSources]: a hosted name the remote table maps to a different
    endpoint is erased from the local table, with a warning and without any
    call for that name; a hosted name the remote table does not list gets
    exactly one [addSource] call and stays in the table; the number of calls
    sent is the number of hosted names the remote table does not list. *)
Theorem reconcile_on_valid (r : RegistryObj) :
  let r' := exec (stateChanged Valid) r in
  ∃ new warned,
    sent r' = sent r ++ new ∧ log r' = log r ++ warned ∧
    state r' = Valid ∧ sourceLocations r' = sourceLocations r ∧
    (∀ name url other,
       hostedSources r !! name = Some url →
       sourceLocations r !! name = Some other → other ≠ url →
       hostedSources r' !! name = None ∧
       WarnRemoteClaimed name other ∈ warned ∧
       ∀ p, p ∈ new → (arg p).1 ≠ name) ∧
    (∀ name url,
       hostedSources r !! name = Some url →
       sourceLocations r !! name = None →
       hostedSources r' !! name = Some url ∧
       filter (λ p, (arg p).1 = name) new = [InvokeMetaMethod M_addSource (name, url)]) ∧
    length new = size (filter (unclaimed (sourceLocations r)) (hostedSources r)).
Proof.
  cbv zeta.
  set (r1 := mkRegistry Valid (sourceLocations r) (hostedSources r) (sent r) (log r)).
  assert (Hr' : exec (stateChanged Valid) r = exec pushToRegistryIfNeeded r1) by done.
  rewrite Hr', (pushToRegistryIfNeeded_valid r1 eq_refl). subst r1.
  cbn [state sourceLocations hostedSources sent log].
  set (sl := sourceLocations r). set (h := hostedSources r).
  exists (announce <$> filter (unclaimed sl) (map_to_list h)), (omap (collision sl) (map_to_list h)).
  do 4 (split; [done|]). split; [|split].
  - intros name url other Hh Hs Hne.
    assert (Hin : (name, url) ∈ map_to_list h) by (by apply elem_of_map_to_list).
    split; [|split].
    + rewrite lookup_foldl_dropClaimed. rewrite decide_True; [done|]. split; [|by eauto].
      apply list_elem_of_fmap. by exists (name, url).
    + apply list_elem_of_omap. exists (name, url). split; [done|].
      unfold collision. simpl. by rewrite Hs.
    + intros p ([k u] & -> & [Hu _]%list_elem_of_filter)%list_elem_of_fmap. simpl.
      intros ->. unfold unclaimed in Hu. simpl in Hu. congruence.
  - intros name url Hh Hs.
    assert (Hin : (name, url) ∈ map_to_list h) by (by apply elem_of_map_to_list).
    split.
    + rewrite lookup_foldl_dropClaimed. rewrite decide_False; [done|].
      intros [_ [? ?]]. congruence.
    + rewrite filter_announce. rewrite (filter_key_NoDup _ name url); [done| |].
      * apply NoDup_fst_filter, NoDup_fst_map_to_list.
      * apply list_elem_of_filter. by split.
  - rewrite length_fmap. symmetry. apply size_filter_map_to_list.
Qed.

(** Outside [Valid] a state change sends and erases nothing. *)
Lemma stateChanged_not_valid (s : State) (r : RegistryObj) :
  s ≠ Valid → exec (stateChanged s) r
             = mkRegistry s (sourceLocations r) (hostedSources r) (sent r) (log r).
Proof.
  intros Hs.
  change (exec (stateChanged s) r)
    with (exec pushToRegistryIfNeeded (mkRegistry s (sourceLocations r) (hostedSources r) (sent r) (log r))).
  by apply pushToRegistryIfNeeded_not_valid.
Qed.

(** A reconnect with three hosted sources, one of them taken meanwhile by
    another endpoint: two calls are sent. *)
Definition reconnecting : RegistryObj :=
  mkRegistry Suspect {["beta" := url2]}
    {["alpha" := url1; "beta" := url1; "gamma" := url1]} [] [].

Example reconnect_resends :
  let r' := exec (stateChanged Valid) (exec (stateChanged Connecting) reconnecting) in
  length (sent r') = 2%nat ∧
  hostedSources r' = {["alpha" := url1; "gamma" := url1]} ∧
  log r' = [WarnRemoteClaimed "beta" url2] ∧
  InvokeMetaMethod M_addSource ("alpha", url1) ∈ sent r' ∧
  InvokeMetaMethod M_addSource ("gamma", url1) ∈ sent r'.
Proof. vm_compute. repeat split; try done; apply list_elem_of_In; simpl; tauto. Qed.

(** *** [registerMetatypes] *)

Lemma registerMetatypes_initialized (p : Process) :
  initialized (exec registerMetatypes p) = true.
Proof. run. by destruct (initialized p) eqn:E. Qed.

Lemma registerMetatypes_again (p : Process) :
  initialized p = true → exec registerMetatypes p = p.
Proof. run. by intros ->. Qed.

(** C10.  [registerMetatypes] is idempotent: any number of calls, one or
    more, leaves the process as one call does; a call after the first
    changes nothing; and in a fresh process the two meta-types are
    registered exactly once however often the function is called. *)
Theorem registerMetatypes_idempotent (n : nat) (p : Process) :
  Nat.iter (S n) (exec registerMetatypes) p = exec registerMetatypes p ∧
  exec registerMetatypes (exec registerMetatypes p) = exec registerMetatypes p ∧
  registrations (Nat.iter (S n) (exec registerMetatypes) processStart)
    = [MT_SourceLocation; MT_SourceLocations].
Proof.
  assert (Hit : ∀ k q, Nat.iter (S k) (exec registerMetatypes) q = exec registerMetatypes q).
  { induction k as [|k IH]; intros q; [done|].
    change (Nat.iter (S (S k)) (exec registerMetatypes) q)
      with (exec registerMetatypes (Nat.iter (S k) (exec registerMetatypes) q)).
    rewrite IH. apply registerMetatypes_again, registerMetatypes_initialized. }
  split; [apply Hit|]. split.
  - apply registerMetatypes_again, registerMetatypes_initialized.
  - by rewrite Hit.
Qed.

End RegistryFacts.

(* ================================================================== *)
(** * Properties of the class signature *)

Module SignatureFacts.
Import Repc.

(** *** [typeData] returns *)

Lemma dropS_length (n : nat) (s : string) :
  (String.length (dropS n s) ≤ String.length s)%nat.
Proof.
  revert s. induction n as [|n IH]; intros s; [simpl; lia|].
  destruct s as [|c s]; simpl; [lia|]. specialize (IH s). lia.
Qed.

Lemma mid_shorter (s : string) (pos : Z) :
  s ≠ EmptyString → 0 < pos → (String.length (mid s pos) < String.length s)%nat.
Proof.
  intros Hs Hpos. unfold mid. destruct (Z.to_nat pos) as [|n] eqn:E; [lia|].
  destruct s as [|c s]; [done|]. simpl. pose proof (dropS_length n s). lia.
Qed.

(** With one unit of fuel per character, and one more, the recursion of
    [typeData] ends with a result. *)
Lemma typeData_fuel_enough (specialTypes : QHash) (fuel : nat) (type : QString) :
  (String.length type < fuel)%nat →
  ∃ b, typeData_fuel fuel type specialTypes = Some b.
Proof.
  revert type. induction fuel as [|fuel IH]; intros type Hlen; [lia|].
  simpl. destruct (find specialTypes type) as [v|]; [by eauto|].
  destruct (0 <? lastIndexOf type "::") eqn:Hpos; [|by eauto].
  apply Z.ltb_lt in Hpos. apply IH.
  assert (type ≠ EmptyString) by (intros ->; by vm_compute in Hpos).
  pose proof (mid_shorter type (lastIndexOf type "::" + 2) ltac:(done) ltac:(lia)). lia.
Qed.

Lemma typeData_fuel_more (specialTypes : QHash) (fuel fuel' : nat) (type : QString) (b : QByteArray) :
  typeData_fuel fuel type specialTypes = Some b → (fuel ≤ fuel')%nat →
  typeData_fuel fuel' type specialTypes = Some b.
Proof.
  revert fuel' type. induction fuel as [|fuel IH]; intros fuel' type; [done|].
  intros H Hle. destruct fuel' as [|fuel']; [lia|]. simpl in *.
  destruct (find specialTypes type); [done|].
  destruct (0 <? lastIndexOf type "::"); [|done]. apply IH; [done|lia].
Qed.

(** The unfolding of [typeData], as the C++ function reads. *)
Lemma typeData_unfold (type : QString) (specialTypes : QHash) :
  typeData type specialTypes
  = match find specialTypes type with
    | Some v => v
    | None =>
        let pos := lastIndexOf type "::" in
        if 0 <? pos then typeData (mid type (pos + 2)) specialTypes else toLatin1 type
    end.
Proof.
  unfold typeData at 1. simpl.
  destruct (find specialTypes type) as [v|]; [done|]. cbv zeta.
  destruct (0 <? lastIndexOf type "::") eqn:Hpos; [|done].
  set (t' := mid type (lastIndexOf type "::" + 2)).
  destruct (typeData_fuel_enough specialTypes (S (String.length t')) t' ltac:(lia)) as [b Hb].
  unfold typeData. rewrite Hb.
  apply Z.ltb_lt in Hpos.
  assert (type ≠ EmptyString) by (intros ->; by vm_compute in Hpos).
  assert (Hshort : (S (String.length t') ≤ String.length type)%nat).
  { pose proof (mid_shorter type (lastIndexOf type "::" + 2) ltac:(done) ltac:(lia)).
    subst t'. lia. }
  by rewrite (typeData_fuel_more _ _ (String.length type) _ _ Hb Hshort).
Qed.

(** *** Concrete inputs *)

(** A little-endian host on which both members take four bytes, the
    modifiers numbered in the order [Constant, ReadOnly, ReadPush, ReadWrite,
    SourceOnlySetter]. *)
Definition le32 (z : Z) : QByteArray :=
  map Zbyte [z; z / 256; z / 65536; z / 16777216].

Definition modifierValue (m : Modifier) : Z :=
  match m with
  | Constant => 0 | ReadOnly => 1 | ReadPush => 2 | ReadWrite => 3 | SourceOnlySetter => 4
  end.

Definition littleEndianHost : Platform :=
  mkPlatform (λ m, le32 (modifierValue m)) le32.

(** [setPropertyType i newType ac]: the class [ac] with the type of its
    [i]-th property replaced, everything else as it was. *)
Definition retype (newType : QString) (p : ASTProperty.t) : ASTProperty.t :=
  ASTProperty.mk newType (ASTProperty.name p) (ASTProperty.modifier p) (ASTProperty.isPointer p).

Definition setPropertyType (i : nat) (newType : QString) (ac : ASTClass.t) : ASTClass.t :=
  ASTClass.mk (ASTClass.name ac) (alter (retype newType) i (ASTClass.properties ac))
    (ASTClass.signalsList ac) (ASTClass.slotsList ac) (ASTClass.enums ac).

Definition sensor : ASTClass.t :=
  ASTClass.mk "Sensor"
    [ASTProperty.mk "int" "level" ReadWrite false;
     ASTProperty.mk "Unit" "unit" Constant false]
    [ASTFunction.mk "void" "alarm" [ASTDeclaration.mk "int" "code" 0]]
    [ASTFunction.mk "bool" "reset" []]
    [ASTEnum.mk "Unit" [ASTEnumParam.mk "Celsius" 0; ASTEnumParam.mk "Kelvin" 1]].

Definition str (b : QByteArray) : string := string_of_list_byte b.

(** *** The digest does not depend on the layout of the hash table *)

(** Two tables hold the same entries when every key finds the same value. *)
Definition sameTable (g1 g2 : QHash) : Prop := ∀ k, find g1 k = find g2 k.

Lemma find_assign (h : QHash) (k : QString) (v : QByteArray) (k' : QString) :
  find (assign h k v) k' = if String.eqb k k' then Some v else find h k'.
Proof.
  induction h as [|[k0 v0] h IH]; simpl; [done|].
  destruct (String.eqb k0 k) eqn:E0; simpl.
  - apply String.eqb_eq in E0 as ->. by destruct (String.eqb k k').
  - rewrite IH. destruct (String.eqb k0 k') eqn:E1; [|done].
    apply String.eqb_eq in E1 as ->. by rewrite String.eqb_sym, E0.
Qed.

Lemma sameTable_assign (g1 g2 : QHash) (k : QString) (v : QByteArray) :
  sameTable g1 g2 → sameTable (assign g1 k v) (assign g2 k v).
Proof. intros H k'. by rewrite !find_assign, H. Qed.

Lemma sameTable_localTypes (g1 g2 : QHash) (ac : ASTClass.t) :
  sameTable g1 g2 → sameTable (localTypesOf g1 ac) (localTypesOf g2 ac).
Proof.
  unfold localTypesOf. generalize (ASTClass.enums ac) as es. intros es. revert g1 g2.
  induction es as [|e es IH]; intros g1 g2 H; simpl; [done|].
  by apply IH, sameTable_assign.
Qed.

Lemma typeData_sameTable (g1 g2 : QHash) (type : QString) :
  sameTable g1 g2 → typeData type g1 = typeData type g2.
Proof.
  intros H. unfold typeData. generalize (S (String.length type)) as fuel. intros fuel.
  revert type. induction fuel as [|fuel IH]; intros type; simpl; [done|].
  rewrite H. destruct (find g2 type); [done|].
  destruct (0 <? lastIndexOf type "::"); [|done]. apply IH.
Qed.

Lemma flat_map_same {A B} (f g : A → list B) (l : list A) :
  (∀ a, f a = g a) → flat_map f l = flat_map g l.
Proof. intros H. induction l as [|a l IH]; simpl; [done|]. by rewrite H, IH. Qed.

Lemma functionsData_sameTable (platform : Platform) (g1 g2 : QHash) (fs : list ASTFunction.t) :
  sameTable g1 g2 → functionsData platform fs g1 = functionsData platform fs g2.
Proof.
  intros H. unfold functionsData. apply flat_map_same. intros func.
  rewrite (typeData_sameTable g1 g2) by done. do 2 f_equal.
  apply flat_map_same. intros param. unfold paramData.
  by rewrite (typeData_sameTable g1 g2).
Qed.

Lemma checksumData_sameTable (platform : Platform) (g1 g2 : QHash) (ac : ASTClass.t) :
  sameTable g1 g2 → checksumData platform g1 ac = checksumData platform g2 ac.
Proof.
  intros H. unfold checksumData. cbv zeta.
  pose proof (sameTable_localTypes g1 g2 ac H) as Hl.
  rewrite !(functionsData_sameTable platform _ _ _ Hl). do 2 f_equal.
  apply flat_map_same. intros p. unfold propertyData.
  by rewrite (typeData_sameTable _ _ _ Hl).
Qed.

(** C6.  [classSignature] is deterministic: two computations over equal
    class descriptions and global tables holding the same entries (whatever
    order the entries lie in, in either run's hash table) give the same
    digest, byte for byte. *)
Theorem classSignature_deterministic (platform : Platform) (g1 g2 : QHash) (ac1 ac2 : ASTClass.t) :
  ac1 = ac2 → sameTable g1 g2 →
  classSignature platform g1 ac1 = classSignature platform g2 ac2.
Proof.
  intros -> H. unfold classSignature. by rewrite (checksumData_sameTable platform g1 g2).
Qed.

(** The global table after two PODs were generated, in two layouts. *)
Definition podPoint : QByteArray := toLatin1 "Pointxintyint".
Definition podColor : QByteArray := toLatin1 "Colorrgbint".
Definition tableA : QHash := [("Point", podPoint); ("Color", podColor)].
Definition tableB : QHash := [("Color", podColor); ("Point", podPoint)].

Definition plotter : ASTClass.t :=
  ASTClass.mk "Plotter"
    [ASTProperty.mk "Point" "origin" ReadWrite false;
     ASTProperty.mk "ns::Color" "ink" ReadPush false]
    [ASTFunction.mk "void" "moved" [ASTDeclaration.mk "Point" "to" 0]] [] [].

Lemma tableA_tableB : sameTable tableA tableB.
Proof.
  intros k. unfold tableA, tableB. cbn [find].
  destruct (String.eqb "Point" k) eqn:E1, (String.eqb "Color" k) eqn:E2; try done.
  apply String.eqb_eq in E1, E2. congruence.
Qed.

Lemma classSignature_deterministic_witness :
  classSignature littleEndianHost tableA plotter = classSignature littleEndianHost tableB plotter.
Proof.
  exact (classSignature_deterministic littleEndianHost tableA tableB plotter plotter
           eq_refl tableA_tableB).
Defined.

Example plotter_signature :
  str (classSignature littleEndianHost tableA plotter) = "cb2952502d7cd1e73e4dacb8c2f1c4b50ffe17ec" ∧
  str (classSignature littleEndianHost tableB plotter) = "cb2952502d7cd1e73e4dacb8c2f1c4b50ffe17ec".
Proof. split; vm_compute; reflexivity. Qed.

(** *** Changing the type of a property *)

(** The statement of the specification, as written: a different type for
    one property, all else equal, gives a different digest. *)
Definition signature_changes_with_type : Prop :=
  ∀ (platform : Platform) (g : QHash) (ac : ASTClass.t) (i : nat) (p : ASTProperty.t)
    (newType : QString),
    ASTClass.properties ac !! i = Some p →
    newType ≠ ASTProperty.type p →
    classSignature platform g (setPropertyType i newType ac) ≠ classSignature platform g ac.

Example sensor_signature :
  str (checksumData littleEndianHost [] sensor)
    = str (toLatin1 "Sensorlevelint" ++ le32 3 ++ toLatin1 "unitUnitCelsius0Kelvin1" ++ le32 0 ++
           toLatin1 "alarmcodeint" ++ le32 0 ++ toLatin1 "voidresetbool") ∧
  str (classSignature littleEndianHost [] sensor) = "edd2bbdb702239d7107c7983beff6ea1627ee056" ∧
  str (classSignature littleEndianHost [] (setPropertyType 0 "double" sensor))
    = "c1a928833d898e77acaaadbb96da07818c32c750".
Proof. do 2 (split; [vm_compute; reflexivity|]). vm_compute; reflexivity. Qed.

(** C5, counterexample.  Property [level] of [sensor] changes its type from
    [int] to [ns::int]; [typeData] drops the qualifier, the bytes hashed are
    the same and so is the digest. *)
Lemma classSignature_type_counterexample :
  ASTProperty.type <$> ASTClass.properties (setPropertyType 0 "ns::int" sensor) !! 0%nat
    = Some "ns::int" ∧
  ASTProperty.type <$> ASTClass.properties sensor !! 0%nat = Some "int" ∧
  checksumData littleEndianHost [] (setPropertyType 0 "ns::int" sensor)
    = checksumData littleEndianHost [] sensor ∧
  str (classSignature littleEndianHost [] (setPropertyType 0 "ns::int" sensor))
    = "edd2bbdb702239d7107c7983beff6ea1627ee056" ∧
  str (classSignature littleEndianHost [] sensor) = "edd2bbdb702239d7107c7983beff6ea1627ee056" ∧
  ¬ signature_changes_with_type.
Proof.
  do 5 (split; [vm_compute; reflexivity|]).
  intros H.
  apply (H littleEndianHost [] sensor 0%nat (ASTProperty.mk "int" "level" ReadWrite false) "ns::int");
    [reflexivity|discriminate|vm_compute; reflexivity].
Qed.

Lemma flat_map_alter {A B} (f : A → A) (g : A → list B) (l : list A) (i : nat) (x : A) :
  l !! i = Some x →
  ∃ pre post, flat_map g l = pre ++ g x ++ post ∧
              flat_map g (alter f i l) = pre ++ g (f x) ++ post.
Proof.
  revert i. induction l as [|a l IH]; intros i Hi; [done|].
  destruct i as [|i]; simpl in *.
  - injection Hi as ->. by exists [], (flat_map g l).
  - destruct (IH i Hi) as (pre & post & E1 & E2).
    exists (g a ++ pre), post. change (list_alter f i l) with (alter f i l).
    rewrite E1, E2. by rewrite <-!app_assoc.
Qed.

(** C5, as the code has it.  Changing the type of one property changes the
    bytes [classSignature] hashes exactly when the type data of the two
    types differ; with equal type data the digest is the same.  The bytes
    hashed contain the name, the type data and the modifier of the
    property, one after the other. *)
Theorem classSignature_property_type (platform : Platform) (g : QHash) (ac : ASTClass.t)
    (i : nat) (p : ASTProperty.t) (newType : QString) :
  ASTClass.properties ac !! i = Some p →
  let localTypes := localTypesOf g ac in
  let ac' := setPropertyType i newType ac in
  (∃ pre post,
     checksumData platform g ac
       = pre ++ toLatin1 (ASTProperty.name p) ++ typeData (ASTProperty.type p) localTypes ++
         modifierRep platform (ASTProperty.modifier p) ++ post ∧
     checksumData platform g ac'
       = pre ++ toLatin1 (ASTProperty.name p) ++ typeData newType localTypes ++
         modifierRep platform (ASTProperty.modifier p) ++ post) ∧
  (checksumData platform g ac' = checksumData platform g ac
     ↔ typeData newType localTypes = typeData (ASTProperty.type p) localTypes) ∧
  (typeData newType localTypes = typeData (ASTProperty.type p) localTypes →
     classSignature platform g ac' = classSignature platform g ac) ∧
  classSignature platform g ac' = toHex (Sha1.sha1 (checksumData platform g ac')).
Proof.
  intros Hp localTypes ac'.
  destruct (flat_map_alter (retype newType) (propertyData platform localTypes)
              (ASTClass.properties ac) i p Hp) as (pre & post & E1 & E2).
  assert (Hsplit :
    checksumData platform g ac
      = (toLatin1 (ASTClass.name ac) ++ pre ++ toLatin1 (ASTProperty.name p)) ++
        typeData (ASTProperty.type p) localTypes ++
        (modifierRep platform (ASTProperty.modifier p) ++ post ++
         functionsData platform (ASTClass.signalsList ac) localTypes ++
         functionsData platform (ASTClass.slotsList ac) localTypes) ∧
    checksumData platform g ac'
      = (toLatin1 (ASTClass.name ac) ++ pre ++ toLatin1 (ASTProperty.name p)) ++
        typeData newType localTypes ++
        (modifierRep platform (ASTProperty.modifier p) ++ post ++
         functionsData platform (ASTClass.signalsList ac) localTypes ++
         functionsData platform (ASTClass.slotsList ac) localTypes)).
  { unfold checksumData, ac', setPropertyType, localTypesOf. cbn [ASTClass.name
      ASTClass.properties ASTClass.signalsList ASTClass.slotsList ASTClass.enums].
    fold (localTypesOf g ac). fold localTypes. rewrite E1, E2.
    unfold propertyData, retype. cbn [ASTProperty.name ASTProperty.type ASTProperty.modifier].
    by rewrite <-!app_assoc. }
  destruct Hsplit as [Ha Ha'].
  assert (Hiff : checksumData platform g ac' = checksumData platform g ac
                 ↔ typeData newType localTypes = typeData (ASTProperty.type p) localTypes).
  { rewrite Ha, Ha'. split.
    - intros H. apply app_inv_head in H. by apply app_inv_tail in H.
    - by intros ->. }
  split; [|split; [done|split; [|done]]].
  - exists (toLatin1 (ASTClass.name ac) ++ pre),
           (post ++ functionsData platform (ASTClass.signalsList ac) localTypes ++
            functionsData platform (ASTClass.slotsList ac) localTypes).
    rewrite Ha, Ha'. rewrite <-!app_assoc. split; reflexivity.
  - intros H. unfold classSignature. apply Hiff in H. by rewrite H.
Qed.

Definition level : ASTProperty.t := ASTProperty.mk "int" "level" ReadWrite false.

Lemma classSignature_property_type_witness :
  let localTypes := localTypesOf [] sensor in
  let ac' := setPropertyType 0 "double" sensor in
  (∃ pre post,
     checksumData littleEndianHost [] sensor
       = pre ++ toLatin1 (ASTProperty.name level) ++ typeData (ASTProperty.type level) localTypes ++
         modifierRep littleEndianHost (ASTProperty.modifier level) ++ post ∧
     checksumData littleEndianHost [] ac'
       = pre ++ toLatin1 (ASTProperty.name level) ++ typeData "double" localTypes ++
         modifierRep littleEndianHost (ASTProperty.modifier level) ++ post) ∧
  (checksumData littleEndianHost [] ac' = checksumData littleEndianHost [] sensor
     ↔ typeData "double" localTypes = typeData (ASTProperty.type level) localTypes) ∧
  (typeData "double" localTypes = typeData (ASTProperty.type level) localTypes →
     classSignature littleEndianHost [] ac' = classSignature littleEndianHost [] sensor) ∧
  classSignature littleEndianHost [] ac'
    = toHex (Sha1.sha1 (checksumData littleEndianHost [] ac')).
Proof.
  exact (classSignature_property_type littleEndianHost [] sensor 0 level "double" eq_refl).
Defined.

End SignatureFacts.

(* ================================================================== *)
(** * Properties of the generated capability map *)

Module SourceApiFacts.
Import Repc SourceApi.

(** *** Array reads *)

Lemma rd_cons_0 {A} (x : A) (l : list A) : rd (x :: l) 0 = Some x.
Proof. done. Qed.

Lemma rd_cons_succ {A} (x : A) (l : list A) (i : Z) :
  0 ≤ i → rd (x :: l) (i + 1) = rd l i.
Proof.
  intros Hi. unfold rd.
  destruct (Z.ltb_spec (i + 1) 0), (Z.ltb_spec i 0); try lia.
  by replace (Z.to_nat (i + 1)) with (S (Z.to_nat i)) by lia.
Qed.

Lemma rd_map {A B} (f : A → B) (l : list A) (i : Z) : rd (map f l) i = f <$> rd l i.
Proof. unfold rd. destruct (i <? 0); [done|]. apply list_lookup_fmap. Qed.

Lemma rd_inside {A} (l : list A) (i : Z) : 0 ≤ i < count l → is_Some (rd l i).
Proof.
  intros Hi. unfold rd, count in *. destruct (Z.ltb_spec i 0); [lia|].
  apply lookup_lt_is_Some. lia.
Qed.

Lemma rd_outside {A} (l : list A) (i : Z) : i < 0 ∨ count l ≤ i → rd l i = None.
Proof.
  intros Hi. unfold rd, count in *. destruct (Z.ltb_spec i 0); [done|].
  apply lookup_ge_None. lia.
Qed.

Lemma rd_Some_inside {A} (l : list A) (i : Z) (x : A) : rd l i = Some x → 0 ≤ i < count l.
Proof.
  unfold rd, count. destruct (Z.ltb_spec i 0); [done|].
  intros Hlt%lookup_lt_Some. lia.
Qed.

Lemma rd_app_r {A} (l1 l2 : list A) (i : Z) :
  count l1 ≤ i → rd (l1 ++ l2) i = rd l2 (i - count l1).
Proof.
  intros Hi. unfold rd, count in *.
  destruct (Z.ltb_spec i 0), (Z.ltb_spec (i - Z.of_nat (length l1)) 0); try lia.
  rewrite lookup_app_r by lia. f_equal. lia.
Qed.

(** *** The bounds-checked accessors *)

(** On a table whose slot 0 is the number of the slots that follow, the
    accessor reads inside the table for every index, and answers -1 outside
    the range of the entries. *)
Lemma indexOrMinus1_table (entries : list Z) (index : Z) :
  indexOrMinus1 (count entries :: entries) index
  = Some (default (-1) (rd entries index)).
Proof.
  unfold indexOrMinus1. destruct (Z.ltb_spec index 0) as [Hneg|Hpos].
  - by rewrite rd_outside by lia.
  - rewrite rd_cons_0. simpl. destruct (Z.geb_spec index (count entries)) as [Hge|Hlt].
    + by rewrite rd_outside by lia.
    + rewrite rd_cons_succ by done.
      by destruct (rd_inside entries index ltac:(lia)) as [x ->].
Qed.

Lemma parameterCount_table (entries argCount : list Z) (index : Z) :
  length argCount = length entries →
  parameterCount (count entries :: entries) argCount index
  = Some (default (-1) (rd argCount index)).
Proof.
  intros Hlen. unfold parameterCount. destruct (Z.ltb_spec index 0) as [Hneg|Hpos].
  - by rewrite rd_outside by lia.
  - rewrite rd_cons_0. simpl. destruct (Z.geb_spec index (count entries)) as [Hge|Hlt].
    + rewrite rd_outside; [done|]. unfold count in *. lia.
    + destruct (rd_inside argCount index) as [x ->]; [|done]. unfold count in *. lia.
Qed.

Lemma parameterType_outside (entries argCount : list Z) (argTypes : list (list Z))
    (i paramIndex : Z) :
  length argCount = length entries →
  i < 0 ∨ count entries ≤ i ∨ paramIndex < 0 ∨
    (∃ c, rd argCount i = Some c ∧ c ≤ paramIndex) →
  parameterType (count entries :: entries) argCount argTypes i paramIndex = Some (-1).
Proof.
  intros Hlen Hout. unfold parameterType.
  destruct (Z.ltb_spec i 0) as [Hneg|Hpos]; [done|].
  rewrite rd_cons_0. simpl. destruct (Z.geb_spec i (count entries)) as [Hge|Hlt]; [done|].
  destruct (Z.ltb_spec paramIndex 0) as [Hpneg|Hppos]; [done|].
  destruct Hout as [?|[?|[?|(c & Hc & Hle)]]]; try lia.
  rewrite Hc. simpl. by destruct (Z.geb_spec paramIndex c); [|lia].
Qed.

Lemma length_transformEnumParams (classContext : ASTClass.t) (l : list ASTFunction.t) (t : QString) :
  length (transformEnumParams classContext l t) = length l.
Proof. unfold transformEnumParams. by rewrite length_map. Qed.

Lemma count_signalEntries (ot : ObjectType) (astClass : ASTClass.t) :
  count (signalEntries ot astClass) = signalCount astClass + changedCount astClass.
Proof.
  unfold count, signalEntries, signalCount, changedCount, count.
  rewrite length_app, !length_map, length_transformEnumParams. lia.
Qed.

Lemma count_methodEntries (ot : ObjectType) (astClass : ASTClass.t) :
  count (methodEntries ot astClass) = methodCount astClass.
Proof.
  unfold count, methodEntries, methodCount, count.
  rewrite length_app, !length_map, length_transformEnumParams. lia.
Qed.

Lemma count_map {A B} (f : A → B) (l : list A) : count (map f l) = count l.
Proof. unfold count. by rewrite length_map. Qed.

(** The six members of the generated class that guard one index, unfolded
    over the tables the constructor fills. *)
Lemma generated_accessors (ot : ObjectType) (astClass : ASTClass.t) (index : Z) :
  let api := generateSourceAPI ot astClass in
  sourceEnumIndex api index
    = Some (default (-1) (rd (map (λ e, indexOfEnumerator ot (ASTEnum.name e))
                               (ASTClass.enums astClass)) index)) ∧
  sourcePropertyIndex api index
    = Some (default (-1) (rd (map (λ p, qtro_property_index ot (ASTProperty.name p))
                               (ASTClass.properties astClass)) index)) ∧
  sourceSignalIndex api index
    = Some (default (-1) (rd (map q_index (signalEntries ot astClass)) index)) ∧
  sourceMethodIndex api index
    = Some (default (-1) (rd (map q_index (methodEntries ot astClass)) index)) ∧
  signalParameterCount api index
    = Some (default (-1) (rd (map q_count (signalEntries ot astClass)) index)) ∧
  methodParameterCount api index
    = Some (default (-1) (rd (map q_count (methodEntries ot astClass)) index)).
Proof.
  cbv zeta. unfold generateSourceAPI, construct.
  cbn [sourceEnumIndex sourcePropertyIndex sourceSignalIndex sourceMethodIndex
       signalParameterCount methodParameterCount
       m_enums m_properties m_signals m_methods m_signalArgCount m_methodArgCount].
  repeat split.
  - rewrite <-(count_map (λ e, indexOfEnumerator ot (ASTEnum.name e))). apply indexOrMinus1_table.
  - rewrite <-(count_map (λ p, qtro_property_index ot (ASTProperty.name p))).
    apply indexOrMinus1_table.
  - fold (changedCount astClass). rewrite <-(count_signalEntries ot), <-(count_map q_index).
    apply indexOrMinus1_table.
  - rewrite <-(count_methodEntries ot), <-(count_map q_index). apply indexOrMinus1_table.
  - fold (changedCount astClass). rewrite <-(count_signalEntries ot).
    destruct (Z.ltb_spec 0 (count (signalEntries ot astClass))) as [Hpos|Hnone].
    + rewrite <-(count_map q_index). apply parameterCount_table. by rewrite !length_map.
    + rewrite rd_outside; [done|]. rewrite count_map. destruct (Z.lt_ge_cases index 0); lia.
  - rewrite <-(count_methodEntries ot).
    destruct (Z.ltb_spec 0 (count (methodEntries ot astClass))) as [Hpos|Hnone].
    + rewrite <-(count_map q_index). apply parameterCount_table. by rewrite !length_map.
    + rewrite rd_outside; [done|]. rewrite count_map. destruct (Z.lt_ge_cases index 0); lia.
Qed.

Lemma default_outside {A} (l : list A) (f : A → Z) (i : Z) :
  i < 0 ∨ count l ≤ i → default (-1) (rd (map f l) i) = -1.
Proof. intros H. rewrite rd_outside; [done|]. by rewrite count_map. Qed.

Lemma generated_parameterType (ot : ObjectType) (astClass : ASTClass.t) (i paramIndex : Z) :
  let api := generateSourceAPI ot astClass in
  (i < 0 ∨ count (signalEntries ot astClass) ≤ i ∨ paramIndex < 0 ∨
     (∃ e, rd (signalEntries ot astClass) i = Some e ∧ q_count e ≤ paramIndex) →
   signalParameterType api i paramIndex = Some (-1)) ∧
  (i < 0 ∨ count (methodEntries ot astClass) ≤ i ∨ paramIndex < 0 ∨
     (∃ e, rd (methodEntries ot astClass) i = Some e ∧ q_count e ≤ paramIndex) →
   methodParameterType api i paramIndex = Some (-1)).
Proof.
  cbv zeta. unfold generateSourceAPI, construct.
  cbn [signalParameterType methodParameterType m_signals m_methods m_signalArgCount
       m_signalArgTypes m_methodArgCount m_methodArgTypes].
  split; intros Hout.
  - fold (changedCount astClass). rewrite <-(count_signalEntries ot).
    destruct (0 <? count (signalEntries ot astClass)); [|done].
    rewrite <-(count_map q_index). apply parameterType_outside; [by rewrite !length_map|].
    rewrite count_map. destruct Hout as [?|[?|[?|(e & He & Hle)]]]; auto.
    do 3 right. exists (q_count e). by rewrite rd_map, He.
  - rewrite <-(count_methodEntries ot).
    destruct (0 <? count (methodEntries ot astClass)); [|done].
    rewrite <-(count_map q_index). apply parameterType_outside; [by rewrite !length_map|].
    rewrite count_map. destruct Hout as [?|[?|[?|(e & He & Hle)]]]; auto.
    do 3 right. exists (q_count e). by rewrite rd_map, He.
Qed.

(** C8.  For every generated class and every integer argument, each
    index-taking accessor answers -1 when its index is negative or not
    below the count of its table, without reading outside the table: the
    one-index accessors return a value for every index at all, and the
    parameter-type accessors answer -1 as well when the parameter index is
    negative or not below the argument count of the entry. *)
Theorem accessors_bounds_checked (ot : ObjectType) (astClass : ASTClass.t) (index paramIndex : Z) :
  let api := generateSourceAPI ot astClass in
  (is_Some (sourceEnumIndex api index) ∧ is_Some (sourcePropertyIndex api index) ∧
   is_Some (sourceSignalIndex api index) ∧ is_Some (sourceMethodIndex api index) ∧
   is_Some (signalParameterCount api index) ∧ is_Some (methodParameterCount api index)) ∧
  (index < 0 ∨ count (ASTClass.enums astClass) ≤ index →
     sourceEnumIndex api index = Some (-1)) ∧
  (index < 0 ∨ count (ASTClass.properties astClass) ≤ index →
     sourcePropertyIndex api index = Some (-1)) ∧
  (index < 0 ∨ signalCount astClass + changedCount astClass ≤ index →
     sourceSignalIndex api index = Some (-1) ∧
     signalParameterCount api index = Some (-1) ∧
     signalParameterType api index paramIndex = Some (-1)) ∧
  (index < 0 ∨ methodCount astClass ≤ index →
     sourceMethodIndex api index = Some (-1) ∧
     methodParameterCount api index = Some (-1) ∧
     methodParameterType api index paramIndex = Some (-1)) ∧
  (∀ argc, signalParameterCount api index = Some argc →
     paramIndex < 0 ∨ argc ≤ paramIndex →
     signalParameterType api index paramIndex = Some (-1)) ∧
  (∀ argc, methodParameterCount api index = Some argc →
     paramIndex < 0 ∨ argc ≤ paramIndex →
     methodParameterType api index paramIndex = Some (-1)).
Proof.
  cbv zeta.
  destruct (generated_accessors ot astClass index) as (He & Hp & Hs & Hm & Hsc & Hmc).
  destruct (generated_parameterType ot astClass index paramIndex) as [Hst Hmt].
  cbv zeta in *. rewrite He, Hp, Hs, Hm, Hsc, Hmc.
  split; [by repeat split|].
  split; [by intros H; rewrite default_outside|].
  split; [by intros H; rewrite default_outside|].
  split.
  { intros H. rewrite <-(count_signalEntries ot) in H. rewrite !default_outside by done.
    split; [done|]. split; [done|]. apply Hst. tauto. }
  split.
  { intros H. rewrite <-(count_methodEntries ot) in H. rewrite !default_outside by done.
    split; [done|]. split; [done|]. apply Hmt. tauto. }
  split.
  - intros c Hc Hout. apply Hst. rewrite rd_map in Hc.
    destruct (rd (signalEntries ot astClass) index) as [e|] eqn:E; simpl in Hc.
    + injection Hc as <-. destruct Hout; [tauto|]. do 3 right. by exists e.
    + apply eq_None_not_Some in E. destruct (Z.lt_ge_cases index 0); [tauto|].
      destruct (Z.lt_ge_cases index (count (signalEntries ot astClass))); [|tauto].
      destruct E. apply rd_inside. lia.
  - intros c Hc Hout. apply Hmt. rewrite rd_map in Hc.
    destruct (rd (methodEntries ot astClass) index) as [e|] eqn:E; simpl in Hc.
    + injection Hc as <-. destruct Hout; [tauto|]. do 3 right. by exists e.
    + apply eq_None_not_Some in E. destruct (Z.lt_ge_cases index 0); [tauto|].
      destruct (Z.lt_ge_cases index (count (methodEntries ot astClass))); [|tauto].
      destruct E. apply rd_inside. lia.
Qed.

(** *** [propertyIndexFromSignal] *)

(** The loop that collects the change signals keeps the properties that
    are not [Constant], in order, each with its slot in [m_properties]. *)
Lemma changeLoop_fst (i : Z) (props : list ASTProperty.t) :
  (changeLoop i props).*1 = filter (λ p, ASTProperty.modifier p ≠ Constant) props.
Proof.
  revert i. induction props as [|p props IH]; intros i; [done|].
  simpl. rewrite filter_cons. destruct (decide (ASTProperty.modifier p ≠ Constant)).
  - rewrite fmap_cons. simpl. by rewrite IH.
  - by rewrite IH.
Qed.

Lemma changeLoop_slot (i : Z) (props : list ASTProperty.t) (j : nat) (prop : ASTProperty.t) (k : Z) :
  changeLoop i props !! j = Some (prop, k) →
  ∃ raw : nat, props !! raw = Some prop ∧ k = i + Z.of_nat raw + 1.
Proof.
  revert i j. induction props as [|p props IH]; intros i j; [done|].
  simpl. destruct (decide (ASTProperty.modifier p ≠ Constant)).
  - destruct j as [|j]; simpl.
    + intros [= -> <-]. exists 0%nat. split; [done|lia].
    + intros (raw & Hraw & ->)%IH. exists (S raw). split; [done|lia].
  - intros (raw & Hraw & ->)%IH. exists (S raw). split; [done|lia].
Qed.

Lemma onChangeProperties_filter (astClass : ASTClass.t) :
  onChangeProperties astClass
  = filter (λ p, ASTProperty.modifier p ≠ Constant) (ASTClass.properties astClass).
Proof. apply changeLoop_fst. Qed.

Lemma rd_changeLoop (astClass : ASTClass.t) (index : Z) :
  rd (changeLoop 0 (ASTClass.properties astClass)) index
  = match rd (onChangeProperties astClass) index, rd (propertyChangeIndex astClass) index with
    | Some prop, Some k => Some (prop, k)
    | _, _ => None
    end.
Proof.
  unfold onChangeProperties, propertyChangeIndex, rd. destruct (index <? 0); [done|].
  rewrite !list_lookup_fmap.
  by destruct (changeLoop 0 (ASTClass.properties astClass) !! Z.to_nat index) as [[? ?]|].
Qed.

(** C4.  In the class generated for [astClass], the change signals take the
    signal indices [0 .. changedCount-1], one per property that is not
    [Constant], in the order of the properties.  For such an index
    [propertyIndexFromSignal] returns the property index, in [ObjectType],
    of the property whose change signal has that index -- the value
    [sourcePropertyIndex] gives for the position of the property in the
    class; for every other index it returns -1: for the signals of the
    class, which take the indices from [changedCount] on, and for indices
    out of range. *)
Theorem propertyIndexFromSignal_spec (ot : ObjectType) (astClass : ASTClass.t) (index : Z) :
  let api := generateSourceAPI ot astClass in
  let changed := filter (λ p, ASTProperty.modifier p ≠ Constant) (ASTClass.properties astClass) in
  changedCount astClass = count changed ∧
  match rd changed index with
  | Some prop =>
      propertyIndexFromSignal api index = Some (qtro_property_index ot (ASTProperty.name prop)) ∧
      sourceSignalIndex api index
        = Some (q_index (qtro_signal_index ot (ASTProperty.name prop +:+ "Changed")
                  [fullyQualifiedTypeName astClass objectTypeName (typeForMode prop SOURCE)])) ∧
      ∃ raw : nat,
        ASTClass.properties astClass !! raw = Some prop ∧
        propertyRawIndexFromSignal api index = Some (Z.of_nat raw) ∧
        sourcePropertyIndex api (Z.of_nat raw) = propertyIndexFromSignal api index
  | None =>
      propertyIndexFromSignal api index = Some (-1) ∧
      ∀ sig,
        rd (transformEnumParams astClass (ASTClass.signalsList astClass) objectTypeName)
           (index - count changed) = Some sig →
        sourceSignalIndex api index
          = Some (q_index (qtro_signal_index ot (ASTFunction.name sig)
                    (map ASTDeclaration.type (ASTFunction.params sig))))
  end.
Proof.
  cbv zeta. rewrite <-onChangeProperties_filter. split; [done|].
  destruct (generated_accessors ot astClass index) as (_ & _ & Hs & _).
  cbv zeta in Hs. rewrite Hs. clear Hs.
  pose proof (rd_changeLoop astClass index) as Hloop.
  unfold generateSourceAPI, construct.
  cbn [propertyIndexFromSignal propertyRawIndexFromSignal sourcePropertyIndex m_properties].
  unfold switchOnSignal, switchRaw.
  destruct (rd (onChangeProperties astClass) index) as [prop|] eqn:Hprop.
  - assert (Hk : is_Some (rd (propertyChangeIndex astClass) index)).
    { apply rd_inside. pose proof (rd_Some_inside _ _ _ Hprop) as Hin.
      unfold count, propertyChangeIndex, onChangeProperties in *.
      rewrite length_fmap in Hin. by rewrite length_fmap. }
    destruct Hk as [k Hk]. rewrite Hk in Hloop.
    assert (Hindex : 0 ≤ index) by (pose proof (rd_Some_inside _ _ _ Hprop); lia).
    unfold rd in Hloop. destruct (Z.ltb_spec index 0); [lia|].
    apply changeLoop_slot in Hloop as (raw & Hraw & ->).
    assert (Hne : propertyChangeIndex astClass ≠ []).
    { intros E. rewrite E in Hk. apply rd_Some_inside in Hk. unfold count in Hk.
      simpl in Hk. lia. }
    rewrite (bool_decide_eq_true_2 _ Hne).
    rewrite Hk. replace (0 + Z.of_nat raw + 1) with (Z.of_nat raw + 1) by lia.
    rewrite rd_cons_succ by lia.
    assert (Hrd : rd (map (λ p, qtro_property_index ot (ASTProperty.name p))
                       (ASTClass.properties astClass)) (Z.of_nat raw)
                  = Some (qtro_property_index ot (ASTProperty.name prop))).
    { rewrite rd_map. unfold rd. destruct (Z.ltb_spec (Z.of_nat raw) 0); [lia|].
      by rewrite Nat2Z.id, Hraw. }
    rewrite Hrd. split; [done|]. split.
    + unfold signalEntries. rewrite map_app, map_map.
      assert (Hlt : (Z.to_nat index < length (onChangeProperties astClass))%nat).
      { pose proof (rd_Some_inside _ _ _ Hprop) as Hin. unfold count in Hin. lia. }
      unfold rd in *. destruct (Z.ltb_spec index 0); [lia|].
      rewrite lookup_app_l by (by rewrite length_map).
      change (map ?f ?l) with (f <$> l). by rewrite list_lookup_fmap, Hprop.
    + exists raw. split; [done|]. split; [f_equal; lia|].
      rewrite <-(count_map (λ p, qtro_property_index ot (ASTProperty.name p))).
      by rewrite indexOrMinus1_table, Hrd.
  - assert (Hk : rd (propertyChangeIndex astClass) index = None).
    { destruct (rd (propertyChangeIndex astClass) index) as [k|] eqn:Hk; [|done].
      apply rd_Some_inside in Hk. apply eq_None_not_Some in Hprop. destruct Hprop.
      apply rd_inside. unfold count, propertyChangeIndex, onChangeProperties in *.
      rewrite length_fmap in Hk. by rewrite length_fmap. }
    split.
    + destruct (bool_decide (propertyChangeIndex astClass ≠ [])); [|done].
      cbv beta. by rewrite Hk.
    + intros sig Hsig. pose proof (rd_Some_inside _ _ _ Hsig) as Hin.
      unfold signalEntries.
      change (map ?f (?l1 ++ ?l2)) with (f <$> (l1 ++ l2)). rewrite fmap_app.
      rewrite rd_app_r by (rewrite !count_map; lia).
      rewrite !count_map.
      change (q_index <$> ?l) with (map q_index l). rewrite map_map, rd_map, Hsig. done.
Qed.

(** *** The class generated for [sensor]
    [level] is read-write and [unit] constant: signal 0 is [levelChanged],
    signal 1 the signal [alarm] of the class. *)

Definition sensorObject : ObjectType :=
  mkObjectType
    (λ name, if String.eqb name "Unit" then 0 else -1)
    (λ name, if String.eqb name "level" then 1 else if String.eqb name "unit" then 2 else -1)
    (λ name params,
       mkQtro (if String.eqb name "levelChanged" then 5
               else if String.eqb name "alarm" then 6 else -1)
              (count params) (map (λ _, 2) params))
    (λ name params,
       mkQtro (if String.eqb name "reset" then 7 else -1) (count params) (map (λ _, 2) params)).

Definition sensorAPI : SourceApiMap := generateSourceAPI sensorObject SignatureFacts.sensor.

Example sensor_propertyIndexFromSignal :
  map (propertyIndexFromSignal sensorAPI) [-1; 0; 1; 2]
  = [Some (-1); Some 1; Some (-1); Some (-1)].
Proof. reflexivity. Qed.

Example sensor_signals :
  map (sourceSignalIndex sensorAPI) [-1; 0; 1; 2] = [Some (-1); Some 5; Some 6; Some (-1)] ∧
  map (signalParameterCount sensorAPI) [-1; 0; 1; 2] = [Some (-1); Some 1; Some 1; Some (-1)] ∧
  map (signalParameterType sensorAPI 1) [-1; 0; 1] = [Some (-1); Some 2; Some (-1)] ∧
  map (λ i, signalParameterType sensorAPI i 0) [-1; 2; 2147483647] = [Some (-1); Some (-1); Some (-1)].
Proof. repeat split. Qed.

Example sensor_tables :
  map (sourcePropertyIndex sensorAPI) [-1; 0; 1; 2] = [Some (-1); Some 1; Some 2; Some (-1)] ∧
  map (sourceEnumIndex sensorAPI) [-1; 0; 1] = [Some (-1); Some 0; Some (-1)] ∧
  map (sourceMethodIndex sensorAPI) [-1; 0; 1] = [Some (-1); Some 7; Some (-1)] ∧
  map (methodParameterCount sensorAPI) [-1; 0; 1] = [Some (-1); Some 0; Some (-1)] ∧
  map (methodParameterType sensorAPI 0) [-1; 0] = [Some (-1); Some (-1)].
Proof. repeat split. Qed.

End SourceApiFacts.

(* ================================================================== *)
(** * Properties of [copyStoredProperties] *)

Module StoredPropertiesFacts.
Import StoredProperties.

Section Codec.
Context {QVariant QMetaType : Type} (invalid : QVariant).
Context (encodeVariant : QVariant → QVariant)
        (decodeVariant : QVariant → QMetaType → QVariant).

Local Abbreviation QMetaObject := (@QMetaObject QMetaType).
Local Abbreviation World := (@World QVariant).
Local Abbreviation copy_obj := (@copyStoredProperties_obj QVariant QMetaType invalid).
Local Abbreviation copy_out := (@copyStoredProperties_out QVariant QMetaType invalid encodeVariant).
Local Abbreviation copy_in := (@copyStoredProperties_in QVariant QMetaType invalid decodeVariant).

(** *** Null pointers *)

(** C9.  Given a null source or a null destination, each overload logs one
    warning and does nothing else: the object behind [dst] and the stream
    are as before and no property is read or written.  Conversely, a call
    that read or wrote a property had the pointers it needs. *)
Theorem copyStoredProperties_null (mo : QMetaObject) (src : option (@Gadget QVariant)) (w : World) :
  (src = None →
     exec (copy_obj mo src) w
       = mkWorld (dstObject w) (stream w) (warnings w ++ [NullSource]) (accesses w) ∧
     exec (copy_out mo src) w
       = mkWorld (dstObject w) (stream w) (warnings w ++ [NullSource]) (accesses w)) ∧
  (dstObject w = None →
     (is_Some src →
        exec (copy_obj mo src) w
          = mkWorld (dstObject w) (stream w) (warnings w ++ [NullDestination]) (accesses w)) ∧
     exec (copy_in mo) w
       = mkWorld (dstObject w) (stream w) (warnings w ++ [NullDestination]) (accesses w)) ∧
  (accesses (exec (copy_obj mo src) w) ≠ accesses w → is_Some src ∧ is_Some (dstObject w)) ∧
  (accesses (exec (copy_out mo src) w) ≠ accesses w → is_Some src) ∧
  (accesses (exec (copy_in mo) w) ≠ accesses w → is_Some (dstObject w)).
Proof.
  assert (Hobj_src : src = None →
    exec (copy_obj mo src) w
      = mkWorld (dstObject w) (stream w) (warnings w ++ [NullSource]) (accesses w)).
  { by intros ->. }
  assert (Hout_src : src = None →
    exec (copy_out mo src) w
      = mkWorld (dstObject w) (stream w) (warnings w ++ [NullSource]) (accesses w)).
  { by intros ->. }
  assert (Hobj_dst : dstObject w = None → is_Some src →
    exec (copy_obj mo src) w
      = mkWorld (dstObject w) (stream w) (warnings w ++ [NullDestination]) (accesses w)).
  { intros Hd [g ->]. unfold copyStoredProperties_obj, exec, mbind, St_bind, get.
    rewrite Hd. unfold qCWarning, modify. simpl. by rewrite Hd. }
  assert (Hin_dst : dstObject w = None →
    exec (copy_in mo) w
      = mkWorld (dstObject w) (stream w) (warnings w ++ [NullDestination]) (accesses w)).
  { intros Hd. unfold copyStoredProperties_in, exec, mbind, St_bind, get.
    rewrite Hd. unfold qCWarning, modify. simpl. by rewrite Hd. }
  split; [by auto|]. split; [by auto|]. split; [|split].
  - intros Hacc. destruct src as [g|]; [|by rewrite Hobj_src in Hacc].
    split; [by eauto|]. destruct (dstObject w) as [d|] eqn:Hd; [by eauto|].
    rewrite Hobj_dst in Hacc by eauto. done.
  - intros Hacc. destruct src as [g|]; [by eauto|]. by rewrite Hout_src in Hacc.
  - intros Hacc. destruct (dstObject w) as [d|] eqn:Hd; [by eauto|].
    by rewrite Hin_dst in Hacc.
Qed.

(** *** The two loops over the properties *)

Definition encoded (src : @Gadget QVariant) (l : list (nat * @QMetaProperty QMetaType)) : list QVariant :=
  (λ x, encodeVariant (readOnGadget invalid x.1 src)) <$> l.

Lemma copy_out_loop (src : @Gadget QVariant) (l : list (nat * @QMetaProperty QMetaType)) (w : World) :
  exec (forEach (λ '(i, mp),
          access (ReadProperty i) ;;
          s ← get ;
          setStream (stream s ++ [encodeVariant (readOnGadget invalid i src)])) l) w
  = mkWorld (dstObject w) (stream w ++ encoded src l) (warnings w)
      (accesses w ++ ((λ x, ReadProperty x.1) <$> l)).
Proof.
  revert w. induction l as [|[i mp] l IH]; intros w.
  - destruct w. unfold exec, encoded. simpl. by rewrite !app_nil_r.
  - rewrite exec_forEach_cons, IH. unfold encoded. rewrite !fmap_cons.
    unfold exec. simpl. by rewrite <-!app_assoc.
Qed.

(** The destination after the reading loop: every property written in turn
    with the decoded value. *)
Definition written (src : @Gadget QVariant) (d : @Gadget QVariant)
    (l : list (nat * @QMetaProperty QMetaType)) : @Gadget QVariant :=
  foldl (λ d x, writeOnGadget x.2 x.1 d
                  (decodeVariant (encodeVariant (readOnGadget invalid x.1 src)) (metaType x.2)))
        d l.

Definition readBody : nat * @QMetaProperty QMetaType → St World unit :=
  λ '(i, mp),
    v ← readVariant invalid ;
    s ← get ;
    access (WriteProperty i) ;;
    setDst (writeOnGadget mp i (default [] (dstObject s)) (decodeVariant v (metaType mp))).

Lemma readBody_step (i : nat) (mp : @QMetaProperty QMetaType) (d : @Gadget QVariant)
    (v : QVariant) (rest : list QVariant) (w : World) :
  dstObject w = Some d → stream w = v :: rest →
  exec (readBody (i, mp)) w
  = mkWorld (Some (writeOnGadget mp i d (decodeVariant v (metaType mp)))) rest (warnings w)
      (accesses w ++ [WriteProperty i]).
Proof.
  intros Hd Hs. unfold exec, readBody, readVariant, mbind, St_bind, get. rewrite Hs. simpl.
  by rewrite Hd.
Qed.

Lemma copy_in_loop (src d : @Gadget QVariant) (l : list (nat * @QMetaProperty QMetaType))
    (rest : list QVariant) (w : World) :
  dstObject w = Some d → stream w = encoded src l ++ rest →
  exec (forEach readBody l) w
  = mkWorld (Some (written src d l)) rest (warnings w)
      (accesses w ++ ((λ x, WriteProperty x.1) <$> l)).
Proof.
  revert d w. induction l as [|[i mp] l IH]; intros d w Hd Hs.
  - destruct w. unfold exec. simpl in *. subst. by rewrite app_nil_r.
  - rewrite exec_forEach_cons.
    unfold encoded in Hs. rewrite fmap_cons in Hs. cbn [fst] in Hs.
    rewrite (readBody_step i mp d _ _ w Hd Hs).
    rewrite (IH (writeOnGadget mp i d
                   (decodeVariant (encodeVariant (readOnGadget invalid i src)) (metaType mp))))
      by done.
    cbn [warnings accesses]. rewrite fmap_cons. cbn [fst]. by rewrite <-app_assoc.
Qed.

Lemma copy_in_unfold (mo : QMetaObject) (d : @Gadget QVariant) (w : World) :
  dstObject w = Some d →
  exec (copy_in mo) w = exec (forEach readBody (properties mo)) w.
Proof.
  intros Hd. unfold copyStoredProperties_in, exec, mbind, St_bind, get. by rewrite Hd.
Qed.

(** *** Writing, then reading back *)

Definition properties_from (k : nat) (mo : QMetaObject) : list (nat * @QMetaProperty QMetaType) :=
  imap (λ i mp, ((k + i)%nat, mp)) mo.

Lemma properties_from_cons (k : nat) (mp : @QMetaProperty QMetaType) (mo : QMetaObject) :
  properties_from k (mp :: mo) = (k, mp) :: properties_from (S k) mo.
Proof.
  unfold properties_from. rewrite imap_cons. f_equal; [f_equal; lia|].
  apply imap_ext. intros i x _. simpl. f_equal. lia.
Qed.

(** The codec gives back the value of every property of [src]. *)
Definition codecRoundTrips (mo : QMetaObject) (src : @Gadget QVariant) : Prop :=
  ∀ i mp, mo !! i = Some mp →
    decodeVariant (encodeVariant (readOnGadget invalid i src)) (metaType mp)
    = readOnGadget invalid i src.

Lemma written_lookup (src d : @Gadget QVariant) (mo : QMetaObject) (k j : nat) :
  forallb isWritable mo = true →
  (∀ i mp, mo !! i = Some mp →
     decodeVariant (encodeVariant (readOnGadget invalid (k + i) src)) (metaType mp)
     = readOnGadget invalid (k + i) src) →
  (k + length mo ≤ length d)%nat → (k + length mo ≤ length src)%nat →
  written src d (properties_from k mo) !! j
  = if decide (k ≤ j < k + length mo)%nat then src !! j else d !! j.
Proof.
  revert k d. induction mo as [|mp mo IH]; intros k d Hw Hc Hd Hs.
  - simpl. rewrite decide_False; [done|]. simpl. lia.
  - rewrite properties_from_cons. unfold written. cbn [foldl fst snd].
    fold (written src) . simpl in Hw. apply andb_true_iff in Hw as [Hmp Hw].
    unfold writeOnGadget at 2. rewrite Hmp.
    pose proof (Hc 0%nat mp eq_refl) as Hc0. rewrite Nat.add_0_r in Hc0. rewrite Hc0.
    simpl in Hd, Hs.
    change (foldl _ ?d0 (properties_from (S k) mo)) with (written src d0 (properties_from (S k) mo)).
    rewrite IH.
    + destruct (decide (S k ≤ j < S k + length mo)%nat) as [Hin|Hout].
      * rewrite decide_True; [done|]. simpl. lia.
      * rewrite list_lookup_insert. destruct (decide (k = j ∧ (k < length d)%nat)) as [[-> _]|Hne].
        -- rewrite decide_True by (simpl; lia). unfold readOnGadget.
           destruct (src !! j) as [x|] eqn:Hx; [done|].
           apply lookup_ge_None in Hx. lia.
        -- rewrite decide_False; [done|]. simpl. lia.
    + done.
    + intros i mp' Hi. specialize (Hc (S i) mp' Hi).
      by replace (S k + i)%nat with (k + S i)%nat by lia.
    + rewrite length_insert. lia.
    + lia.
Qed.

Lemma written_all (src d : @Gadget QVariant) (mo : QMetaObject) :
  length src = length mo → length d = length mo →
  forallb isWritable mo = true → codecRoundTrips mo src →
  written src d (properties mo) = src.
Proof.
  intros Hs Hd Hw Hc. apply list_eq. intros j.
  change (properties mo) with (properties_from 0 mo).
  rewrite written_lookup by (try done; lia).
  destruct (decide (0 ≤ j < 0 + length mo)%nat) as [Hin|Hout]; [done|].
  rewrite !lookup_ge_None_2; [done|lia|lia].
Qed.

(** C7, as the code has it.  For a gadget class all of whose properties
    have a WRITE accessor (as every POD repc generates), and values the
    codec gives back: writing the properties of [src] to an empty stream
    with [copyStoredProperties(mo, src, stream)] and reading them back with
    [copyStoredProperties(mo, stream, dst)] leaves [dst] with every property
    equal to that of [src]; the stream is empty again and nothing is
    logged. *)
Theorem copyStoredProperties_roundtrip (mo : QMetaObject) (src dst : @Gadget QVariant) (w : World) :
  length src = length mo → length dst = length mo →
  forallb isWritable mo = true →
  codecRoundTrips mo src →
  dstObject w = Some dst → stream w = [] →
  let w' := exec (copy_in mo) (exec (copy_out mo (Some src)) w) in
  dstObject w' = Some src ∧ stream w' = [] ∧ warnings w' = warnings w.
Proof.
  intros Hs Hd Hw Hc Hdst Hstream. cbv zeta.
  assert (Hout : exec (copy_out mo (Some src)) w
                 = mkWorld (Some dst) (encoded src (properties mo)) (warnings w)
                     (accesses w ++ ((λ x, ReadProperty x.1) <$> properties mo))).
  { unfold copyStoredProperties_out. rewrite copy_out_loop. by rewrite Hstream, Hdst. }
  rewrite Hout. rewrite (copy_in_unfold mo dst) by done.
  rewrite (copy_in_loop src dst (properties mo) []) by (by rewrite ?app_nil_r).
  cbn [dstObject stream warnings]. by rewrite written_all.
Qed.

End Codec.

(** *** A concrete codec: values are optional integers, [QVariant()] is
    [None], and the codec passes values through. *)

Definition intProperty (name : QString) (writable : bool) : @QMetaProperty unit :=
  mkProperty name tt writable.

Definition copy_out_id := @copyStoredProperties_out (option Z) unit None (λ v, v).
Definition copy_in_id := @copyStoredProperties_in (option Z) unit None (λ v _, v).

(** The statement of the specification, as written: the round trip holds
    for every gadget meta-object, whenever the codec gives values back. *)
Definition roundtrip_for_every_gadget : Prop :=
  ∀ (QVariant QMetaType : Type) (invalid : QVariant)
    (encodeVariant : QVariant → QVariant) (decodeVariant : QVariant → QMetaType → QVariant)
    (mo : @QMetaObject QMetaType) (src dst : @Gadget QVariant),
    length src = length mo → length dst = length mo →
    (∀ v t, decodeVariant (encodeVariant v) t = v) →
    dstObject (exec (copyStoredProperties_in invalid decodeVariant mo)
                 (exec (copyStoredProperties_out invalid encodeVariant mo (Some src))
                    (mkWorld (Some dst) [] [] [])))
    = Some src.

(** A gadget with one property that has no WRITE accessor. *)
Definition readOnlyGadget : @QMetaObject unit := [intProperty "id" false].

(** C7, counterexample.  The property [id] of the gadget class has no WRITE
    accessor; after the round trip [dst] still holds 1 where [src] holds 7. *)
Lemma copyStoredProperties_roundtrip_counterexample :
  exec (copy_out_id readOnlyGadget (Some [Some 7])) (mkWorld (Some [Some 1]) [] [] [])
    = mkWorld (Some [Some 1]) [Some 7] [] [ReadProperty 0] ∧
  exec (copy_in_id readOnlyGadget)
       (exec (copy_out_id readOnlyGadget (Some [Some 7])) (mkWorld (Some [Some 1]) [] [] []))
    = mkWorld (Some [Some 1]) [] [] [ReadProperty 0; WriteProperty 0] ∧
  ¬ roundtrip_for_every_gadget.
Proof.
  split; [reflexivity|]. split; [reflexivity|].
  intros H.
  specialize (H (option Z) unit None (λ v, v) (λ v _, v) readOnlyGadget [Some 7] [Some 1]
                eq_refl eq_refl (λ _ _, eq_refl)).
  vm_compute in H. discriminate.
Qed.

(** A POD as repc generates it: every attribute [READ x WRITE setX]. *)
Definition pointGadget : @QMetaObject unit := [intProperty "x" true; intProperty "y" true].

Lemma copyStoredProperties_roundtrip_witness :
  let w := mkWorld (Some [None; Some 0]) [] [] [] in
  let w' := exec (copy_in_id pointGadget) (exec (copy_out_id pointGadget (Some [Some 3; Some 4])) w) in
  dstObject w' = Some [Some 3; Some 4] ∧ stream w' = [] ∧ warnings w' = warnings w.
Proof.
  exact (copyStoredProperties_roundtrip None (λ v, v) (λ v _, v) pointGadget
           [Some 3; Some 4] [None; Some 0] (mkWorld (Some [None; Some 0]) [] [] [])
           eq_refl eq_refl eq_refl (λ _ _ _, eq_refl) eq_refl eq_refl).
Defined.

Example point_roundtrip :
  exec (copy_in_id pointGadget)
       (exec (copy_out_id pointGadget (Some [Some 3; Some 4])) (mkWorld (Some [None; Some 0]) [] [] []))
  = mkWorld (Some [Some 3; Some 4]) [] []
      [ReadProperty 0; ReadProperty 1; WriteProperty 0; WriteProperty 1].
Proof. reflexivity. Qed.

Example null_source_warns :
  exec (copy_out_id pointGadget None) (mkWorld (Some [None; Some 0]) [] [] [])
  = mkWorld (Some [None; Some 0]) [] [NullSource] [].
Proof. reflexivity. Qed.

End StoredPropertiesFacts.

(* ================================================================== *)
(** * The registry: how the three operations compose *)

Module RegistryMore.
Import Registry RegistryFacts.

Lemma foldl_dropClaimed_filter (sourceLocs h : gmap string QUrl) :
  foldl (dropClaimed sourceLocs) h (map_to_list h) = filter (unclaimed sourceLocs) h.
Proof.
  apply map_eq. intros k. rewrite lookup_foldl_dropClaimed. unfold QString in *.
  destruct (decide (k ∈ (map_to_list h).*1 ∧ is_Some (sourceLocs !! k))) as [[Hin Hs]|Hn].
  - symmetry. apply map_lookup_filter_None. right. intros x _ Hun.
    destruct Hs as [o Ho]. unfold unclaimed in Hun. cbn [fst] in Hun.
    unfold QString in Hun. congruence.
  - destruct (h !! k) as [x|] eqn:Hk.
    + symmetry. apply map_lookup_filter_Some. split; [done|]. unfold unclaimed. cbn [fst].
      destruct (sourceLocs !! k) as [o|] eqn:Hs; [|done]. destruct Hn. split; [|by eauto].
      apply list_elem_of_fmap. exists (k, x). split; [done|]. by apply elem_of_map_to_list.
    + symmetry. apply map_lookup_filter_None. by left.
Qed.

Lemma map_to_list_filter_perm (P : QString * QUrl → Prop) `{!∀ x, Decision (P x)}
    (m : gmap string QUrl) :
  map_to_list (filter P m) ≡ₚ filter P (map_to_list m).
Proof.
  apply NoDup_Permutation.
  - apply NoDup_map_to_list.
  - apply NoDup_filter, NoDup_map_to_list.
  - intros [k x]. rewrite elem_of_map_to_list, map_lookup_filter_Some, list_elem_of_filter,
      elem_of_map_to_list. tauto.
Qed.

(** One run of the slot in state [Valid], in closed form. *)
Lemma reconcile_closed_form (r : RegistryObj) :
  exec (stateChanged Valid) r
  = mkRegistry Valid (sourceLocations r)
      (filter (unclaimed (sourceLocations r)) (hostedSources r))
      (sent r ++ (announce <$> filter (unclaimed (sourceLocations r)) (map_to_list (hostedSources r))))
      (log r ++ omap (collision (sourceLocations r)) (map_to_list (hostedSources r))).
Proof.
  set (r1 := mkRegistry Valid (sourceLocations r) (hostedSources r) (sent r) (log r)).
  assert (Hr' : exec (stateChanged Valid) r = exec pushToRegistryIfNeeded r1) by done.
  rewrite Hr', (pushToRegistryIfNeeded_valid r1 eq_refl). subst r1.
  cbn [state sourceLocations hostedSources sent log]. by rewrite foldl_dropClaimed_filter.
Qed.

(** After reconciliation the local table and the remote table share no
    name; the local table has only lost entries; and every call sent is an
    [addSource] call for an entry that is still hosted. *)
Theorem reconcile_invariant (r : RegistryObj) :
  let r' := exec (stateChanged Valid) r in
  (∀ name, is_Some (hostedSources r' !! name) → sourceLocations r' !! name = None) ∧
  hostedSources r' ⊆ hostedSources r ∧
  ∃ new, sent r' = sent r ++ new ∧
    ∀ p, p ∈ new → method p = M_addSource ∧ hostedSources r' !! (arg p).1 = Some (arg p).2.
Proof.
  cbv zeta. rewrite reconcile_closed_form. cbn [state sourceLocations hostedSources sent log].
  split; [|split].
  - intros name [u Hu]. by apply map_lookup_filter_Some in Hu as [_ Hu].
  - apply map_filter_subseteq.
  - eexists. split; [done|].
    intros p ([k u] & -> & [Hu Hin]%list_elem_of_filter)%list_elem_of_fmap.
    split; [done|]. simpl. apply map_lookup_filter_Some. split; [|done].
    by apply elem_of_map_to_list.
Qed.

(** A second reconciliation against the same remote table erases nothing,
    warns about nothing, and sends the same calls again. *)
Theorem reconcile_twice (r : RegistryObj) :
  let r1 := exec (stateChanged Valid) r in
  let r2 := exec (stateChanged Valid) r1 in
  hostedSources r2 = hostedSources r1 ∧ log r2 = log r1 ∧
  ∃ new1 new2, sent r1 = sent r ++ new1 ∧ sent r2 = sent r1 ++ new2 ∧ new2 ≡ₚ new1.
Proof.
  cbv zeta. rewrite (reconcile_closed_form (exec _ r)). rewrite !reconcile_closed_form.
  cbn [state sourceLocations hostedSources sent log].
  set (sl := sourceLocations r). set (h := hostedSources r).
  assert (Hall : ∀ k x, filter (unclaimed sl) h !! k = Some x → unclaimed sl (k, x)).
  { intros k x Hx. by apply map_lookup_filter_Some in Hx as [_ ?]. }
  split; [|split].
  - by apply map_filter_id.
  - rewrite <-(app_nil_r (log r ++ _)) at 2. f_equal.
    apply list_eq. intros i. rewrite lookup_nil.
    apply eq_None_not_Some. intros [l Hl].
    assert (Hin : l ∈ omap (collision sl) (map_to_list (filter (unclaimed sl) h)))
      by (eapply list_elem_of_lookup_2; eauto).
    apply list_elem_of_omap in Hin as ([k x] & Hkx%elem_of_map_to_list & Hc).
    apply Hall in Hkx. unfold unclaimed, collision in *. simpl in *. by rewrite Hkx in Hc.
  - eexists _, _. split; [done|]. split; [done|].
    apply fmap_Permutation. rewrite map_to_list_filter_perm.
    rewrite list_filter_filter. apply reflexive_eq. apply list_filter_iff. tauto.
Qed.

(** *** Outside [Valid] *)



(** A source added while the replica is not [Valid] is announced by the
    first change to [Valid], once, if the remote table does not list its
    name by then. *)
Theorem offline_source_announced (entry : QRemoteObjectSourceLocation) (r : RegistryObj) :
  state r ≠ Valid →
  hostedSources r !! entry.1 = None →
  sourceLocations r !! entry.1 = None →
  let r' := exec (stateChanged Valid) (exec (addSource entry) r) in
  hostedSources r' !! entry.1 = Some entry.2 ∧
  ∃ new, sent r' = sent r ++ new ∧
         filter (λ p, (arg p).1 = entry.1) new = [InvokeMetaMethod M_addSource entry].
Proof.
  intros Hv Hh Hs. cbv zeta.
  assert (Hadd : exec (addSource entry) r
                 = mkRegistry (state r) (sourceLocations r)
                     (<[entry.1 := entry.2]> (hostedSources r)) (sent r) (log r)).
  { run. rewrite bool_decide_eq_false_2 by (rewrite Hh; by intros [? ?]). simpl.
    by rewrite (bool_decide_eq_false_2 _ Hv). }
  rewrite Hadd, reconcile_closed_form. cbn [state sourceLocations hostedSources sent log].
  assert (Hin : (entry.1, entry.2) ∈ map_to_list (<[entry.1 := entry.2]> (hostedSources r))).
  { apply elem_of_map_to_list. apply lookup_insert_eq. }
  split.
  - apply map_lookup_filter_Some. split; [apply lookup_insert_eq|done].
  - eexists. split; [done|]. rewrite filter_announce.
    rewrite (filter_key_NoDup _ entry.1 entry.2).
    + by destruct entry.
    + apply NoDup_fst_filter, NoDup_fst_map_to_list.
    + apply list_elem_of_filter. by split.
Qed.

Lemma offline_source_announced_witness :
  let r := mkRegistry Connecting ∅ ∅ [] [] in
  let r' := exec (stateChanged Valid) (exec (addSource ("alpha", url1)) r) in
  hostedSources r' !! "alpha" = Some url1 ∧
  ∃ new, sent r' = sent r ++ new ∧
         filter (λ p, (arg p).1 = "alpha") new = [InvokeMetaMethod M_addSource ("alpha", url1)].
Proof.
  exact (offline_source_announced ("alpha", url1) (mkRegistry Connecting ∅ ∅ [] [])
           ltac:(discriminate) eq_refl eq_refl).
Defined.

(** *** [addSource] followed by [removeSource] *)

Lemma exec_removeSource (entry : QRemoteObjectSourceLocation) (r : RegistryObj) :
  exec (removeSource entry) r
  = if bool_decide (is_Some (hostedSources r !! entry.1))
    then mkRegistry (state r) (sourceLocations r) (delete entry.1 (hostedSources r))
           (sent r ++ if bool_decide (state r = Valid)
                      then [InvokeMetaMethod M_removeSource entry] else [])
           (log r ++ if bool_decide (state r = Valid) then [DebugRemoved entry] else [])
    else r.
Proof.
  run. destruct (bool_decide (is_Some (hostedSources r !! entry.1))); simpl; [|done].
  destruct (bool_decide (state r = Valid)); simpl; [done|]. by rewrite !app_nil_r.
Qed.

Lemma exec_addSource_fresh (entry : QRemoteObjectSourceLocation) (r : RegistryObj) :
  hostedSources r !! entry.1 = None →
  exec (addSource entry) r
  = mkRegistry (state r) (sourceLocations r) (<[entry.1 := entry.2]> (hostedSources r))
      (sent r ++ if bool_decide (state r = Valid)
                 then (if sourceLocations r !! entry.1 is Some _ then []
                       else [InvokeMetaMethod M_addSource entry])
                 else [])
      (log r ++ if bool_decide (state r = Valid)
                then [if sourceLocations r !! entry.1 is Some other
                      then WarnRemoteClaimed entry.1 other else DebugAdded entry]
                else []).
Proof.
  run. destruct (hostedSources r !! entry.1) as [u|] eqn:Hh; [done|]. intros _.
  rewrite bool_decide_eq_false_2 by (by intros [? ?]). simpl.
  destruct (bool_decide (state r = Valid)); simpl; [|by rewrite !app_nil_r].
  destruct (sourceLocations r !! entry.1); simpl; by rewrite ?app_nil_r.
Qed.

(** Adding an entry the node did not host and removing it again restores
    the local table.  In state [Valid] the remove call is sent in any case,
    also when the add call was withheld because the remote table already
    listed the name. *)
Theorem addSource_then_removeSource (entry : QRemoteObjectSourceLocation) (r : RegistryObj) :
  hostedSources r !! entry.1 = None →
  let r' := exec (removeSource entry) (exec (addSource entry) r) in
  hostedSources r' = hostedSources r ∧
  sent r' = sent r ++
    (if bool_decide (state r = Valid)
     then (if sourceLocations r !! entry.1 is Some _ then []
           else [InvokeMetaMethod M_addSource entry])
          ++ [InvokeMetaMethod M_removeSource entry]
     else []).
Proof.
  intros Hh. cbv zeta. rewrite exec_removeSource, (exec_addSource_fresh entry r Hh).
  cbn [state sourceLocations hostedSources sent log].
  rewrite bool_decide_eq_true_2 by (rewrite lookup_insert_eq; eauto).
  cbn [state sourceLocations hostedSources sent log]. split.
  - rewrite delete_insert_eq. by apply delete_id.
  - rewrite <-app_assoc. f_equal. destruct (bool_decide (state r = Valid)); [done|].
    by rewrite app_nil_r.
Qed.

Lemma addSource_then_removeSource_witness :
  let r' := exec (removeSource ("alpha", url2)) (exec (addSource ("alpha", url2)) sameEndpointListed) in
  hostedSources r' = hostedSources sameEndpointListed ∧
  sent r' = sent sameEndpointListed ++
    (if bool_decide (state sameEndpointListed = Valid)
     then (if sourceLocations sameEndpointListed !! ("alpha", url2).1 is Some _ then []
           else [InvokeMetaMethod M_addSource ("alpha", url2)])
          ++ [InvokeMetaMethod M_removeSource ("alpha", url2)]
     else []).
Proof.
  exact (addSource_then_removeSource ("alpha", url2) sameEndpointListed eq_refl).
Defined.

(** [removeSource] is idempotent: a second call with the same entry finds
    the name gone and does nothing. *)
Theorem removeSource_idempotent (entry : QRemoteObjectSourceLocation) (r : RegistryObj) :
  exec (removeSource entry) (exec (removeSource entry) r) = exec (removeSource entry) r.
Proof.
  rewrite (exec_removeSource entry (exec _ r)). rewrite exec_removeSource.
  destruct (bool_decide (is_Some (hostedSources r !! entry.1))) eqn:Hb.
  - cbn [state sourceLocations hostedSources sent log].
    by rewrite bool_decide_eq_false_2 by (rewrite lookup_delete_eq; by intros [? ?]).
  - by rewrite Hb.
Qed.

End RegistryMore.

(* ================================================================== *)
(** * The class signature: the digest, and how names and types enter it *)

Module SignatureMore.
Import Repc SignatureFacts.

Lemma toLatin1_app (s t : string) : toLatin1 (s +:+ t) = toLatin1 s ++ toLatin1 t.
Proof.
  unfold toLatin1, list_byte_of_string. induction s as [|c s IH]; simpl; [done|].
  by rewrite IH.
Qed.

(** *** The digest *)

Lemma be_bytes_length (n : nat) (z : Z) : length (Sha1.be_bytes n z) = n.
Proof. induction n as [|n IH]; simpl; congruence. Qed.

Lemma sha1_length (msg : QByteArray) : length (Sha1.sha1 msg) = 20%nat.
Proof.
  unfold Sha1.sha1. cbv zeta. rewrite length_map. cbn [flat_map].
  by rewrite !length_app, !be_bytes_length.
Qed.

Lemma toHex_length (b : QByteArray) : length (toHex b) = (2 * length b)%nat.
Proof. unfold toHex. induction b as [|c b IH]; simpl; [done|]. rewrite IH. lia. Qed.

Definition isHexDigit (c : byte) : bool :=
  existsb (Byte.eqb c) (toLatin1 "0123456789abcdef").

Lemma hexDigit_isHex (z : Z) : 0 ≤ z < 16 → isHexDigit (hexDigit z) = true.
Proof.
  intros Hz.
  assert (H : z = 0 ∨ z = 1 ∨ z = 2 ∨ z = 3 ∨ z = 4 ∨ z = 5 ∨ z = 6 ∨ z = 7 ∨ z = 8 ∨
              z = 9 ∨ z = 10 ∨ z = 11 ∨ z = 12 ∨ z = 13 ∨ z = 14 ∨ z = 15) by lia.
  repeat (destruct H as [->|H]; [vm_compute; reflexivity|]). subst. vm_compute; reflexivity.
Qed.

Lemma byteZ_range (c : byte) : 0 ≤ byteZ c < 256.
Proof. unfold byteZ. pose proof (Byte.to_N_bounded c). lia. Qed.

Lemma toHex_isHex (b : QByteArray) : forallb isHexDigit (toHex b) = true.
Proof.
  unfold toHex. induction b as [|c b IH]; [done|]. cbn [flat_map app forallb].
  pose proof (byteZ_range c) as Hc. rewrite IH, !hexDigit_isHex; [done| |].
  - apply Z.mod_pos_bound. lia.
  - split; [apply Z.div_pos; lia|apply Z.div_lt_upper_bound; lia].
Qed.

(** The signature of a class is always 40 lower-case hexadecimal digits
    (the SHA-1 digest, two digits per byte), whatever the class and the
    table are. *)
Theorem classSignature_forty_hex_digits (platform : Platform) (g : QHash) (ac : ASTClass.t) :
  length (classSignature platform g ac) = 40%nat ∧
  forallb isHexDigit (classSignature platform g ac) = true.
Proof.
  unfold classSignature. split; [|apply toHex_isHex].
  by rewrite toHex_length, sha1_length.
Qed.

(** *** Names are hashed without separators *)

(** The bytes hashed are the plain concatenation of the names and type
    data: text moved from the end of the class name to the front of the
    name of the first property gives the same signature. *)
Theorem classSignature_name_boundary (platform : Platform) (g : QHash) (n s : string)
    (ptype pname : string) (pmod : Modifier) (pptr : bool) (ps : list ASTProperty.t)
    (sigs slots : list ASTFunction.t) (es : list ASTEnum.t) :
  classSignature platform g
    (ASTClass.mk (n +:+ s) (ASTProperty.mk ptype pname pmod pptr :: ps) sigs slots es)
  = classSignature platform g
      (ASTClass.mk n (ASTProperty.mk ptype (s +:+ pname) pmod pptr :: ps) sigs slots es).
Proof.
  unfold classSignature. do 2 f_equal. unfold checksumData, localTypesOf, propertyData.
  cbn [flat_map ASTClass.name ASTClass.properties ASTClass.signalsList ASTClass.slotsList
       ASTClass.enums ASTProperty.name ASTProperty.type ASTProperty.modifier].
  by rewrite !toLatin1_app, <-!app_assoc.
Qed.

(** *** Namespace qualifiers *)

Fixpoint noColon (s : string) : bool :=
  match s with
  | EmptyString => true
  | String c s' => negb (Ascii.eqb ":" c) && noColon s'
  end.

Lemma lastIndexOf_from_noColon (t : string) (i acc : Z) :
  noColon t = true → lastIndexOf_from i t "::" acc = acc.
Proof.
  revert i. induction t as [|c t IH]; intros i H; [done|].
  cbn [noColon] in H. apply andb_true_iff in H as [Hc Ht]. apply negb_true_iff in Hc.
  cbn [lastIndexOf_from isPrefix]. rewrite Hc. cbn [andb]. by apply IH.
Qed.

Lemma lastIndexOf_from_qualified (q t : string) (i acc : Z) :
  noColon t = true →
  lastIndexOf_from i (q +:+ "::" +:+ t) "::" acc = i + Z.of_nat (String.length q).
Proof.
  intros Ht. revert i acc. induction q as [|c q IH]; intros i acc.
  - change (EmptyString +:+ "::" +:+ t) with (String ":" (String ":" t)).
    cbn [lastIndexOf_from]. 
    assert (H1 : isPrefix "::" (String ":" (String ":" t)) = true) by reflexivity.
    assert (H2 : isPrefix "::" (String ":" t) = false).
    { destruct t as [|b t]; [done|]. cbn [noColon] in Ht. apply andb_true_iff in Ht as [Hb _].
      apply negb_true_iff in Hb. cbn [isPrefix]. by rewrite Hb. }
    rewrite H1, H2. rewrite lastIndexOf_from_noColon by done. simpl. lia.
  - change (String c q +:+ "::" +:+ t) with (String c (q +:+ "::" +:+ t)).
    cbn [lastIndexOf_from]. rewrite IH. simpl String.length. lia.
Qed.

Lemma dropS_qualified (q t : string) :
  dropS (String.length q + 2) (q +:+ "::" +:+ t) = t.
Proof. induction q as [|c q IH]; [done|]. simpl. apply IH. Qed.

(** [typeData] drops a namespace qualifier: for a type [q::t] that is not in
    the table, where [t] holds no colon, the result is that of [t] alone --
    the entry of [t] in the table, or the text [t].  A type that begins
    with [::] is kept as it is written ([pos > 0] fails). *)
Theorem typeData_strips_qualifier (q t : string) (specialTypes : QHash) :
  noColon t = true →
  find specialTypes (q +:+ "::" +:+ t) = None →
  typeData (q +:+ "::" +:+ t) specialTypes
  = if decide (q = EmptyString) then toLatin1 ("::" +:+ t)
    else match find specialTypes t with
         | Some v => v
         | None => toLatin1 t
         end.
Proof.
  intros Ht Hfind. rewrite typeData_unfold, Hfind. cbv zeta.
  unfold lastIndexOf. rewrite lastIndexOf_from_qualified by done.
  destruct (decide (q = EmptyString)) as [->|Hq].
  - done.
  - assert (0 < Z.of_nat (String.length q)) by (destruct q; [done|simpl; lia]).
    destruct (Z.ltb_spec 0 (0 + Z.of_nat (String.length q))); [|lia].
    unfold mid. replace (Z.to_nat (0 + Z.of_nat (String.length q) + 2))
      with (String.length q + 2)%nat by lia.
    rewrite dropS_qualified, typeData_unfold.
    destruct (find specialTypes t); [done|]. cbv zeta.
    unfold lastIndexOf. by rewrite lastIndexOf_from_noColon.
Qed.

Lemma typeData_strips_qualifier_witness :
  typeData ("ns" +:+ "::" +:+ "Point") tableA
  = if decide ("ns"%string = EmptyString) then toLatin1 ("::" +:+ "Point")
    else match find tableA "Point" with
         | Some v => v
         | None => toLatin1 "Point"
         end.
Proof. exact (typeData_strips_qualifier "ns" "Point" tableA eq_refl eq_refl). Defined.

(** *** The enums of the class *)

(** The enum declared last under the name [k]. *)
Definition lastNamed (k : string) (es : list ASTEnum.t) : option ASTEnum.t :=
  List.find (λ e, String.eqb (ASTEnum.name e) k) (rev es).

Definition addEnums (g : QHash) (es : list ASTEnum.t) : QHash :=
  fold_left (λ localTypes e, assign localTypes (ASTEnum.name e) (enumSignature e)) es g.

Lemma find_addEnums (es : list ASTEnum.t) (g : QHash) (k : string) :
  find (addEnums g es) k
  = match lastNamed k es with
    | Some e => Some (enumSignature e)
    | None => find g k
    end.
Proof.
  unfold addEnums, lastNamed. induction es as [|e es IH] using rev_ind; [done|].
  rewrite fold_left_app, rev_unit. cbn [fold_left List.find].
  rewrite find_assign, IH. by destruct (String.eqb (ASTEnum.name e) k).
Qed.

(** A property typed by an enum of its class is hashed with the signature of
    that enum -- its name, then the name and the value of every enumerator
    -- whatever the global table holds under the name; of two enums of one
    name the one declared last counts. *)
Theorem classEnum_shadows_global (platform : Platform) (g : QHash) (ac : ASTClass.t)
    (p : ASTProperty.t) (e : ASTEnum.t) :
  lastNamed (ASTProperty.type p) (ASTClass.enums ac) = Some e →
  propertyData platform (localTypesOf g ac) p
  = toLatin1 (ASTProperty.name p) ++ enumSignature e ++
    modifierRep platform (ASTProperty.modifier p).
Proof.
  intros He. unfold propertyData. do 2 f_equal.
  rewrite typeData_unfold. change (localTypesOf g ac) with (addEnums g (ASTClass.enums ac)).
  by rewrite find_addEnums, He.
Qed.

Lemma classEnum_shadows_global_witness :
  propertyData littleEndianHost (localTypesOf [("Unit", podPoint)] sensor)
    (ASTProperty.mk "Unit" "unit" Constant false)
  = toLatin1 (ASTProperty.name (ASTProperty.mk "Unit" "unit" Constant false)) ++
    enumSignature (ASTEnum.mk "Unit" [ASTEnumParam.mk "Celsius" 0; ASTEnumParam.mk "Kelvin" 1]) ++
    modifierRep littleEndianHost (ASTProperty.modifier (ASTProperty.mk "Unit" "unit" Constant false)).
Proof.
  exact (classEnum_shadows_global littleEndianHost [("Unit", podPoint)] sensor
           (ASTProperty.mk "Unit" "unit" Constant false)
           (ASTEnum.mk "Unit" [ASTEnumParam.mk "Celsius" 0; ASTEnumParam.mk "Kelvin" 1])
           eq_refl).
Defined.

End SignatureMore.

(* ================================================================== *)
(** * [generate]: the table of enums and PODs, and the signatures written *)

Module GenerateFacts.
Import Repc Generate SignatureFacts SignatureMore.

Lemma exec_seq {S A B} (m : St S A) (k : St S B) (s : S) :
  exec (m ;; k) s = exec k (exec m s).
Proof. unfold exec, mbind, St_bind. by destruct (m s). Qed.

Lemma exec_forEach_nil {S A} (body : A → St S unit) (s : S) : exec (forEach body []) s = s.
Proof. done. Qed.

(** *** [formatDataMembers] *)






Section Generator.
Variable platform : Platform.

Local Abbreviation generateDeclarationsForEnums := Generate.generateDeclarationsForEnums.
Local Abbreviation generateClass := (Generate.generateClass platform).
Local Abbreviation generateSourceAPI := (Generate.generateSourceAPI platform).
Local Abbreviation generateOne := (Generate.generateOne platform).
Local Abbreviation generate := (Generate.generate platform).
Local Abbreviation writeSignature := (Generate.writeSignature platform).

(** *** The table *)

Lemma sameTable_refl (g : QHash) : sameTable g g.
Proof. done. Qed.

Lemma sameTable_trans (g1 g2 g3 : QHash) : sameTable g1 g2 → sameTable g2 g3 → sameTable g1 g3.
Proof. intros H1 H2 k. by rewrite H1. Qed.

Lemma sameTable_addEnums (g1 g2 : QHash) (es : list ASTEnum.t) :
  sameTable g1 g2 → sameTable (addEnums g1 es) (addEnums g2 es).
Proof. intros H k. by rewrite !find_addEnums, H. Qed.

(** Declaring the same enums once more leaves every entry as it is. *)
Lemma addEnums_again (g : QHash) (es : list ASTEnum.t) :
  sameTable (addEnums (addEnums g es) es) (addEnums g es).
Proof. intros k. rewrite !find_addEnums. by destruct (lastNamed k es). Qed.

Lemma addEnums_app (g : QHash) (es1 es2 : list ASTEnum.t) :
  addEnums g (es1 ++ es2) = addEnums (addEnums g es1) es2.
Proof. unfold addEnums. by rewrite fold_left_app. Qed.

Lemma exec_declarations (es : list ASTEnum.t) (gen : Generator) :
  exec (generateDeclarationsForEnums es) gen
  = mkGenerator (addEnums (m_globalEnumsPODs gen) es) (signatures gen).
Proof.
  unfold Generate.generateDeclarationsForEnums. revert gen.
  induction es as [|e es IH]; intros gen; [by destruct gen|].
  rewrite exec_forEach_cons, IH. done.
Qed.

Lemma exec_declarations_if (es : list ASTEnum.t) (gen : Generator) :
  exec (if decide (es ≠ []) then generateDeclarationsForEnums es else mret tt) gen
  = mkGenerator (addEnums (m_globalEnumsPODs gen) es) (signatures gen).
Proof.
  destruct (decide (es ≠ [])) as [_|H]; [apply exec_declarations|].
  apply dec_stable in H. subst es. by destruct gen.
Qed.

Lemma exec_writeSignature (p : Place) (ac : ASTClass.t) (gen : Generator) :
  exec (writeSignature p ac) gen
  = mkGenerator (m_globalEnumsPODs gen)
      (signatures gen ++
       [mkWritten (ASTClass.name ac) p (classSignature platform (m_globalEnumsPODs gen) ac)]).
Proof. done. Qed.

(** The PODs, generated in turn: each sees the PODs before it. *)
Definition addPods (g : QHash) (ps : list POD.t) : QHash :=
  fold_left (λ t pod, assign t (POD.name pod) (podData t pod)) ps g.

Lemma exec_enums (es : list ASTEnum.t) (gen : Generator) :
  exec (forEach Generate.generateENUM es) gen
  = mkGenerator (addEnums (m_globalEnumsPODs gen) es) (signatures gen).
Proof.
  revert gen. induction es as [|e es IH]; intros gen; [by destruct gen|].
  rewrite exec_forEach_cons, IH. done.
Qed.

Lemma exec_pods (ps : list POD.t) (gen : Generator) :
  exec (forEach Generate.generatePOD ps) gen
  = mkGenerator (addPods (m_globalEnumsPODs gen) ps) (signatures gen).
Proof.
  revert gen. induction ps as [|p ps IH]; intros gen; [by destruct gen|].
  rewrite exec_forEach_cons, IH. done.
Qed.

Lemma podData_sameTable (g1 g2 : QHash) (pod : POD.t) :
  sameTable g1 g2 → podData g1 pod = podData g2 pod.
Proof.
  intros H. unfold podData. generalize (toLatin1 (POD.name pod)) as acc.
  induction (POD.attributes pod) as [|a l IH]; intros acc; [done|].
  cbn [fold_left]. by rewrite (typeData_sameTable g1 g2), IH.
Qed.

Lemma sameTable_addPods (g1 g2 : QHash) (ps : list POD.t) :
  sameTable g1 g2 → sameTable (addPods g1 ps) (addPods g2 ps).
Proof.
  unfold addPods. revert g1 g2. induction ps as [|p ps IH]; intros g1 g2 H; [done|].
  cbn [fold_left]. apply IH. rewrite (podData_sameTable g1 g2) by done.
  by apply sameTable_assign.
Qed.

(** *** The signature of one class *)

(** The signature reads the global table through [localTypes] only. *)
Lemma classSignature_localTypes (g1 g2 : QHash) (ac : ASTClass.t) :
  sameTable (localTypesOf g1 ac) (localTypesOf g2 ac) →
  classSignature platform g1 ac = classSignature platform g2 ac.
Proof.
  intros Hl. unfold classSignature, checksumData. cbv zeta.
  rewrite !(functionsData_sameTable platform _ _ _ Hl). do 4 f_equal.
  apply flat_map_same. intros p. unfold propertyData.
  by rewrite (typeData_sameTable _ _ _ Hl).
Qed.

(** Once the enums of the class are declared, its signature is as before. *)
Lemma classSignature_declared (g t : QHash) (ac : ASTClass.t) :
  sameTable t g ∨ sameTable t (addEnums g (ASTClass.enums ac)) →
  classSignature platform t ac = classSignature platform g ac.
Proof.
  intros H. apply classSignature_localTypes.
  change (localTypesOf ?x ac) with (addEnums x (ASTClass.enums ac)).
  destruct H as [H|H]; [by apply sameTable_addEnums|].
  eapply sameTable_trans; [by apply sameTable_addEnums|]. apply addEnums_again.
Qed.

(** The places [generate] writes the signature of a class to, in order. *)
Definition replicaPlaces (hasPersisted : bool) : list Place :=
  ClassInfo REPLICA :: (if hasPersisted then [RetrieveProperties; PersistProperties] else []).

Definition places (mode : Mode) (hasPersisted : bool) : list Place :=
  match mode with
  | REPLICA => replicaPlaces hasPersisted
  | SOURCE => [ClassInfo SOURCE; ObjectSignature]
  | SIMPLE_SOURCE => []
  | MERGED => replicaPlaces hasPersisted ++ [ClassInfo SOURCE; ObjectSignature]
  end.

Definition writtenAt (g : QHash) (ac : ASTClass.t) (ps : list Place) : list Written :=
  (λ p, mkWritten (ASTClass.name ac) p (classSignature platform g ac)) <$> ps.

(** A generator whose table holds, for the class at hand, what [g] holds
    before or after the enums of the class are declared. *)
Definition tableAt (g : QHash) (ac : ASTClass.t) (gen : Generator) : Prop :=
  sameTable (m_globalEnumsPODs gen) g ∨
  sameTable (m_globalEnumsPODs gen) (addEnums g (ASTClass.enums ac)).

Definition declared (g : QHash) (ac : ASTClass.t) (gen : Generator) : Prop :=
  sameTable (m_globalEnumsPODs gen) (addEnums g (ASTClass.enums ac)).

Lemma declared_again (g : QHash) (ac : ASTClass.t) (gen : Generator) (sigs : list Written) :
  tableAt g ac gen →
  declared g ac (mkGenerator (addEnums (m_globalEnumsPODs gen) (ASTClass.enums ac)) sigs).
Proof.
  unfold tableAt, declared. cbn [m_globalEnumsPODs]. intros [H|H].
  - by apply sameTable_addEnums.
  - eapply sameTable_trans; [by apply sameTable_addEnums|]. apply addEnums_again.
Qed.

Lemma exec_generateClass_replica (g : QHash) (ac : ASTClass.t) (hp : bool) (gen : Generator) :
  tableAt g ac gen →
  ∃ gen', exec (generateClass REPLICA ac hp) gen = gen' ∧
          declared g ac gen' ∧
          signatures gen' = signatures gen ++ writtenAt g ac (replicaPlaces hp).
Proof.
  intros H. eexists. split; [reflexivity|].
  unfold Generate.generateClass. rewrite !exec_seq.
  rewrite (decide_True (P := REPLICA ≠ SIMPLE_SOURCE)) by done.
  rewrite (decide_True (P := REPLICA = REPLICA)) by done.
  rewrite (bool_decide_eq_true_2 (REPLICA = REPLICA)) by done. cbn [andb].
  rewrite exec_seq, exec_writeSignature, exec_declarations_if. cbn [m_globalEnumsPODs signatures].
  pose proof (classSignature_declared g _ ac H) as E0.
  set (gen1 := mkGenerator (addEnums (m_globalEnumsPODs gen) (ASTClass.enums ac)) _).
  assert (H1 : declared g ac gen1) by (by apply declared_again).
  pose proof (classSignature_declared g _ ac (or_intror H1)) as E1.
  destruct hp.
  - rewrite !exec_writeSignature. cbn [m_globalEnumsPODs signatures]. split; [done|].
    subst gen1. cbn [m_globalEnumsPODs signatures] in *. rewrite E0, E1.
    unfold writtenAt, replicaPlaces. rewrite <-!app_assoc. done.
  - split; [done|]. subst gen1. cbn [signatures]. rewrite E0. done.
Qed.

Lemma exec_generateClass_source (g : QHash) (ac : ASTClass.t) (hp : bool) (gen : Generator) :
  tableAt g ac gen →
  ∃ gen', exec (generateClass SOURCE ac hp) gen = gen' ∧
          declared g ac gen' ∧
          signatures gen' = signatures gen ++ writtenAt g ac [ClassInfo SOURCE].
Proof.
  intros H. eexists. split; [reflexivity|].
  unfold Generate.generateClass. rewrite !exec_seq.
  rewrite (decide_True (P := SOURCE ≠ SIMPLE_SOURCE)) by done.
  rewrite (decide_False (P := SOURCE = REPLICA)) by done.
  rewrite (bool_decide_eq_false_2 (SOURCE = REPLICA)) by done. cbn [andb].
  rewrite exec_seq, exec_writeSignature, exec_declarations_if. cbn [m_globalEnumsPODs signatures].
  pose proof (classSignature_declared g _ ac H) as E0.
  split; [by apply declared_again|]. cbn [signatures]. by rewrite E0.
Qed.

Lemma exec_generateClass_simple (ac : ASTClass.t) (hp : bool) (gen : Generator) :
  exec (generateClass SIMPLE_SOURCE ac hp) gen = gen.
Proof.
  unfold Generate.generateClass. rewrite !exec_seq.
  rewrite (decide_False (P := SIMPLE_SOURCE ≠ SIMPLE_SOURCE)) by (intros H; by apply H).
  rewrite (decide_False (P := SIMPLE_SOURCE = REPLICA)) by done.
  rewrite (bool_decide_eq_false_2 (SIMPLE_SOURCE = REPLICA)) by done.
  by destruct gen.
Qed.

Lemma exec_generateSourceAPI (g : QHash) (ac : ASTClass.t) (gen : Generator) :
  tableAt g ac gen →
  ∃ gen', exec (generateSourceAPI ac) gen = gen' ∧
          declared g ac gen' ∧
          signatures gen' = signatures gen ++ writtenAt g ac [ObjectSignature].
Proof.
  intros H. eexists. split; [reflexivity|].
  unfold Generate.generateSourceAPI. rewrite exec_seq, exec_declarations_if, exec_writeSignature.
  cbn [m_globalEnumsPODs signatures].
  set (gen1 := mkGenerator (addEnums (m_globalEnumsPODs gen) (ASTClass.enums ac)) (signatures gen)).
  assert (H1 : declared g ac gen1) by (by apply declared_again).
  pose proof (classSignature_declared g _ ac (or_intror H1)) as E1.
  split; [done|]. subst gen1. cbn [m_globalEnumsPODs] in E1. by rewrite E1.
Qed.

(** One class, in a mode that writes signatures: every signature written is
    the one computed from the table as it was before the class, and the
    enums of the class are in the table afterwards. *)
Lemma exec_generateOne (mode : Mode) (g : QHash) (ac : ASTClass.t) (hp : bool) (gen : Generator) :
  mode ≠ SIMPLE_SOURCE →
  sameTable (m_globalEnumsPODs gen) g →
  ∃ gen', exec (generateOne mode (ac, hp)) gen = gen' ∧
          declared g ac gen' ∧
          signatures gen' = signatures gen ++ writtenAt g ac (places mode hp).
Proof.
  intros Hmode Hg. assert (H0 : tableAt g ac gen) by (by left).
  unfold Generate.generateOne. destruct mode; [| |done|].
  - rewrite decide_False by done. rewrite exec_seq, decide_False by done.
    destruct (exec_generateClass_replica g ac hp gen H0) as (gen1 & -> & H1 & S1).
    exists gen1. done.
  - rewrite decide_False by done. rewrite exec_seq, decide_True by done.
    destruct (exec_generateClass_source g ac hp gen H0) as (gen1 & -> & H1 & S1).
    rewrite exec_seq, exec_generateClass_simple.
    destruct (exec_generateSourceAPI g ac gen1 (or_intror H1)) as (gen2 & -> & H2 & S2).
    exists gen2. split; [done|]. split; [done|]. rewrite S2, S1.
    unfold writtenAt, places. by rewrite <-app_assoc.
  - rewrite decide_True by done. rewrite !exec_seq.
    destruct (exec_generateClass_replica g ac hp gen H0) as (gen1 & -> & H1 & S1).
    destruct (exec_generateClass_source g ac hp gen1 (or_intror H1)) as (gen2 & -> & H2 & S2).
    rewrite exec_generateClass_simple.
    destruct (exec_generateSourceAPI g ac gen2 (or_intror H2)) as (gen3 & -> & H3 & S3).
    exists gen3. split; [done|]. split; [done|]. rewrite S3, S2, S1.
    unfold writtenAt, places. by rewrite !fmap_app, <-!app_assoc.
Qed.

(** *** The signatures of a file *)

(** The signatures written for the classes [cs], given the table before
    the first of them: each class is signed with the enums of the classes
    before it in the table. *)
Fixpoint expected (mode : Mode) (g : QHash) (cs : list (ASTClass.t * bool)) : list Written :=
  match cs with
  | [] => []
  | (ac, hp) :: cs' =>
      writtenAt g ac (places mode hp) ++ expected mode (addEnums g (ASTClass.enums ac)) cs'
  end.

Definition classEnums (cs : list (ASTClass.t * bool)) : list ASTEnum.t :=
  flat_map (λ c, ASTClass.enums c.1) cs.

Lemma exec_classes (mode : Mode) (cs : list (ASTClass.t * bool)) (g : QHash) (gen : Generator) :
  mode ≠ SIMPLE_SOURCE →
  sameTable (m_globalEnumsPODs gen) g →
  ∃ gen', exec (forEach (generateOne mode) cs) gen = gen' ∧
          sameTable (m_globalEnumsPODs gen') (addEnums g (classEnums cs)) ∧
          signatures gen' = signatures gen ++ expected mode g cs.
Proof.
  intros Hmode. revert g gen. induction cs as [|[ac hp] cs IH]; intros g gen Hg.
  - exists gen. cbn [expected]. by rewrite exec_forEach_nil, app_nil_r.
  - rewrite exec_forEach_cons.
    destruct (exec_generateOne mode g ac hp gen Hmode Hg) as (gen1 & -> & H1 & S1).
    destruct (IH (addEnums g (ASTClass.enums ac)) gen1 H1) as (gen2 & -> & H2 & S2).
    exists gen2. split; [done|]. split.
    + unfold classEnums. cbn [flat_map fst]. by rewrite addEnums_app.
    + rewrite S2, S1. cbn [expected]. by rewrite <-app_assoc.
Qed.

Lemma exec_classes_simple (cs : list (ASTClass.t * bool)) (gen : Generator) :
  exec (forEach (generateOne SIMPLE_SOURCE) cs) gen = gen.
Proof.
  induction cs as [|[ac hp] cs IH]; [done|].
  rewrite exec_forEach_cons. unfold Generate.generateOne at 2.
  rewrite (decide_False (P := SIMPLE_SOURCE = MERGED)) by done.
  rewrite exec_seq. rewrite (decide_False (P := SIMPLE_SOURCE = SOURCE)) by done.
  by rewrite exec_generateClass_simple.
Qed.

Lemma expected_simple (g : QHash) (cs : list (ASTClass.t * bool)) :
  expected SIMPLE_SOURCE g cs = [].
Proof. revert g. induction cs as [|[ac hp] cs IH]; intros g; [done|]. cbn. apply IH. Qed.

(** The table when the first class is reached. *)
Definition declarations (g : QHash) (ast : AST) : QHash :=
  addPods (addEnums g (enums ast)) (pods ast).

Lemma exec_generate (ast : AST) (mode : Mode) (gen : Generator) :
  ∃ gen', exec (generate ast mode) gen = gen' ∧
    signatures gen'
      = signatures gen ++ expected mode (declarations (m_globalEnumsPODs gen) ast) (classes ast) ∧
    sameTable (m_globalEnumsPODs gen')
      (if decide (mode = SIMPLE_SOURCE) then declarations (m_globalEnumsPODs gen) ast
       else addEnums (declarations (m_globalEnumsPODs gen) ast) (classEnums (classes ast))).
Proof.
  unfold Generate.generate. rewrite !exec_seq, exec_enums, exec_pods.
  cbn [m_globalEnumsPODs signatures].
  destruct (decide (mode = SIMPLE_SOURCE)) as [->|Hmode].
  - rewrite exec_classes_simple, expected_simple, app_nil_r. eexists. split; [done|].
    split; [done|]. apply sameTable_refl.
  - edestruct (exec_classes mode (classes ast) (declarations (m_globalEnumsPODs gen) ast))
      as (gen' & -> & Ht & Hs); [done|apply sameTable_refl|].
    exists gen'. cbn [signatures] in Hs. done.
Qed.


(** *** One signature per class, whatever the mode *)

Lemma elem_of_expected (mode : Mode) (g : QHash) (cs : list (ASTClass.t * bool)) (w : Written) :
  w ∈ expected mode g cs →
  ∃ (k : nat) (ac : ASTClass.t) (hp : bool),
    cs !! k = Some (ac, hp) ∧ className w = ASTClass.name ac ∧
    signature w = classSignature platform (addEnums g (classEnums (take k cs))) ac.
Proof.
  revert g. induction cs as [|[ac hp] cs IH]; intros g; cbn [expected].
  - by intros ?%elem_of_nil.
  - intros [Hw|Hw]%elem_of_app.
    + unfold writtenAt in Hw. apply list_elem_of_fmap in Hw as (p & -> & _).
      by exists 0%nat, ac, hp.
    + apply IH in Hw as (k & ac' & hp' & Hk & Hn & Hs).
      exists (S k), ac', hp'. split; [done|]. split; [done|].
      rewrite Hs. unfold classEnums. cbn [take flat_map fst]. by rewrite addEnums_app.
Qed.

(** The replica side and the source side agree: in runs of [generate] on
    one file, from generators whose tables hold the same entries, every
    signature written for a class is the same -- at every place and in
    every mode -- provided no two classes of the file share a name. *)
Theorem signature_same_in_every_mode (ast : AST) (mode1 mode2 : Mode)
    (gen1 gen2 : Generator) (w1 w2 : Written) :
  sameTable (m_globalEnumsPODs gen1) (m_globalEnumsPODs gen2) →
  signatures gen1 = [] → signatures gen2 = [] →
  NoDup ((λ c, ASTClass.name c.1) <$> classes ast) →
  w1 ∈ signatures (exec (generate ast mode1) gen1) →
  w2 ∈ signatures (exec (generate ast mode2) gen2) →
  className w1 = className w2 →
  signature w1 = signature w2.
Proof.
  intros Hg E1 E2 Hnd H1 H2 Hname.
  destruct (exec_generate ast mode1 gen1) as (gen1' & X1 & S1 & _).
  destruct (exec_generate ast mode2 gen2) as (gen2' & X2 & S2 & _).
  rewrite X1, S1, E1 in H1. rewrite X2, S2, E2 in H2. cbn [app] in H1, H2.
  apply elem_of_expected in H1 as (k1 & ac1 & hp1 & Hk1 & Hn1 & ->).
  apply elem_of_expected in H2 as (k2 & ac2 & hp2 & Hk2 & Hn2 & ->).
  assert (k1 = k2) as ->.
  { eapply (NoDup_lookup _ _ _ (className w1) Hnd).
    - by rewrite list_lookup_fmap, Hk1, Hn1.
    - by rewrite list_lookup_fmap, Hk2, Hname, Hn2. }
  rewrite Hk1 in Hk2. injection Hk2 as <- <-.
  unfold classSignature. f_equal. f_equal. apply checksumData_sameTable.
  apply sameTable_addEnums. unfold declarations.
  by apply sameTable_addPods, sameTable_addEnums.
Qed.

(** *** The order of the classes in the file *)





End Generator.

(** *** A file with an enum, a POD and two classes *)

Definition sensorFile : AST :=
  mkAST [ASTEnum.mk "Level" [ASTEnumParam.mk "Low" 0; ASTEnumParam.mk "High" 1]]
        [POD.mk "Point" [PODAttribute.mk "int" "x"; PODAttribute.mk "int" "y"]]
        [(sensor, true); (plotter, false)].

Definition fresh : Generator := mkGenerator [] [].

Example sensorFile_table :
  m_globalEnumsPODs (exec (Generate.generate littleEndianHost sensorFile MERGED) fresh)
  = [("Level", toLatin1 "LevelLow0High1"); ("Point", toLatin1 "Pointxintyint");
     ("Unit", toLatin1 "UnitCelsius0Kelvin1")].
Proof. vm_compute. reflexivity. Qed.

Example sensorFile_signatures :
  (λ w, (className w, place w, str (signature w))) <$>
    signatures (exec (Generate.generate littleEndianHost sensorFile MERGED) fresh)
  = [("Sensor", ClassInfo REPLICA, "edd2bbdb702239d7107c7983beff6ea1627ee056");
     ("Sensor", RetrieveProperties, "edd2bbdb702239d7107c7983beff6ea1627ee056");
     ("Sensor", PersistProperties, "edd2bbdb702239d7107c7983beff6ea1627ee056");
     ("Sensor", ClassInfo SOURCE, "edd2bbdb702239d7107c7983beff6ea1627ee056");
     ("Sensor", ObjectSignature, "edd2bbdb702239d7107c7983beff6ea1627ee056");
     ("Plotter", ClassInfo REPLICA, "781cfbb7e2fc0c4818f8afe5502e4853c7f54b1f");
     ("Plotter", ClassInfo SOURCE, "781cfbb7e2fc0c4818f8afe5502e4853c7f54b1f");
     ("Plotter", ObjectSignature, "781cfbb7e2fc0c4818f8afe5502e4853c7f54b1f")].
Proof. vm_compute. reflexivity. Qed.

Definition sensorInfo : Written :=
  mkWritten "Sensor" (ClassInfo REPLICA)
    (classSignature littleEndianHost (declarations [] sensorFile) sensor).
Definition sensorObjectSignature : Written :=
  mkWritten "Sensor" ObjectSignature
    (classSignature littleEndianHost (declarations [] sensorFile) sensor).

Lemma signature_same_in_every_mode_witness :
  signature sensorInfo = signature sensorObjectSignature.
Proof.
  apply (signature_same_in_every_mode littleEndianHost sensorFile REPLICA SOURCE fresh fresh
           sensorInfo sensorObjectSignature).
  - intros k. reflexivity.
  - reflexivity.
  - reflexivity.
  - apply (bool_decide_unpack _). vm_compute. exact I.
  - vm_compute. repeat constructor.
  - vm_compute. repeat constructor.
  - reflexivity.
Defined.

(** [gauge] uses the enum [Unit] that [sensor] declares. *)
Definition gauge : ASTClass.t :=
  ASTClass.mk "Gauge" [ASTProperty.mk "Unit" "unit" ReadOnly false] [] [] [].



Example gauge_signature :
  (λ w, (className w, str (signature w))) <$>
    signatures (exec (Generate.generate littleEndianHost
                        (mkAST [] [] [(sensor, false); (gauge, false)]) REPLICA) fresh)
  = [("Sensor", "edd2bbdb702239d7107c7983beff6ea1627ee056");
     ("Gauge", "02bb972b3747073f681aeb5ad21e3311a0c25203")] ∧
  (λ w, (className w, str (signature w))) <$>
    signatures (exec (Generate.generate littleEndianHost
                        (mkAST [] [] [(gauge, false); (sensor, false)]) REPLICA) fresh)
  = [("Gauge", "cab09489ef4d2c6a03a42bbd976bf1b152c29e5e");
     ("Sensor", "edd2bbdb702239d7107c7983beff6ea1627ee056")].
Proof. split; vm_compute; reflexivity. Qed.

End GenerateFacts.

(* ================================================================== *)
(** * Enums on the wire: [getEnumType] and the generated stream operators *)

Module EnumStreamFacts.
Import EnumStream.

(** *** Integers in the stream *)

Lemma be_word_from (n : nat) (z acc : Z) :
  fold_left (λ acc b, acc * 256 + b) (Sha1.be_bytes n z) acc
  = acc * 2 ^ (8 * Z.of_nat n) + z mod 2 ^ (8 * Z.of_nat n).
Proof.
  revert acc. induction n as [|n IH]; intros acc.
  - cbn [Sha1.be_bytes fold_left]. change (2 ^ (8 * Z.of_nat 0)) with 1.
    rewrite Z.mod_1_r. lia.
  - cbn [Sha1.be_bytes fold_left]. rewrite IH.
    replace (8 * Z.of_nat (S n)) with (8 * Z.of_nat n + 8) by lia.
    rewrite Z.pow_add_r by lia. change (2 ^ 8) with 256.
    rewrite Z.shiftr_div_pow2 by lia.
    assert (0 < 2 ^ (8 * Z.of_nat n)) by (apply Z.pow_pos_nonneg; lia).
    rewrite (Z.rem_mul_r z (2 ^ (8 * Z.of_nat n)) 256) by lia. ring.
Qed.

Lemma be_word_be_bytes (n : nat) (z : Z) :
  Sha1.be_word (Sha1.be_bytes n z) = z mod 2 ^ (8 * Z.of_nat n).
Proof. unfold Sha1.be_word. rewrite be_word_from. lia. Qed.

Lemma convert_mod (signed : bool) (n : nat) (v : Z) :
  convert signed n (v mod 2 ^ (8 * Z.of_nat n)) = convert signed n v.
Proof. unfold convert. cbv zeta. by rewrite Z.mod_mod by (apply Z.pow_nonzero; lia). Qed.

(** Reading what [ds << val] wrote gives [val] back, as a value of the
    integer type. *)
Lemma readInt_writeInt (signed : bool) (n : nat) (val : Z) (tail : list Z) (d : Device) :
  bytes d = Sha1.be_bytes n val ++ tail →
  readInt signed n d = (convert signed n val, mkDevice tail (warned d)).
Proof.
  intros Hd. unfold readInt, mbind, St_bind, get, modify, mret, St_ret.
  rewrite decide_False by (rewrite Hd, length_app, SignatureMore.be_bytes_length; lia).
  rewrite Hd, drop_app_length', take_app_length' by (by rewrite SignatureMore.be_bytes_length).
  by rewrite be_word_be_bytes, convert_mod.
Qed.

(** *** The type chosen by [getEnumType] *)

(** The number of bytes of the type [getEnumType] names. *)
Definition width (isSigned : bool) (max : Z) : nat :=
  if isSigned then
    if max <? 0x7F then 1 else if max <? 0x7FFF then 2 else 4
  else
    if max <? 0xFF then 1 else if max <? 0xFFFF then 2 else 4.

Lemma intType_getEnumType (isSigned : bool) (max : Z) :
  intType (getEnumType isSigned max) = Some (isSigned, width isSigned max).
Proof.
  unfold getEnumType, width.
  by destruct isSigned, (max <? 0x7F), (max <? 0x7FFF), (max <? 0xFF), (max <? 0xFFFF).
Qed.

Lemma convert_signed_fits (n : nat) (v : Z) :
  (n = 1 ∨ n = 2 ∨ n = 4)%nat →
  - 2 ^ (8 * Z.of_nat n - 1) ≤ v < 2 ^ (8 * Z.of_nat n - 1) →
  convert true n v = v.
Proof.
  unfold convert. cbv zeta. cbn [andb].
  intros [-> | [-> | ->]].
  - change (2 ^ (8 * Z.of_nat 1 - 1)) with 128. change (2 ^ (8 * Z.of_nat 1)) with 256.
    intros Hv. destruct (Z.leb_spec (256 / 2) (v mod 256)) as [Hu|Hu];
      revert Hu; Z.div_mod_to_equations; lia.
  - change (2 ^ (8 * Z.of_nat 2 - 1)) with 32768. change (2 ^ (8 * Z.of_nat 2)) with 65536.
    intros Hv. destruct (Z.leb_spec (65536 / 2) (v mod 65536)) as [Hu|Hu];
      revert Hu; Z.div_mod_to_equations; lia.
  - change (2 ^ (8 * Z.of_nat 4 - 1)) with 2147483648.
    change (2 ^ (8 * Z.of_nat 4)) with 4294967296.
    intros Hv. destruct (Z.leb_spec (4294967296 / 2) (v mod 4294967296)) as [Hu|Hu];
      revert Hu; Z.div_mod_to_equations; lia.
Qed.

Lemma convert_unsigned_fits (n : nat) (v : Z) :
  0 ≤ v < 2 ^ (8 * Z.of_nat n) → convert false n v = v.
Proof. intros Hv. unfold convert. cbv zeta. cbn [andb]. by apply Z.mod_small. Qed.

(** The integer type [getEnumType] names holds every value the enum can
    take: with [max] a bound on the magnitudes of the enumerators (below
    2^31, they are [int]s) and [isSigned] set when one of them is negative,
    the type named is signed exactly when [isSigned] is set, and converting
    a value to it leaves the value as it is. *)
Theorem getEnumType_holds_every_value (isSigned : bool) (max v : Z) :
  - max ≤ v ≤ max → (v < 0 → isSigned = true) → max < 2 ^ 31 →
  ∃ n, intType (getEnumType isSigned max) = Some (isSigned, n) ∧ convert isSigned n v = v.
Proof.
  intros Hv Hneg Hmax. exists (width isSigned max). split; [apply intType_getEnumType|].
  change (2 ^ 31) with 2147483648 in Hmax. unfold width. destruct isSigned.
  - apply convert_signed_fits.
    + destruct (max <? 0x7F), (max <? 0x7FFF); auto.
    + destruct (Z.ltb_spec max 0x7F); [|destruct (Z.ltb_spec max 0x7FFF)].
      * change (2 ^ (8 * Z.of_nat 1 - 1)) with 128. lia.
      * change (2 ^ (8 * Z.of_nat 2 - 1)) with 32768. lia.
      * change (2 ^ (8 * Z.of_nat 4 - 1)) with 2147483648. lia.
  - assert (0 ≤ v) by (destruct (Z.lt_ge_cases v 0) as [Hlt|]; [by apply Hneg in Hlt|done]).
    apply convert_unsigned_fits.
    destruct (Z.ltb_spec max 0xFF); [|destruct (Z.ltb_spec max 0xFFFF)].
    + change (2 ^ (8 * Z.of_nat 1)) with 256. lia.
    + change (2 ^ (8 * Z.of_nat 2)) with 65536. lia.
    + change (2 ^ (8 * Z.of_nat 4)) with 4294967296. lia.
Qed.

Lemma getEnumType_holds_every_value_witness :
  ∃ n, intType (getEnumType true 200) = Some (true, n) ∧ convert true n (-200) = -200.
Proof.
  apply (getEnumType_holds_every_value true 200 (-200)); [lia|reflexivity|lia].
Defined.

Example getEnumType_thresholds :
  map (getEnumType true) [0; 0x7E; 0x7F; 0x7FFE; 0x7FFF]
    = ["qint8"; "qint8"; "qint16"; "qint16"; "qint32"]%string ∧
  map (getEnumType false) [0; 0xFE; 0xFF; 0xFFFE; 0xFFFF]
    = ["quint8"; "quint8"; "quint16"; "quint16"; "quint32"]%string.
Proof. split; reflexivity. Qed.

(** *** [operator<<] and [operator>>] *)






Example colour_on_the_wire :
  (streamOut (getEnumType true 300) (ASTEnumParam.mk "Green" (-2)) ≫= λ out,
     Some (bytes (exec out (mkDevice [] [])))) = Some [255; 254].
Proof. reflexivity. Qed.



(** *** Enums used, not declared, by the file *)

(** An enum the file only uses travels as a [qint32]: every value of the
    range of [int] comes back as it was written, and a reader takes the
    integer on the wire as it is -- no enumerator is looked up and nothing
    is logged, whatever the value. *)
Theorem enumUse_stream_unchecked (v i : Z) (tail : list Z) (d d' : Device) :
  - 2 ^ 31 ≤ v < 2 ^ 31 → bytes d = [] → bytes d' = Sha1.be_bytes 4 i ++ tail →
  streamInUse (exec (streamOutUse v) d) = (v, d) ∧
  streamInUse d' = (convert true 4 i, mkDevice tail (warned d')).
Proof.
  intros Hv Hd Hd'. unfold streamInUse, streamOutUse. split.
  - assert (Hconv : convert true 4 v = v) by (apply convert_signed_fits; [auto|done]).
    unfold exec, writeInt, modify. cbn [snd]. rewrite Hconv, Hd. cbn [app].
    rewrite (readInt_writeInt true 4 v []) by (by rewrite app_nil_r).
    rewrite Hconv. destruct d as [bs ws]. cbn in Hd. by subst bs.
  - by apply readInt_writeInt.
Qed.

Lemma enumUse_stream_unchecked_witness :
  streamInUse (exec (streamOutUse (-5)) (mkDevice [] [])) = (-5, mkDevice [] []) ∧
  streamInUse (mkDevice (Sha1.be_bytes 4 77 ++ [1]) [])
  = (convert true 4 77, mkDevice [1] (warned (mkDevice (Sha1.be_bytes 4 77 ++ [1]) []))).
Proof.
  apply (enumUse_stream_unchecked (-5) 77 [1] (mkDevice [] [])
           (mkDevice (Sha1.be_bytes 4 77 ++ [1]) [])); [lia|reflexivity|reflexivity].
Defined.

End EnumStreamFacts.

(* ================================================================== *)
(** * The capability map: raw property indices and the method table *)

Module SourceApiMore.
Import Repc SourceApi SourceApiText SourceApiFacts.

(** *** [propertyRawIndexFromSignal] *)





Definition twoChanging : ASTClass.t :=
  ASTClass.mk "Pump"
    [ASTProperty.mk "int" "rate" ReadWrite false;
     ASTProperty.mk "int" "serial" Constant false;
     ASTProperty.mk "bool" "running" ReadPush false]
    [] [ASTFunction.mk "Unit" "unit" []; ASTFunction.mk "void" "stop" [ASTDeclaration.mk "int" "delay" 0]]
    [ASTEnum.mk "Unit" [ASTEnumParam.mk "Litre" 0]].


Example twoChanging_raw :
  map (propertyRawIndexFromSignal (generateSourceAPI sensorObject twoChanging)) [-1; 0; 1; 2]
  = [Some (-1); Some 0; Some 2; Some (-1)].
Proof. reflexivity. Qed.

(** *** The method table *)

Lemma rd_app_l {A} (l1 l2 : list A) (i : Z) (x : A) :
  rd l1 i = Some x → rd (l1 ++ l2) i = Some x.
Proof.
  unfold rd. destruct (i <? 0); [done|]. intros H. by apply lookup_app_l_Some.
Qed.

Lemma rd_None_outside {A} (l : list A) (i : Z) : rd l i = None → i < 0 ∨ count l ≤ i.
Proof.
  unfold rd, count. destruct (Z.ltb_spec i 0); [by left|].
  intros Hn%lookup_ge_None. right. lia.
Qed.

(** The methods of the generated class: the indices from 0 on stand for
    the push slots of the [ReadPush] properties, in the order of the
    properties, the indices after them for the slots of the class, in
    order.  [sourceMethodIndex] and [typeName] agree on that layout: at an
    index, the first gives the method [ObjectType] has under the name of
    the slot and the second the return type of the same slot ([void] for a
    push slot); every other index gives -1 and the empty text. *)
Theorem method_table_layout (ot : ObjectType) (qtro_enum_signature : QString → QByteArray)
    (astClass : ASTClass.t) (index : Z) :
  let api := generateSourceAPI ot astClass in
  let pushed := filter (λ p, ASTProperty.modifier p = ReadPush) (ASTClass.properties astClass) in
  methodCount astClass = count pushed + count (ASTClass.slotsList astClass) ∧
  match rd pushed index with
  | Some prop =>
      sourceMethodIndex api index
        = Some (q_index (qtro_method_index ot ("push" +:+ cap (ASTProperty.name prop))
                  [fullyQualifiedTypeName astClass objectTypeName (ASTProperty.type prop)])) ∧
      typeName qtro_enum_signature astClass index = toLatin1 "void"
  | None =>
      match rd (ASTClass.slotsList astClass) (index - count pushed) with
      | Some slot =>
          sourceMethodIndex api index
            = Some (q_index (qtro_method_index ot (ASTFunction.name slot)
                      (map (λ param, ASTDeclaration.type (transformParam astClass objectTypeName param))
                           (ASTFunction.params slot)))) ∧
          typeName qtro_enum_signature astClass index
            = (if isClassEnum astClass (ASTFunction.returnType slot)
               then qtro_enum_signature (ASTFunction.returnType slot)
               else toLatin1 (ASTFunction.returnType slot))
      | None =>
          sourceMethodIndex api index = Some (-1) ∧
          typeName qtro_enum_signature astClass index = []
      end
  end.
Proof.
  cbv zeta. fold (pushProps astClass). split; [unfold methodCount; lia|].
  destruct (generated_accessors ot astClass index) as (_ & _ & _ & Hm & _).
  cbv zeta in Hm. rewrite Hm. clear Hm.
  unfold typeName, typeNameCases, methodEntries, transformEnumParams.
  rewrite !rd_map.
  destruct (rd (pushProps astClass) index) as [prop|] eqn:Hprop.
  - pose proof (rd_Some_inside _ _ _ Hprop) as Hin.
    assert (Hpos : 0 < methodCount astClass).
    { unfold methodCount. pose proof (Zle_0_nat (length (ASTClass.slotsList astClass))).
      unfold count in *. lia. }
    destruct (Z.ltb_spec 0 (methodCount astClass)); [|lia].
    rewrite (rd_app_l _ _ index
               (qtro_method_index ot ("push" +:+ cap (ASTProperty.name prop))
                  [fullyQualifiedTypeName astClass objectTypeName (ASTProperty.type prop)]))
      by (by rewrite rd_map, Hprop).
    rewrite (rd_app_l _ _ index (toLatin1 "void")) by (by rewrite rd_map, Hprop).
    done.
  - apply rd_None_outside in Hprop as [Hneg|Hge].
    + rewrite !rd_outside by (left; unfold count; lia).
      split; [done|]. by destruct (0 <? methodCount astClass).
    + rewrite !rd_app_r by (by rewrite count_map).
      rewrite !count_map, !rd_map.
      destruct (rd (ASTClass.slotsList astClass) (index - count (pushProps astClass)))
        as [slot|] eqn:Hslot; cbn [fmap option_fmap option_map default ASTFunction.name
                                   ASTFunction.params].
      * pose proof (rd_Some_inside _ _ _ Hslot) as Hin.
        assert (Hpos : 0 < methodCount astClass).
        { unfold methodCount. pose proof (Zle_0_nat (length (pushProps astClass))).
          unfold count in *. lia. }
        destruct (Z.ltb_spec 0 (methodCount astClass)); [|lia].
        by rewrite map_map.
      * split; [done|]. by destruct (0 <? methodCount astClass).
Qed.

Example twoChanging_methods :
  map (sourceMethodIndex (generateSourceAPI sensorObject twoChanging)) [-1; 0; 1; 2; 3]
    = [Some (-1); Some (-1); Some (-1); Some (-1); Some (-1)] ∧
  map (λ i, SignatureFacts.str (typeName (λ n, toLatin1 ("enum " +:+ n)) twoChanging i)) [-1; 0; 1; 2; 3]
    = [EmptyString; "void"; "enum Unit"; "void"; EmptyString]%string.
Proof. split; reflexivity. Qed.

End SourceApiMore.

(* ================================================================== *)
(** * [copyStoredProperties]: what each overload copies *)

Module StoredPropertiesMore.
Import StoredProperties StoredPropertiesFacts.

Section Codec.
Context {QVariant QMetaType : Type} (invalid : QVariant).
Context (encodeVariant : QVariant → QVariant)
        (decodeVariant : QVariant → QMetaType → QVariant).

Local Abbreviation QMetaObject := (@QMetaObject QMetaType).
Local Abbreviation World := (@World QVariant).
Local Abbreviation copy_obj := (@copyStoredProperties_obj QVariant QMetaType invalid).
Local Abbreviation copy_out := (@copyStoredProperties_out QVariant QMetaType invalid encodeVariant).
Local Abbreviation copy_in := (@copyStoredProperties_in QVariant QMetaType invalid decodeVariant).

(** The destination after a loop that writes the value [f i mp] to each
    property [i] in turn. *)
Definition copied (f : nat → @QMetaProperty QMetaType → QVariant) (d : @Gadget QVariant)
    (l : list (nat * @QMetaProperty QMetaType)) : @Gadget QVariant :=
  foldl (λ d x, writeOnGadget x.2 x.1 d (f x.1 x.2)) d l.

Lemma copied_cons (f : nat → @QMetaProperty QMetaType → QVariant) (d : @Gadget QVariant)
    (i : nat) (mp : @QMetaProperty QMetaType) (l : list (nat * @QMetaProperty QMetaType)) :
  copied f d ((i, mp) :: l) = copied f (writeOnGadget mp i d (f i mp)) l.
Proof. done. Qed.

Lemma copied_length (f : nat → @QMetaProperty QMetaType → QVariant) (d : @Gadget QVariant)
    (l : list (nat * @QMetaProperty QMetaType)) :
  length (copied f d l) = length d.
Proof.
  revert d. induction l as [|[i mp] l IH]; intros d; [done|].
  rewrite copied_cons, IH.
  unfold writeOnGadget. destruct (isWritable mp); [apply length_insert|done].
Qed.

Lemma copied_lookup (f : nat → @QMetaProperty QMetaType → QVariant) (d : @Gadget QVariant)
    (mo : QMetaObject) (k j : nat) :
  (k + length mo ≤ length d)%nat →
  copied f d (properties_from k mo) !! j
  = if decide (k ≤ j)%nat then
      match mo !! (j - k)%nat with
      | Some mp => if isWritable mp then Some (f j mp) else d !! j
      | None => d !! j
      end
    else d !! j.
Proof.
  revert k d. induction mo as [|mp mo IH]; intros k d Hd.
  - cbn. by destruct (decide (k ≤ j)%nat).
  - rewrite properties_from_cons, copied_cons.
    cbn [length] in Hd.
    assert (Hlen : length (writeOnGadget mp k d (f k mp)) = length d).
    { unfold writeOnGadget. destruct (isWritable mp); [apply length_insert|done]. }
    rewrite IH by lia.
    assert (Hother : j ≠ k → writeOnGadget mp k d (f k mp) !! j = d !! j).
    { intros Hne. unfold writeOnGadget. destruct (isWritable mp); [|done].
      by rewrite list_lookup_insert_ne. }
    destruct (decide (S k ≤ j)%nat) as [Hgt|Hle].
    + rewrite decide_True by lia. replace (j - k)%nat with (S (j - S k)) by lia.
      cbn [lookup list_lookup]. rewrite Hother by lia. done.
    + destruct (decide (k ≤ j)%nat) as [Hkj|Hkj]; [|apply Hother; lia].
      assert (j = k) as -> by lia. rewrite Nat.sub_diag. cbn [lookup list_lookup].
      unfold writeOnGadget. destruct (isWritable mp); [|done].
      apply list_lookup_insert_eq. lia.
Qed.

(** *** Object to object *)

Definition objBody (src : @Gadget QVariant) : nat * @QMetaProperty QMetaType → St World unit :=
  λ '(i, mp),
    access (ReadProperty i) ;;
    s ← get ;
    access (WriteProperty i) ;;
    setDst (writeOnGadget mp i (default [] (dstObject s)) (readOnGadget invalid i src)).

Lemma objBody_step (src d : @Gadget QVariant) (i : nat) (mp : @QMetaProperty QMetaType)
    (w : World) :
  dstObject w = Some d →
  exec (objBody src (i, mp)) w
  = mkWorld (Some (writeOnGadget mp i d (readOnGadget invalid i src)))
      (stream w) (warnings w) (accesses w ++ [ReadProperty i; WriteProperty i]).
Proof.
  intros Hd. unfold objBody, exec, mbind, St_bind, get, access, setDst, modify. simpl.
  by rewrite Hd, <-app_assoc.
Qed.

Lemma copy_obj_loop (src d : @Gadget QVariant) (l : list (nat * @QMetaProperty QMetaType))
    (w : World) :
  dstObject w = Some d →
  exec (forEach (objBody src) l) w
  = mkWorld (Some (copied (λ i _, readOnGadget invalid i src) d l)) (stream w) (warnings w)
      (accesses w ++ flat_map (λ x, [ReadProperty x.1; WriteProperty x.1]) l).
Proof.
  revert d w. induction l as [|[i mp] l IH]; intros d w Hd.
  - destruct w. unfold exec. cbn in *. subst. by rewrite app_nil_r.
  - rewrite exec_forEach_cons, (objBody_step src d i mp w Hd).
    rewrite (IH (writeOnGadget mp i d (readOnGadget invalid i src))) by done.
    cbn [stream warnings accesses flat_map fst]. by rewrite copied_cons, <-app_assoc.
Qed.

Lemma copy_obj_unfold (mo : QMetaObject) (src d : @Gadget QVariant) (w : World) :
  dstObject w = Some d →
  exec (copy_obj mo (Some src)) w = exec (forEach (objBody src) (properties mo)) w.
Proof.
  intros Hd. unfold copyStoredProperties_obj, exec, mbind, St_bind, get. by rewrite Hd.
Qed.

(** [copyStoredProperties(mo, src, dst)] copies exactly the properties that
    have a WRITE accessor: afterwards such a property of [dst] holds the
    value it has in [src], every other property of [dst] is as before; the
    stream is not touched and nothing is logged; the properties are read
    and written one after the other, in the order of their indices. *)
Theorem copyStoredProperties_obj_copies_writable (mo : QMetaObject)
    (src dst : @Gadget QVariant) (w : World) :
  length src = length mo → length dst = length mo →
  dstObject w = Some dst →
  let w' := exec (copy_obj mo (Some src)) w in
  stream w' = stream w ∧ warnings w' = warnings w ∧
  accesses w' = accesses w ++ flat_map (λ x, [ReadProperty x.1; WriteProperty x.1]) (properties mo) ∧
  ∃ dst', dstObject w' = Some dst' ∧ length dst' = length mo ∧
    ∀ j mp, mo !! j = Some mp →
      dst' !! j = if isWritable mp then src !! j else dst !! j.
Proof.
  intros Hs Hd Hdst. cbv zeta.
  assert (E : exec (copy_obj mo (Some src)) w
              = mkWorld (Some (copied (λ i _, readOnGadget invalid i src) dst (properties mo)))
                  (stream w) (warnings w)
                  (accesses w ++
                   flat_map (λ x, [ReadProperty x.1; WriteProperty x.1]) (properties mo))).
  { by rewrite (copy_obj_unfold mo src dst w Hdst), (copy_obj_loop src dst _ w Hdst). }
  rewrite E. cbn [stream warnings accesses dstObject].
  split; [done|]. split; [done|]. split; [done|].
  eexists. split; [done|]. split; [by rewrite copied_length|].
  intros j mp Hj. change (properties mo) with (properties_from 0 mo).
  rewrite copied_lookup by lia. rewrite decide_True by lia. rewrite Nat.sub_0_r, Hj.
  destruct (isWritable mp); [|done].
  unfold readOnGadget. apply lookup_lt_Some in Hj.
  destruct (src !! j) eqn:E'; [done|]. apply lookup_ge_None in E'. lia.
Qed.

(** *** Stream to object, whatever the stream holds *)




(** *** Two objects, one after the other *)

(** The stream is first in, first out: two objects written one after the
    other with [copyStoredProperties(mo, src, stream)] are read back in
    that order, and the stream is empty again after the second. *)
Theorem copyStoredProperties_fifo (mo : QMetaObject) (src1 src2 dst : @Gadget QVariant)
    (w : World) :
  length src1 = length mo → length src2 = length mo → length dst = length mo →
  forallb isWritable mo = true →
  codecRoundTrips invalid encodeVariant decodeVariant mo src1 →
  codecRoundTrips invalid encodeVariant decodeVariant mo src2 →
  dstObject w = Some dst → stream w = [] →
  let w1 := exec (copy_in mo)
              (exec (copy_out mo (Some src2)) (exec (copy_out mo (Some src1)) w)) in
  let w2 := exec (copy_in mo) w1 in
  dstObject w1 = Some src1 ∧ dstObject w2 = Some src2 ∧
  stream w2 = [] ∧ warnings w2 = warnings w.
Proof.
  intros H1 H2 Hd Hw Hc1 Hc2 Hdst Hstream. cbv zeta.
  unfold copyStoredProperties_out. rewrite !copy_out_loop.
  cbn [dstObject stream warnings accesses]. rewrite Hstream, Hdst. cbn [app].
  rewrite (copy_in_unfold invalid decodeVariant mo dst) by done.
  rewrite (copy_in_loop invalid encodeVariant decodeVariant src1 dst (properties mo)
             (encoded invalid encodeVariant src2 (properties mo))) by done.
  rewrite written_all by done.
  rewrite (copy_in_unfold invalid decodeVariant mo src1) by done.
  rewrite (copy_in_loop invalid encodeVariant decodeVariant src2 src1 (properties mo) [])
    by (by rewrite ?app_nil_r).
  cbn [dstObject stream warnings]. by rewrite written_all.
Qed.

End Codec.

(** *** With the concrete codec *)

Definition copy_obj_id := @copyStoredProperties_obj (option Z) unit None.

Definition mixedGadget : @StoredProperties.QMetaObject unit :=
  [intProperty "id" false; intProperty "x" true].

Lemma copyStoredProperties_obj_copies_writable_witness :
  let w := mkWorld (Some [Some 1; Some 2]) [Some 9] [] [] in
  let w' := exec (copy_obj_id mixedGadget (Some [Some 7; Some 8])) w in
  stream w' = stream w ∧ warnings w' = warnings w ∧
  accesses w'
    = accesses w ++ flat_map (λ x, [ReadProperty x.1; WriteProperty x.1]) (properties mixedGadget) ∧
  ∃ dst', dstObject w' = Some dst' ∧ length dst' = length mixedGadget ∧
    ∀ j mp, mixedGadget !! j = Some mp →
      dst' !! j = if isWritable mp then [Some 7; Some 8] !! j else [Some 1; Some 2] !! j.
Proof.
  exact (copyStoredProperties_obj_copies_writable None mixedGadget [Some 7; Some 8]
           [Some 1; Some 2] (mkWorld (Some [Some 1; Some 2]) [Some 9] [] [])
           eq_refl eq_refl eq_refl).
Defined.

Example mixedGadget_copy :
  exec (copy_obj_id mixedGadget (Some [Some 7; Some 8]))
       (mkWorld (Some [Some 1; Some 2]) [Some 9] [] [])
  = mkWorld (Some [Some 1; Some 8]) [Some 9] []
      [ReadProperty 0; WriteProperty 0; ReadProperty 1; WriteProperty 1].
Proof. reflexivity. Qed.


Example mixedGadget_short_stream :
  exec (copy_in_id mixedGadget) (mkWorld (Some [Some 1; Some 2]) [Some 5] [] [])
  = mkWorld (Some [Some 1; None]) [] [] [WriteProperty 0; WriteProperty 1].
Proof. reflexivity. Qed.

Lemma copyStoredProperties_fifo_witness :
  let w := mkWorld (Some [None; None]) [] [] [] in
  let w1 := exec (copy_in_id pointGadget)
              (exec (copy_out_id pointGadget (Some [Some 5; Some 6]))
                 (exec (copy_out_id pointGadget (Some [Some 3; Some 4])) w)) in
  let w2 := exec (copy_in_id pointGadget) w1 in
  dstObject w1 = Some [Some 3; Some 4] ∧ dstObject w2 = Some [Some 5; Some 6] ∧
  stream w2 = [] ∧ warnings w2 = warnings w.
Proof.
  exact (copyStoredProperties_fifo None (λ v, v) (λ v _, v) pointGadget
           [Some 3; Some 4] [Some 5; Some 6] [None; None] (mkWorld (Some [None; None]) [] [] [])
           eq_refl eq_refl eq_refl eq_refl (λ _ _ _, eq_refl) (λ _ _ _, eq_refl)
           eq_refl eq_refl).
Defined.

End StoredPropertiesMore.

(* ================================================================== *)
(** * Replica, source and capability map number signals and slots alike *)

Module ClassTextFacts.
Import Repc SourceApi ClassText SourceApiFacts.

Lemma map_name_transformEnumParams (ac : ASTClass.t) (fs : list ASTFunction.t) (typeName : QString) :
  map ASTFunction.name (transformEnumParams ac fs typeName) = map ASTFunction.name fs.
Proof. unfold transformEnumParams. rewrite map_map. by apply map_ext. Qed.

Lemma filter_nil_inv {A} (P : A → Prop) `{∀ x, Decision (P x)} (l : list A) :
  l = [] → filter P l = [].
Proof. by intros ->. Qed.

(** What [generateSourceAPI] passes as names to [qtro_signal_index] and to
    [qtro_method_index], in the order of [m_signals] and [m_methods]. *)
Definition signalCallNames (ac : ASTClass.t) : list QString :=
  map (λ prop, ASTProperty.name prop +:+ "Changed") (onChangeProperties ac) ++
  map ASTFunction.name (ASTClass.signalsList ac).

Definition methodCallNames (ac : ASTClass.t) : list QString :=
  map (λ prop, "push" +:+ cap (ASTProperty.name prop)) (pushProps ac) ++
  map ASTFunction.name (ASTClass.slotsList ac).

Lemma signalEntries_names (ot : ObjectType) (ac : ASTClass.t) (i : nat) (n : QString) :
  signalCallNames ac !! i = Some n →
  ∃ types, signalEntries ot ac !! i = Some (qtro_signal_index ot n types).
Proof.
  unfold signalCallNames, signalEntries, transformEnumParams.
  change (map ?f ?l) with (f <$> l). rewrite <-!list_fmap_compose.
  intros H. apply lookup_app_Some in H as [H|[Hlen H]].
  - apply list_lookup_fmap_Some in H as (prop & -> & Hprop).
    exists [fullyQualifiedTypeName ac objectTypeName (typeForMode prop SOURCE)].
    rewrite lookup_app_l by (rewrite length_fmap; by eapply lookup_lt_Some).
    by rewrite list_lookup_fmap, Hprop.
  - rewrite length_fmap in Hlen, H.
    apply list_lookup_fmap_Some in H as (sig & -> & Hsig).
    exists (map ASTDeclaration.type
              (map (transformParam ac objectTypeName) (ASTFunction.params sig))).
    rewrite lookup_app_r by (by rewrite length_fmap).
    rewrite length_fmap, list_lookup_fmap, Hsig. reflexivity.
Qed.

Lemma methodEntries_names (ot : ObjectType) (ac : ASTClass.t) (i : nat) (n : QString) :
  methodCallNames ac !! i = Some n →
  ∃ types, methodEntries ot ac !! i = Some (qtro_method_index ot n types).
Proof.
  unfold methodCallNames, methodEntries, transformEnumParams.
  change (map ?f ?l) with (f <$> l). rewrite <-!list_fmap_compose.
  intros H. apply lookup_app_Some in H as [H|[Hlen H]].
  - apply list_lookup_fmap_Some in H as (prop & -> & Hprop).
    exists [fullyQualifiedTypeName ac objectTypeName (ASTProperty.type prop)].
    rewrite lookup_app_l by (rewrite length_fmap; by eapply lookup_lt_Some).
    by rewrite list_lookup_fmap, Hprop.
  - rewrite length_fmap in Hlen, H.
    apply list_lookup_fmap_Some in H as (slot & -> & Hslot).
    exists (map ASTDeclaration.type
              (map (transformParam ac objectTypeName) (ASTFunction.params slot))).
    rewrite lookup_app_r by (by rewrite length_fmap).
    rewrite length_fmap, list_lookup_fmap, Hslot. reflexivity.
Qed.

Lemma signalNames_source (ac : ASTClass.t) : signalNames SOURCE ac = signalCallNames ac.
Proof.
  unfold signalNames, signalCallNames. rewrite map_name_transformEnumParams.
  rewrite onChangeProperties_filter.
  assert (Hnone : filter (λ property, SOURCE = REPLICA ∧ ASTProperty.modifier property = Constant)
                    (ASTClass.properties ac) = []).
  { induction (ASTClass.properties ac) as [|p l IH]; [done|].
    rewrite filter_cons, decide_False; [done|]. by intros [? _]. }
  rewrite Hnone. cbn [map]. rewrite app_nil_r.
  case_bool_decide as Hany; [done|].
  assert (Hp : ASTClass.properties ac = []) by (apply dec_stable; intros ?; apply Hany; tauto).
  assert (Hs : ASTClass.signalsList ac = []) by (apply dec_stable; intros ?; apply Hany; tauto).
  by rewrite Hp, Hs.
Qed.

Lemma signalNames_replica (ac : ASTClass.t) :
  signalNames REPLICA ac
  = signalCallNames ac ++
    map (λ property, ASTProperty.name property +:+ "Changed")
        (filter (λ property, ASTProperty.modifier property = Constant) (ASTClass.properties ac)).
Proof.
  unfold signalNames, signalCallNames. rewrite map_name_transformEnumParams.
  rewrite onChangeProperties_filter.
  assert (Hconst : filter (λ property, REPLICA = REPLICA ∧ ASTProperty.modifier property = Constant)
                     (ASTClass.properties ac)
                   = filter (λ property, ASTProperty.modifier property = Constant)
                       (ASTClass.properties ac)).
  { apply list_filter_iff. intros p. tauto. }
  rewrite Hconst, <-app_assoc.
  case_bool_decide as Hany; [done|].
  assert (Hp : ASTClass.properties ac = []) by (apply dec_stable; intros ?; apply Hany; tauto).
  assert (Hs : ASTClass.signalsList ac = []) by (apply dec_stable; intros ?; apply Hany; tauto).
  by rewrite Hp, Hs.
Qed.

Lemma slotNames_calls (mode : Mode) (ac : ASTClass.t) :
  mode ≠ SIMPLE_SOURCE → slotNames mode ac = methodCallNames ac.
Proof.
  intros Hmode.
  assert (E : (let hasWriteSlots :=
                 existsb (λ property, bool_decide (ASTProperty.modifier property = ReadPush))
                         (ASTClass.properties ac) in
               if hasWriteSlots || bool_decide (ASTClass.slotsList ac ≠ []) then
                 map (λ property, "push" +:+ cap (ASTProperty.name property))
                     (filter (λ property, ASTProperty.modifier property = ReadPush)
                             (ASTClass.properties ac)) ++
                 map ASTFunction.name
                     (transformEnumParams ac (ASTClass.slotsList ac) (className mode ac))
               else []) = methodCallNames ac).
  { cbv zeta. unfold methodCallNames, pushProps. rewrite map_name_transformEnumParams.
    destruct (existsb _ (ASTClass.properties ac)) eqn:Hex; [done|]. cbn [orb].
    case_bool_decide as Hs; [done|]. rewrite Hs. cbn [map].
    rewrite app_nil_r.
    assert (Hnone : filter (λ property, ASTProperty.modifier property = ReadPush)
                      (ASTClass.properties ac) = []).
    { induction (ASTClass.properties ac) as [|p l IH]; [done|].
      cbn [existsb] in Hex. apply orb_false_iff in Hex as [Hp Hl].
      apply bool_decide_eq_false in Hp. rewrite filter_cons, decide_False by done. by apply IH. }
    by rewrite Hnone. }
  unfold slotNames. by destruct mode.
Qed.

(** The replica class and the source class declare the same signals in the
    same order -- the change signals of the properties that are not
    [Constant], then the signals of the class --, the replica adding the
    change signals of its [Constant] properties after them; and the same
    slots in the same order, the push slots first.  That order is the order
    of [m_signals] and [m_methods] in the capability map: the entry at an
    index is looked up under the name declared at that index. *)
Theorem signals_and_slots_declared_in_table_order (ot : ObjectType) (ac : ASTClass.t) :
  signalNames REPLICA ac
    = signalNames SOURCE ac ++
      map (λ property, ASTProperty.name property +:+ "Changed")
          (filter (λ property, ASTProperty.modifier property = Constant) (ASTClass.properties ac)) ∧
  slotNames REPLICA ac = slotNames SOURCE ac ∧
  Z.of_nat (length (signalNames SOURCE ac)) = signalCount ac + changedCount ac ∧
  Z.of_nat (length (slotNames SOURCE ac)) = methodCount ac ∧
  (∀ i n, signalNames SOURCE ac !! i = Some n →
     ∃ types, signalEntries ot ac !! i = Some (qtro_signal_index ot n types)) ∧
  (∀ i n, slotNames SOURCE ac !! i = Some n →
     ∃ types, methodEntries ot ac !! i = Some (qtro_method_index ot n types)).
Proof.
  rewrite signalNames_replica, signalNames_source, !slotNames_calls by done.
  split; [done|]. split; [done|]. split; [|split; [|split]].
  - unfold signalCallNames, signalCount, changedCount, count.
    rewrite length_app, !length_map. lia.
  - unfold methodCallNames, methodCount, count. rewrite length_app, !length_map. lia.
  - apply signalEntries_names.
  - apply methodEntries_names.
Qed.

Example pump_declarations :
  signalNames REPLICA SourceApiMore.twoChanging
    = ["rateChanged"; "runningChanged"; "serialChanged"]%string ∧
  signalNames SOURCE SourceApiMore.twoChanging = ["rateChanged"; "runningChanged"]%string ∧
  slotNames REPLICA SourceApiMore.twoChanging = ["pushRunning"; "unit"; "stop"]%string.
Proof. repeat split. Qed.

(** *** [transformEnumParams] and [fullyQualifiedTypeName] *)

Lemma transformParam_fold (es : list ASTEnum.t) (typeName : QString) (p : ASTDeclaration.t) :
  (∀ e, e ∈ es → ASTEnum.name e ≠ ASTDeclaration.type p) →
  fold_left (λ p astEnum,
    if String.eqb (ASTEnum.name astEnum) (ASTDeclaration.type p)
    then ASTDeclaration.mk (typeName +:+ "::" +:+ ASTDeclaration.type p)
                           (ASTDeclaration.name p) (ASTDeclaration.variableType p)
    else p) es p = p.
Proof.
  induction es as [|e es IH]; intros Hno; [done|]. cbn [fold_left].
  destruct (String.eqb_spec (ASTEnum.name e) (ASTDeclaration.type p)) as [E|_].
  - exfalso. apply (Hno e); [apply elem_of_cons; by left|done].
  - apply IH. intros e' He'. apply Hno. apply elem_of_cons; by right.
Qed.

(** A parameter of a signal or slot gets the class scope exactly as a
    property type does: after [transformEnumParams] its type is what
    [fullyQualifiedTypeName] gives for it, its name and the rest are as
    before -- provided no enum of the class is itself named like a
    qualified type [typeName::t]. *)
Theorem transformEnumParams_qualifies (classContext : ASTClass.t) (typeName : QString)
    (astParam : ASTDeclaration.t) :
  (∀ e, e ∈ ASTClass.enums classContext →
     ASTEnum.name e ≠ typeName +:+ "::" +:+ ASTDeclaration.type astParam) →
  transformParam classContext typeName astParam
  = ASTDeclaration.mk
      (fullyQualifiedTypeName classContext typeName (ASTDeclaration.type astParam))
      (ASTDeclaration.name astParam) (ASTDeclaration.variableType astParam).
Proof.
  unfold transformParam, fullyQualifiedTypeName, isClassEnum.
  induction (ASTClass.enums classContext) as [|e es IH]; intros Hno.
  - by destruct astParam.
  - cbn [fold_left existsb].
    destruct (String.eqb_spec (ASTEnum.name e) (ASTDeclaration.type astParam)) as [E|E].
    + cbn [orb]. apply transformParam_fold. cbn [ASTDeclaration.type].
      intros e' He'. apply Hno. apply elem_of_cons; by right.
    + cbn [orb]. apply IH. intros e' He'. apply Hno. apply elem_of_cons; by right.
Qed.

Lemma transformEnumParams_qualifies_witness :
  transformParam SignatureFacts.sensor objectTypeName (ASTDeclaration.mk "Unit" "unit" 0)
  = ASTDeclaration.mk
      (fullyQualifiedTypeName SignatureFacts.sensor objectTypeName
         (ASTDeclaration.type (ASTDeclaration.mk "Unit" "unit" 0)))
      (ASTDeclaration.name (ASTDeclaration.mk "Unit" "unit" 0))
      (ASTDeclaration.variableType (ASTDeclaration.mk "Unit" "unit" 0)).
Proof.
  apply (transformEnumParams_qualifies SignatureFacts.sensor objectTypeName
           (ASTDeclaration.mk "Unit" "unit" 0)).
  intros e He. apply list_elem_of_singleton in He as ->. vm_compute. discriminate.
Defined.

End ClassTextFacts.
